(** * Live translation relay: sentence accumulation, single-flight relay,
      room registry and WAV container.

    Shallow embedding of [src/voice-processor.js] (class [VoiceProcessor])
    and of the room handlers and socket wiring of [src/server.js].

    The objects of the program live in an explicit store: a heap of
    [VoiceProcessor] objects named by reference and the [activeSessions]
    map. Async functions are cut at their [await]s: the part of a call
    that waits on a settled promise is a promise job, the part that waits
    on an external engine is a pending call that the environment answers
    later. Values read from JSON are strings or absent; console logging
    is left out. *)

From Stdlib Require Import ZArith NArith List Lia Bool.
From stdpp Require Import base option list strings gmap.
Import ListNotations.

Local Open Scope Z_scope.

(** ** JavaScript strings

    A JavaScript string is a sequence of UTF-16 code units. *)

Abbreviation jsstring := (list N).

Definition js (s : String.string) : jsstring :=
  map Ascii.N_of_ascii (String.list_ascii_of_string s).
Arguments js s%_string.

(** [!s] for a string: only the empty string is falsy. *)
Definition truthy (s : jsstring) : bool :=
  match s with [] => false | _ :: _ => true end.

(** [!v] for a value that is [null]/[undefined] ([None]) or a string. *)
Definition truthy_opt (v : option jsstring) : bool :=
  match v with None => false | Some s => truthy s end.

(** [v || d] *)
Definition or_else (v : option jsstring) (d : jsstring) : jsstring :=
  match v with
  | Some s => if truthy s then s else d
  | None => d
  end.

(** WhiteSpace and LineTerminator code units, the ones [String.prototype.trim]
    strips. *)
Definition isWhiteSpace (c : N) : bool :=
  match c with
  | 9 | 10 | 11 | 12 | 13 | 32 | 160 | 5760 | 8232 | 8233 | 8239 | 8287
  | 12288 | 65279 => true
  | _ => (8192 <=? c) && (c <=? 8202)
  end%N.

Fixpoint trimStart (s : jsstring) : jsstring :=
  match s with
  | [] => []
  | c :: s' => if isWhiteSpace c then trimStart s' else s
  end.

Definition trimEnd (s : jsstring) : jsstring := rev (trimStart (rev s)).

Definition trim (s : jsstring) : jsstring := trimEnd (trimStart s).

(** [s.split(sep)[0]] for a one-unit separator: the part before its first
    occurrence, the whole string when it does not occur. *)
Fixpoint split_head (sep : N) (s : jsstring) : jsstring :=
  match s with
  | [] => []
  | c :: s' => if (c =? sep)%N then [] else c :: split_head sep s'
  end.

Definition HYPHEN : N := 45.
Definition SPACE : N := 32.

(** [(lang || "en").split("-")[0]] *)
Definition base_lang (lang : option jsstring) : jsstring :=
  split_head HYPHEN (or_else lang (js "en")).

(** ** Completions: a value or a thrown exception *)

Inductive exn := RangeError.

Inductive completion (A : Type) :=
| normal (a : A)
| thrown (e : exn).
Arguments normal {A} a.
Arguments thrown {A} e.

#[global] Instance completion_ret : MRet completion := fun A a => normal a.

#[global] Instance completion_bind : MBind completion := fun A B k m =>
  match m with
  | normal a => k a
  | thrown e => thrown e
  end.

(** ** Buffers *)

Abbreviation Buffer := (list Z).

Definition Buffer_alloc (n : nat) : Buffer := repeat 0 n.

(** Overwrite [bytes] into [buf] from [offset] on; callers stay in range. *)
Definition blit (offset : nat) (bytes : Buffer) (buf : Buffer) : Buffer :=
  take offset buf ++ bytes ++ drop (offset + length bytes) buf.

(** [buf.write(s, offset)] for an ASCII string that fits. *)
Definition Buffer_write (s : String.string) (offset : nat) (buf : Buffer) : Buffer :=
  blit offset (map Z.of_N (js s)) buf.
Arguments Buffer_write s%_string offset%_nat buf.

Definition le16 (v : Z) : Buffer := [v mod 256; (v / 256) mod 256].

Definition le32 (v : Z) : Buffer :=
  [v mod 256; (v / 256) mod 256; (v / 65536) mod 256; (v / 16777216) mod 256].

(** [buf.writeUInt32LE(value, offset)]: the value is range-checked, then the
    offset, and either failure throws. *)
Definition writeUInt32LE (value : Z) (offset : nat) (buf : Buffer) : completion Buffer :=
  if (value <? 0) || (4294967295 <? value) then thrown RangeError
  else if (length buf <? offset + 4)%nat then thrown RangeError
  else normal (blit offset (le32 value) buf).

Definition writeUInt16LE (value : Z) (offset : nat) (buf : Buffer) : completion Buffer :=
  if (value <? 0) || (65535 <? value) then thrown RangeError
  else if (length buf <? offset + 2)%nat then thrown RangeError
  else normal (blit offset (le16 value) buf).

(** [_toWav(pcm, rate)] *)
Definition _toWav (pcm : Buffer) (rate : Z) : completion Buffer :=
  let h := Buffer_alloc 44 in
  let h := Buffer_write "RIFF" 0 h in
  h ← writeUInt32LE (36 + Z.of_nat (length pcm)) 4 h;
  let h := Buffer_write "WAVE" 8 h in
  let h := Buffer_write "fmt " 12 h in
  h ← writeUInt32LE 16 16 h;
  h ← writeUInt16LE 1 20 h;
  h ← writeUInt16LE 1 22 h;
  h ← writeUInt32LE rate 24 h;
  h ← writeUInt32LE (rate * 2) 28 h;
  h ← writeUInt16LE 2 32 h;
  h ← writeUInt16LE 16 34 h;
  let h := Buffer_write "data" 36 h in
  h ← writeUInt32LE (Z.of_nat (length pcm)) 40 h;
  normal (h ++ pcm).

(** *** Reading a canonical RIFF/WAVE header back

    The decoder follows the container layout, not [_toWav]: chunk id at 0,
    RIFF size at 4, form type at 8, ["fmt "] at 12 with its size at 16, then
    audio format, channel count, sample rate, byte rate, block align and bits
    per sample, ["data"] at 36 and the data size at 40. *)

Definition readUInt16LE (offset : nat) (buf : Buffer) : Z :=
  match drop offset buf with
  | b0 :: b1 :: _ => b0 + 256 * b1
  | _ => 0
  end.

Definition readUInt32LE (offset : nat) (buf : Buffer) : Z :=
  match drop offset buf with
  | b0 :: b1 :: b2 :: b3 :: _ => b0 + 256 * b1 + 65536 * b2 + 16777216 * b3
  | _ => 0
  end.

Definition tag_at (offset : nat) (tag : String.string) (buf : Buffer) : bool :=
  bool_decide (take 4 (drop offset buf) = map Z.of_N (js tag)).
Arguments tag_at offset%_nat tag%_string buf.

Record WavHeader := {
  riffSize : Z;
  audioFormat : Z;
  numChannels : Z;
  sampleRate : Z;
  byteRate : Z;
  blockAlign : Z;
  bitsPerSample : Z;
  dataSize : Z
}.

Definition decode_wav_header (buf : Buffer) : option WavHeader :=
  if (44 <=? length buf)%nat
     && tag_at 0 "RIFF" buf && tag_at 8 "WAVE" buf
     && tag_at 12 "fmt " buf && (readUInt32LE 16 buf =? 16)
     && tag_at 36 "data" buf
  then Some {| riffSize := readUInt32LE 4 buf;
               audioFormat := readUInt16LE 20 buf;
               numChannels := readUInt16LE 22 buf;
               sampleRate := readUInt32LE 24 buf;
               byteRate := readUInt32LE 28 buf;
               blockAlign := readUInt16LE 32 buf;
               bitsPerSample := readUInt16LE 34 buf;
               dataSize := readUInt32LE 40 buf |}
  else None.

(** ** Data model *)

(** Objects of class [VoiceProcessor] live in a heap and are named by their
    index; a session's [callerConnection] / [receiverConnection] hold such
    references, so two slots may alias one object. *)
Abbreviation ref := nat.

(** The fields of a [VoiceProcessor]; [ws_readyState] is [this.ws.readyState]
    (1 is OPEN), [recognizeStream] tells whether the handle is non-null and
    [sentenceTimer] whether a timer handle is stored. *)
Record VoiceProcessor := {
  ws_readyState : Z;
  roomId : option jsstring;
  userType : option jsstring;
  myLanguage : option jsstring;
  myName : option jsstring;
  recognizeStream : bool;
  isStreaming : bool;
  streamCreatedAt : Z;
  sentence : jsstring;
  lastInterim : jsstring;
  lastSentence : jsstring;
  sentenceTimer : bool;
  isProcessing : bool
}.

Definition set_ws_readyState (v : Z) (c : VoiceProcessor) : VoiceProcessor :=
  {| ws_readyState := v; roomId := roomId c; userType := userType c;
     myLanguage := myLanguage c; myName := myName c;
     recognizeStream := recognizeStream c; isStreaming := isStreaming c;
     streamCreatedAt := streamCreatedAt c; sentence := sentence c;
     lastInterim := lastInterim c; lastSentence := lastSentence c;
     sentenceTimer := sentenceTimer c; isProcessing := isProcessing c |}.

Definition set_user (r u l n : option jsstring) (c : VoiceProcessor) : VoiceProcessor :=
  {| ws_readyState := ws_readyState c; roomId := r; userType := u;
     myLanguage := l; myName := n; recognizeStream := recognizeStream c;
     isStreaming := isStreaming c; streamCreatedAt := streamCreatedAt c;
     sentence := sentence c; lastInterim := lastInterim c;
     lastSentence := lastSentence c; sentenceTimer := sentenceTimer c;
     isProcessing := isProcessing c |}.

Definition set_stream (rs st : bool) (c : VoiceProcessor) : VoiceProcessor :=
  {| ws_readyState := ws_readyState c; roomId := roomId c;
     userType := userType c; myLanguage := myLanguage c; myName := myName c;
     recognizeStream := rs; isStreaming := st;
     streamCreatedAt := streamCreatedAt c; sentence := sentence c;
     lastInterim := lastInterim c; lastSentence := lastSentence c;
     sentenceTimer := sentenceTimer c; isProcessing := isProcessing c |}.

Definition set_streamCreatedAt (v : Z) (c : VoiceProcessor) : VoiceProcessor :=
  {| ws_readyState := ws_readyState c; roomId := roomId c;
     userType := userType c; myLanguage := myLanguage c; myName := myName c;
     recognizeStream := recognizeStream c; isStreaming := isStreaming c;
     streamCreatedAt := v; sentence := sentence c;
     lastInterim := lastInterim c; lastSentence := lastSentence c;
     sentenceTimer := sentenceTimer c; isProcessing := isProcessing c |}.

Definition set_sentence (v : jsstring) (c : VoiceProcessor) : VoiceProcessor :=
  {| ws_readyState := ws_readyState c; roomId := roomId c;
     userType := userType c; myLanguage := myLanguage c; myName := myName c;
     recognizeStream := recognizeStream c; isStreaming := isStreaming c;
     streamCreatedAt := streamCreatedAt c; sentence := v;
     lastInterim := lastInterim c; lastSentence := lastSentence c;
     sentenceTimer := sentenceTimer c; isProcessing := isProcessing c |}.

Definition set_lastInterim (v : jsstring) (c : VoiceProcessor) : VoiceProcessor :=
  {| ws_readyState := ws_readyState c; roomId := roomId c;
     userType := userType c; myLanguage := myLanguage c; myName := myName c;
     recognizeStream := recognizeStream c; isStreaming := isStreaming c;
     streamCreatedAt := streamCreatedAt c; sentence := sentence c;
     lastInterim := v; lastSentence := lastSentence c;
     sentenceTimer := sentenceTimer c; isProcessing := isProcessing c |}.

Definition set_lastSentence (v : jsstring) (c : VoiceProcessor) : VoiceProcessor :=
  {| ws_readyState := ws_readyState c; roomId := roomId c;
     userType := userType c; myLanguage := myLanguage c; myName := myName c;
     recognizeStream := recognizeStream c; isStreaming := isStreaming c;
     streamCreatedAt := streamCreatedAt c; sentence := sentence c;
     lastInterim := lastInterim c; lastSentence := v;
     sentenceTimer := sentenceTimer c; isProcessing := isProcessing c |}.

Definition set_sentenceTimer (v : bool) (c : VoiceProcessor) : VoiceProcessor :=
  {| ws_readyState := ws_readyState c; roomId := roomId c;
     userType := userType c; myLanguage := myLanguage c; myName := myName c;
     recognizeStream := recognizeStream c; isStreaming := isStreaming c;
     streamCreatedAt := streamCreatedAt c; sentence := sentence c;
     lastInterim := lastInterim c; lastSentence := lastSentence c;
     sentenceTimer := v; isProcessing := isProcessing c |}.

Definition set_isProcessing (v : bool) (c : VoiceProcessor) : VoiceProcessor :=
  {| ws_readyState := ws_readyState c; roomId := roomId c;
     userType := userType c; myLanguage := myLanguage c; myName := myName c;
     recognizeStream := recognizeStream c; isStreaming := isStreaming c;
     streamCreatedAt := streamCreatedAt c; sentence := sentence c;
     lastInterim := lastInterim c; lastSentence := lastSentence c;
     sentenceTimer := sentenceTimer c; isProcessing := v |}.

(** [new VoiceProcessor(ws, activeSessions)] on a freshly accepted socket. *)
Definition new_VoiceProcessor : VoiceProcessor :=
  {| ws_readyState := 1; roomId := None; userType := None; myLanguage := None;
     myName := None; recognizeStream := false; isStreaming := false;
     streamCreatedAt := 0; sentence := []; lastInterim := [];
     lastSentence := []; sentenceTimer := false; isProcessing := false |}.

(** A record of [activeSessions]. *)
Record Session := {
  creatorLanguage : option jsstring;
  creatorName : option jsstring;
  participantLanguage : option jsstring;
  participantName : option jsstring;
  callerConnection : option ref;
  receiverConnection : option ref;
  createdAt : Z
}.

Definition set_participant (l n : option jsstring) (s : Session) : Session :=
  {| creatorLanguage := creatorLanguage s; creatorName := creatorName s;
     participantLanguage := l; participantName := n;
     callerConnection := callerConnection s;
     receiverConnection := receiverConnection s; createdAt := createdAt s |}.

Definition set_callerConnection (r : option ref) (s : Session) : Session :=
  {| creatorLanguage := creatorLanguage s; creatorName := creatorName s;
     participantLanguage := participantLanguage s;
     participantName := participantName s; callerConnection := r;
     receiverConnection := receiverConnection s; createdAt := createdAt s |}.

Definition set_receiverConnection (r : option ref) (s : Session) : Session :=
  {| creatorLanguage := creatorLanguage s; creatorName := creatorName s;
     participantLanguage := participantLanguage s;
     participantName := participantName s;
     callerConnection := callerConnection s; receiverConnection := r;
     createdAt := createdAt s |}.

(** Outbound events of the real-time channel. [audio_playback] carries the
    WAV buffer that the code sends base64-encoded with [format: "wav"]. *)
Inductive OutMsg :=
| transcript_interim (text : jsstring)
| translation (originalText translatedText : jsstring)
    (fromUser fromLanguage toLanguage : option jsstring)
| audio_playback (audio : Buffer)
| user_joined (name : option jsstring) (language : option jsstring)
| user_left.

(** What an observer of the process sees, in the order it happens:
    [relay this text] is an invocation [this._translateAndSpeak(text)],
    [sent to m] a [ws.send] of [m] on the socket of connection [to]. *)
Inductive Obs :=
| relay (this : ref) (text : jsstring)
| sent (to : ref) (m : OutMsg).

(** Suspended async calls whose awaited promise is already settled: the
    promise jobs of the current task, first in first out. *)
Inductive Job :=
| after_translate (this partner : ref) (text translated : jsstring)
| after_stopStream (this : ref).

(** Requests to the external engines that have not replied yet; each holds
    the round of [_translateAndSpeak] that awaits it. *)
Inductive Call :=
| translate_call (this partner : ref) (text fromLang toLang : jsstring)
| synthesize_call (this partner : ref) (text : jsstring) (lang : option jsstring).

Record World := {
  heap : list VoiceProcessor;
  activeSessions : gmap jsstring Session;
  jobs : list Job;
  calls : list Call;
  log : list Obs
}.

Definition set_heap (h : list VoiceProcessor) (w : World) : World :=
  {| heap := h; activeSessions := activeSessions w; jobs := jobs w;
     calls := calls w; log := log w |}.

Definition set_activeSessions (m : gmap jsstring Session) (w : World) : World :=
  {| heap := heap w; activeSessions := m; jobs := jobs w; calls := calls w;
     log := log w |}.

Definition set_jobs (j : list Job) (w : World) : World :=
  {| heap := heap w; activeSessions := activeSessions w; jobs := j;
     calls := calls w; log := log w |}.

Definition set_calls (c : list Call) (w : World) : World :=
  {| heap := heap w; activeSessions := activeSessions w; jobs := jobs w;
     calls := c; log := log w |}.

Definition set_log (l : list Obs) (w : World) : World :=
  {| heap := heap w; activeSessions := activeSessions w; jobs := jobs w;
     calls := calls w; log := l |}.

Definition initial : World :=
  {| heap := []; activeSessions := ∅; jobs := []; calls := []; log := [] |}.

(** Field updates of the object [this]. *)
Definition modify (this : ref) (f : VoiceProcessor -> VoiceProcessor) (w : World) : World :=
  set_heap (alter f this (heap w)) w.

Definition emit (o : Obs) (w : World) : World := set_log (log w ++ [o]) w.

Definition enqueue (j : Job) (w : World) : World := set_jobs (jobs w ++ [j]) w.

Definition request (c : Call) (w : World) : World := set_calls (calls w ++ [c]) w.

(** [activeSessions.get(roomId)] *)
Definition get_session (w : World) (room : option jsstring) : option Session :=
  room ≫= fun r => activeSessions w !! r.

(** [ws.send(JSON.stringify(m))] on the socket of [to]. *)
Definition ws_send (to : ref) (m : OutMsg) (w : World) : World := emit (sent to m) w.

(** ** Operations of [VoiceProcessor] *)

(** [_sendToUI(data)]: a send on the own socket when it is open; its
    [try]/[catch] swallows everything else. *)
Definition _sendToUI (this : ref) (data : OutMsg) (w : World) : World :=
  match heap w !! this with
  | Some c => if ws_readyState c =? 1 then ws_send this data w else w
  | None => w
  end.

(** The partner slot: [userType === "caller" ? session.receiverConnection
    : session.callerConnection]. *)
Definition partner_of (c : VoiceProcessor) (s : Session) : option ref :=
  if bool_decide (userType c = Some (js "caller")) then receiverConnection s
  else callerConnection s.

(** [_notifyPartner(event, data)] *)
Definition _notifyPartner (this : ref) (m : OutMsg) (w : World) : World :=
  match heap w !! this with
  | Some c =>
    match get_session w (roomId c) with
    | Some session =>
      match partner_of c session with
      | Some p =>
        match heap w !! p with
        | Some pc => if ws_readyState pc =? 1 then ws_send p m w else w
        | None => w
        end
      | None => w
      end
    | None => w
    end
  | None => w
  end.

(** [_registerConnection()] *)
Definition _registerConnection (this : ref) (w : World) : World :=
  match heap w !! this with
  | Some c =>
    match roomId c with
    | Some room =>
      match activeSessions w !! room with
      | Some session =>
        let session :=
          if bool_decide (userType c = Some (js "caller"))
          then set_callerConnection (Some this) session
          else set_receiverConnection (Some this) session in
        set_activeSessions (<[room := session]> (activeSessions w)) w
      | None => w
      end
    | None => w
    end
  | None => w
  end.

(** The outcome of the synchronous part of [_translate]: either its promise
    is already fulfilled, or the engine has been called and is awaited. *)
Inductive Translating :=
| translate_done (result : jsstring)
| translate_pending (text fromLang toLang : jsstring).

(** [_translate(text, from, to)] up to its [await]. *)
Definition _translate (text : jsstring) (from to : option jsstring) : Translating :=
  let fromLang := base_lang from in
  let toLang := base_lang to in
  if bool_decide (fromLang = toLang) then translate_done text
  else translate_pending text fromLang toLang.

(** [_translate] after the engine settled: its result, or [text] from the
    [catch] when it failed ([None]). *)
Definition _translate_settle (text : jsstring) (reply : option jsstring) : jsstring :=
  match reply with
  | Some result => result
  | None => text
  end.

(** [_translateAndSpeak(text)] up to [await this._translate(...)]. The early
    [return]s inside [try] run the [finally] block; a reference that is not
    in the heap reads as [null]. *)
Definition _translateAndSpeak (this : ref) (text : jsstring) (w : World) : World :=
  let w := emit (relay this text) w in
  match heap w !! this with
  | Some c =>
    if isProcessing c || negb (truthy text) then w
    else
      let w := modify this (set_isProcessing true) w in
      let finally := modify this (set_isProcessing false) in
      match get_session w (roomId c) with
      | Some session =>
        match partner_of c session with
        | Some p =>
          match heap w !! p with
          | Some pc =>
            if truthy_opt (myLanguage pc) then
              match _translate text (myLanguage c) (myLanguage pc) with
              | translate_done translated =>
                  enqueue (after_translate this p text translated) w
              | translate_pending t fromLang toLang =>
                  request (translate_call this p t fromLang toLang) w
              end
            else finally w
          | None => finally w
          end
        | None => finally w
        end
      | None => finally w
      end
  | None => w
  end.

(** [_translateAndSpeak] from the value of [await this._translate(...)] to
    [await this._tts(...)]: both deliveries of the text, then the synthesis
    request. *)
Definition resume_translated (this partner : ref) (text translated : jsstring)
    (w : World) : World :=
  match heap w !! this, heap w !! partner with
  | Some c, Some pc =>
    let data := translation text translated (userType c) (myLanguage c)
                  (myLanguage pc) in
    let w := _sendToUI this data w in
    let w := _sendToUI partner data w in
    request (synthesize_call this partner translated (myLanguage pc)) w
  | _, _ => w
  end.

(** [_translateAndSpeak] from the value of [await this._tts(...)] to its end;
    [audio] is [None] when synthesis failed ([_tts] returned [null]). *)
Definition resume_synthesized (this partner : ref) (audio : option Buffer)
    (w : World) : World :=
  let try : completion World :=
    match audio, heap w !! partner with
    | Some pcm, Some pc =>
      if ws_readyState pc =? 1 then
        wav ← _toWav pcm 48000;
        mret (ws_send partner (audio_playback wav) w)
      else mret w
    | _, _ => mret w
    end in
  let w := match try with
           | normal w' => w'
           | thrown _ => w
           end in
  modify this (set_isProcessing false) w.

(** [if (this.sentenceTimer) { clearTimeout(this.sentenceTimer);
    this.sentenceTimer = null; }] *)
Definition clearSentenceTimer (c : VoiceProcessor) : VoiceProcessor :=
  if sentenceTimer c then set_sentenceTimer false c else c.

(** [_finalizeSentence()] *)
Definition _finalizeSentence (this : ref) (w : World) : World :=
  let w := modify this clearSentenceTimer w in
  match heap w !! this with
  | Some c =>
    if negb (truthy (sentence c)) || bool_decide (sentence c = lastSentence c)
    then w
    else
      let finalSentence := trim (sentence c) in
      let w := modify this (fun c => set_sentence [] (set_lastSentence finalSentence c)) w in
      _translateAndSpeak this finalSentence w
  | None => w
  end.

(** [_resetSentenceTimer()]: the old timer, if any, is cleared and a new one
    is armed. *)
Definition _resetSentenceTimer (c : VoiceProcessor) : VoiceProcessor :=
  set_sentenceTimer true c.

(** A streaming-recognition response: [results], each with the transcripts
    of its [alternatives] and its [isFinal] flag. *)
Record StreamingRecognitionResult := {
  alternatives : list jsstring;
  isFinal : bool
}.

Abbreviation Response := (list StreamingRecognitionResult).

(** [sentence ? sentence + " " + transcript : transcript] *)
Definition append_fragment (sentence transcript : jsstring) : jsstring :=
  if truthy sentence then sentence ++ SPACE :: transcript else transcript.

(** [_handleSTTData(response)] *)
Definition _handleSTTData (this : ref) (response : Response) (w : World) : World :=
  match response with
  | [] => w
  | result :: _ =>
    match alternatives result with
    | [] => w
    | alternative :: _ =>
      let transcript := trim alternative in
      if negb (truthy transcript) then w
      else
        let w :=
          if isFinal result then
            modify this (fun c =>
              set_lastInterim [] (set_sentence (append_fragment (sentence c) transcript) c)) w
          else
            match heap w !! this with
            | Some c =>
              let preview := append_fragment (sentence c) transcript in
              _sendToUI this (transcript_interim preview)
                (modify this (set_lastInterim preview) w)
            | None => w
            end in
        modify this _resetSentenceTimer w
    end
  end.

(** [_handleSTTError(err)]; the error only selects the log line. *)
Definition _handleSTTError (this : ref) (w : World) : World :=
  let w := modify this (set_stream false false) w in
  let w := modify this (fun c =>
             if negb (truthy (sentence c)) && truthy (lastInterim c)
                && negb (bool_decide (lastInterim c = lastSentence c))
             then set_sentence (lastInterim c) c else c) w in
  let w := match heap w !! this with
           | Some c =>
             if truthy (sentence c) && negb (bool_decide (sentence c = lastSentence c))
             then _finalizeSentence this w else w
           | None => w
           end in
  modify this (set_lastInterim []) w.

(** [_stopStream()], [_startStream()], [_restartStream()] and
    [_processAudio()]: they touch the stream fields of [this] only and their
    awaited promises are settled at once; [now] is [Date.now()], opening the
    stream is taken to succeed and [write_ok] tells whether
    [recognizeStream.write] does. *)
Definition _stopStream (c : VoiceProcessor) : VoiceProcessor :=
  set_stream false false c.

Definition _startStream (now : Z) (c : VoiceProcessor) : VoiceProcessor :=
  if isStreaming c then c
  else set_streamCreatedAt now (set_stream true true c).

Definition _restartStream (now : Z) (c : VoiceProcessor) : VoiceProcessor :=
  let savedSentence := sentence c in
  _startStream now (set_sentence savedSentence (_stopStream c)).

Definition _processAudio (now : Z) (write_ok : bool) (c : VoiceProcessor) : VoiceProcessor :=
  if negb (truthy_opt (myLanguage c)) then c
  else
    let c := if isStreaming c then c else _startStream now c in
    let c := if 50000 <? now - streamCreatedAt c then _restartStream now c else c in
    if recognizeStream c then (if write_ok then c else _restartStream now c)
    else c.

(** [cleanup()] up to [await this._stopStream()]. *)
Definition cleanup (this : ref) (w : World) : World :=
  let w := modify this clearSentenceTimer w in
  let w := match heap w !! this with
           | Some c =>
             if truthy (sentence c) && negb (bool_decide (sentence c = lastSentence c))
             then _finalizeSentence this w else w
           | None => w
           end in
  let w := modify this _stopStream w in
  enqueue (after_stopStream this) w.

(** The slots of a session that hold [this] are set to [null]. *)
Definition detach (this : ref) (s : Session) : Session :=
  let s := if bool_decide (callerConnection s = Some this)
           then set_callerConnection None s else s in
  if bool_decide (receiverConnection s = Some this)
  then set_receiverConnection None s else s.

(** [cleanup()] after [await this._stopStream()]. *)
Definition resume_cleanup (this : ref) (w : World) : World :=
  let w := match heap w !! this with
           | Some c =>
             match roomId c with
             | Some room =>
               match activeSessions w !! room with
               | Some session =>
                 set_activeSessions (<[room := detach this session]> (activeSessions w)) w
               | None => w
               end
             | None => w
             end
           | None => w
           end in
  _notifyPartner this user_left w.

(** Inbound events of the real-time channel; [audio] messages are handled
    by [_processAudio] and enter as [ws_audio] below. *)
Inductive InMsg :=
| connected (roomId userType myLanguage myName : option jsstring)
| disconnect
| stop
| unknown_event.

(** [handleMessage(msg)] for the events other than ["audio"]. *)
Definition handleMessage (this : ref) (msg : InMsg) (w : World) : World :=
  match msg with
  | connected room type lang name =>
    let name := Some (or_else name (js "User")) in
    let w := modify this (set_user room type lang name) w in
    let w := _registerConnection this w in
    _notifyPartner this (user_joined name lang) w
  | disconnect | stop => cleanup this w
  | unknown_event => w
  end.

(** ** The HTTP handlers of [server.js] *)

(** The JSON bodies the room handlers answer with. *)
Inductive JsonBody :=
| error_body (error : jsstring)
| room_created (roomId : jsstring)
| join_success (creatorLanguage creatorName : option jsstring)
| leave_success.

Record HttpResponse := { status : Z; body : JsonBody }.

(** [res.json(b)] answers with status 200, [res.status(n).json(b)] with [n]. *)
Definition res_json (b : JsonBody) : HttpResponse := {| status := 200; body := b |}.
Definition res_status_json (n : Z) (b : JsonBody) : HttpResponse :=
  {| status := n; body := b |}.

(** The fields [/join-room] reads from [req.body]. *)
Record JoinBody := {
  join_roomId : option jsstring;
  join_participantLanguage : option jsstring;
  join_participantName : option jsstring
}.

(** [POST /create-room]; [room] is the identifier drawn from [uuidv4()]. *)
Definition create_room (room : jsstring) (language name : option jsstring) (now : Z)
    (sessions : gmap jsstring Session) : HttpResponse * gmap jsstring Session :=
  (res_json (room_created room),
   <[room := {| creatorLanguage := language; creatorName := name;
                participantLanguage := None; participantName := None;
                callerConnection := None; receiverConnection := None;
                createdAt := now |}]> sessions).

(** [POST /join-room]; [req.body] is [None] when the request has no body,
    which makes the destructuring throw into the [catch]. *)
Definition join_room (req_body : option JoinBody) (sessions : gmap jsstring Session)
    : HttpResponse * gmap jsstring Session :=
  match req_body with
  | None => (res_status_json 500 (error_body (js "Failed to join room")), sessions)
  | Some b =>
    match join_roomId b ≫= fun r => (r,.) <$> sessions !! r with
    | None => (res_status_json 404 (error_body (js "Room not found")), sessions)
    | Some (room, session) =>
      if truthy_opt (participantLanguage session)
      then (res_status_json 400 (error_body (js "Room is full")), sessions)
      else
        let session := set_participant (join_participantLanguage b)
                         (join_participantName b) session in
        (res_json (join_success (creatorLanguage session) (creatorName session)),
         <[room := session]> sessions)
    end
  end.

(** [ws.close()] *)
Definition ws_close_call (c : VoiceProcessor) : VoiceProcessor :=
  if ws_readyState c =? 3 then c else set_ws_readyState 2 c.

(** [POST /leave-room] *)
Definition leave_room (room : option jsstring) (w : World) : HttpResponse * World :=
  match room ≫= fun r => (r,.) <$> activeSessions w !! r with
  | Some (r, session) =>
    let w := match callerConnection session with
             | Some p => modify p ws_close_call w
             | None => w
             end in
    let w := match receiverConnection session with
             | Some p => modify p ws_close_call w
             | None => w
             end in
    (res_json leave_success, set_activeSessions (delete r (activeSessions w)) w)
  | None => (res_json leave_success, w)
  end.

(** ** The event loop

    Every event is handled in a task of its own: its handler runs to its
    first suspension, then the promise jobs run in order. A socket is
    CLOSED (3) when its [close] event is emitted and CLOSING (2) when its
    [error] event is; a timer fires only while its handle is stored; an
    engine reply names the pending call it settles. *)

Inductive Event :=
| http_create_room (room : jsstring) (language name : option jsstring) (now : Z)
| http_join_room (req_body : option JoinBody)
| http_leave_room (room : option jsstring)
| ws_connection
| ws_message (this : ref) (msg : InMsg)
| ws_audio (this : ref) (now : Z) (write_ok : bool)
| ws_closed (this : ref)
| ws_error (this : ref)
| stt_data (this : ref) (response : Response)
| stt_error (this : ref)
| stt_end (this : ref)
| timer_fired (this : ref)
| translate_reply (i : nat) (result : option jsstring)
| synthesize_reply (i : nat) (audioContent : option Buffer).

Definition timer_callback (this : ref) (w : World) : World :=
  match heap w !! this with
  | Some c => if sentenceTimer c then _finalizeSentence this w else w
  | None => w
  end.

Definition handle (e : Event) (w : World) : World :=
  match e with
  | http_create_room room language name now =>
      set_activeSessions (create_room room language name now (activeSessions w)).2 w
  | http_join_room req_body =>
      set_activeSessions (join_room req_body (activeSessions w)).2 w
  | http_leave_room room => (leave_room room w).2
  | ws_connection => set_heap (heap w ++ [new_VoiceProcessor]) w
  | ws_message this msg => handleMessage this msg w
  | ws_audio this now write_ok => modify this (_processAudio now write_ok) w
  | ws_closed this => cleanup this (modify this (set_ws_readyState 3) w)
  | ws_error this => cleanup this (modify this (set_ws_readyState 2) w)
  | stt_data this response => _handleSTTData this response w
  | stt_error this => _handleSTTError this w
  | stt_end this => modify this (set_stream false false) w
  | timer_fired this => timer_callback this w
  | translate_reply i result =>
    match calls w !! i with
    | Some (translate_call this partner text _ _) =>
        enqueue (after_translate this partner text (_translate_settle text result))
          (set_calls (delete i (calls w)) w)
    | _ => w
    end
  | synthesize_reply i audioContent =>
    match calls w !! i with
    | Some (synthesize_call this partner _ _) =>
        resume_synthesized this partner audioContent (set_calls (delete i (calls w)) w)
    | _ => w
    end
  end.

Definition run_job (w : World) (j : Job) : World :=
  match j with
  | after_translate this partner text translated =>
      resume_translated this partner text translated w
  | after_stopStream this => resume_cleanup this w
  end.

(** The promise jobs queued by the task run first in, first out; no job
    queues another one. *)
Definition drain (w : World) : World :=
  fold_left run_job (jobs w) (set_jobs [] w).

Definition perform (w : World) (e : Event) : World := drain (handle e w).

Definition run (w : World) (es : list Event) : World := fold_left perform es w.

Inductive reachable : World -> Prop :=
| reachable_initial : reachable initial
| reachable_perform w e : reachable w -> reachable (perform w e).

(** ** Vocabulary of the statements *)

(** *** Observations *)

(** The invocations of [_translateAndSpeak] among the observations: the
    sentences dispatched to the relay. *)
Definition relays (l : list Obs) : list (ref * jsstring) :=
  omap (fun o => match o with
                 | relay this text => Some (this, text)
                 | sent _ _ => None
                 end) l.

(** What an observer sees from [w] on, up to [w']. *)
Definition observed (w w' : World) : list Obs := drop (length (log w)) (log w').

Fixpoint first_index {A} (f : A -> bool) (l : list A) : option nat :=
  match l with
  | [] => None
  | x :: l' => if f x then Some 0%nat else S <$> first_index f l'
  end.

Definition sent_to (p : ref) (f : OutMsg -> bool) (o : Obs) : bool :=
  match o with
  | sent q m => bool_decide (q = p) && f m
  | relay _ _ => false
  end.

Definition is_translation (m : OutMsg) : bool :=
  match m with translation _ _ _ _ _ => true | _ => false end.

Definition is_user_left (m : OutMsg) : bool :=
  match m with user_left => true | _ => false end.

(** Among the observations [l], connection [p] is sent a [translation] and,
    later, [user_left]. *)
Definition translation_before_user_left (p : ref) (l : list Obs) : bool :=
  match first_index (sent_to p is_translation) l,
        first_index (sent_to p is_user_left) l with
  | Some i, Some j => (i <? j)%nat
  | _, _ => false
  end.

(** *** Fragments and sentences *)

(** The space-joined concatenation of fragments: [fragments.join(" ")]. *)
Fixpoint space_join (fragments : list jsstring) : jsstring :=
  match fragments with
  | [] => []
  | [t] => t
  | t :: rest => t ++ SPACE :: space_join rest
  end.

(** A recognition event is a response whose first result carries a
    transcript that is not blank; its text is the trimmed transcript. *)
Definition event_of (response : Response) : option (bool * jsstring) :=
  match response with
  | [] => None
  | result :: _ =>
    match alternatives result with
    | [] => None
    | alternative :: _ =>
      if truthy (trim alternative) then Some (isFinal result, trim alternative)
      else None
    end
  end.

(** The texts of the [final] events of a sequence, in arrival order. *)
Definition final_texts (responses : list Response) : list jsstring :=
  omap (fun r => match event_of r with
                 | Some (true, t) => Some t
                 | _ => None
                 end) responses.

(** What the accumulator of a connection consumes between two dispatched
    sentences: recognition responses, and calls of [_finalizeSentence]. *)
Inductive Input :=
| recognized (response : Response)
| finalize.

Definition consume (this : ref) (w : World) (i : Input) : World :=
  match i with
  | recognized response => _handleSTTData this response w
  | finalize => _finalizeSentence this w
  end.

Definition responses_of (inputs : list Input) : list Response :=
  omap (fun i => match i with
                 | recognized response => Some response
                 | finalize => None
                 end) inputs.

(** The test that makes [_finalizeSentence] return without dispatching. *)
Definition finalize_guard (c : VoiceProcessor) : bool :=
  negb (truthy (sentence c)) || bool_decide (sentence c = lastSentence c).

(** Strings that [trim] leaves alone. *)
Definition trimmed (s : jsstring) : Prop := trim s = s.

Definition starts_clean (s : jsstring) : Prop :=
  match s with
  | [] => True
  | c :: _ => isWhiteSpace c = false
  end.

(** *** The WAV header *)

(** The 44 header bytes of a canonical mono 16-bit PCM WAV file with [n]
    data bytes at sample rate [rate]. *)
Definition wav_header (n rate : Z) : Buffer :=
  [82; 73; 70; 70] ++ le32 (36 + n) ++ [87; 65; 86; 69; 102; 109; 116; 32]
  ++ [16; 0; 0; 0; 1; 0; 1; 0] ++ le32 rate ++ le32 (rate * 2)
  ++ [2; 0; 16; 0; 100; 97; 116; 97] ++ le32 n.

(** *** The invariant of the event loop *)

(** The accumulator only ever holds trimmed text. *)
Definition acc_ok (c : VoiceProcessor) : Prop :=
  trimmed (sentence c) /\ trimmed (lastInterim c).

Fixpoint count {A} (p : A -> bool) (l : list A) : nat :=
  match l with
  | [] => 0
  | x :: l' => (if p x then 1 else 0) + count p l'
  end.

Definition owns_job (this : ref) (j : Job) : bool :=
  match j with
  | after_translate t _ _ _ => bool_decide (t = this)
  | after_stopStream _ => false
  end.

Definition owns_call (this : ref) (c : Call) : bool :=
  match c with
  | translate_call t _ _ _ _ | synthesize_call t _ _ _ => bool_decide (t = this)
  end.

(** The rounds of [_translateAndSpeak] that connection [this] has entered
    and not yet left: suspended at a settled promise ([js]) or awaiting an
    engine ([cs]). *)
Definition rounds (this : ref) (js : list Job) (cs : list Call) : nat :=
  (count (owns_job this) js + count (owns_call this) cs)%nat.

(** Suspended rounds refer to objects of the heap. *)
Definition job_valid (n : nat) (j : Job) : Prop :=
  match j with
  | after_translate t p _ _ => (t < n /\ p < n)%nat
  | after_stopStream _ => True
  end.

Definition call_valid (n : nat) (c : Call) : Prop :=
  match c with
  | translate_call t p _ _ _ | synthesize_call t p _ _ => (t < n /\ p < n)%nat
  end.

(** The invariant: accumulators hold trimmed text, [isProcessing] is set
    exactly on the connections with one round in flight, and no connection
    has more; [js] are the promise jobs taken off the queue and not yet
    run. *)
Record Inv_at (js : list Job) (w : World) : Prop := {
  inv_acc : forall r c, heap w !! r = Some c -> acc_ok c;
  inv_flight : forall r c, heap w !! r = Some c ->
    rounds r (js ++ jobs w) (calls w) = if isProcessing c then 1%nat else 0%nat;
  inv_jobs : Forall (job_valid (length (heap w))) (js ++ jobs w);
  inv_calls : Forall (call_valid (length (heap w))) (calls w)
}.

(** *** Example runs *)

(** A caller speaking en-US (connection 0) paired in one room with a
    receiver speaking [peer] (connection 1). *)
Definition demo_room : jsstring := js "abcd1234".

Definition demo_call (peer : String.string) : list Event :=
  [ http_create_room demo_room (Some (js "en-US")) (Some (js "Ann")) 0;
    http_join_room (Some {| join_roomId := Some demo_room;
                            join_participantLanguage := Some (js peer);
                            join_participantName := Some (js "Bob") |});
    ws_connection; ws_connection;
    ws_message 0 (connected (Some demo_room) (Some (js "caller"))
                    (Some (js "en-US")) (Some (js "Ann")));
    ws_message 1 (connected (Some demo_room) (Some (js "receiver"))
                    (Some (js peer)) (Some (js "Bob"))) ].
Arguments demo_call peer%_string.

Definition final_response (t : String.string) : Response :=
  [{| alternatives := [js t]; isFinal := true |}].
Arguments final_response t%_string.

Definition interim_response (t : String.string) : Response :=
  [{| alternatives := [js t]; isFinal := false |}].
Arguments interim_response t%_string.

(** ** Language tables *)

(** The property names that an object literal inherits from
    [Object.prototype]: reading one of them yields a function or an object,
    never [undefined]. *)
Definition Object_prototype : list jsstring :=
  [js "constructor"; js "__defineGetter__"; js "__defineSetter__";
   js "hasOwnProperty"; js "__lookupGetter__"; js "__lookupSetter__";
   js "isPrototypeOf"; js "propertyIsEnumerable"; js "toString";
   js "valueOf"; js "__proto__"; js "toLocaleString"].

(** The own properties of an object literal, as written. *)
Fixpoint own_property {A} (table : list (jsstring * A)) (key : jsstring) : option A :=
  match table with
  | [] => None
  | (k, v) :: rest => if bool_decide (k = key) then Some v else own_property rest key
  end.

(** What [table[key] || fallback] evaluates to on an object literal whose own
    values are all truthy: the own value, else the member inherited under
    that name, else the fallback. *)
Inductive Looked (A : Type) :=
| looked_up (v : A)
| prototype_member (member : jsstring).
Arguments looked_up {A} v.
Arguments prototype_member {A} member.

Definition lookup_or {A} (table : list (jsstring * A)) (key : jsstring) (fallback : A)
    : Looked A :=
  match own_property table key with
  | Some v => looked_up v
  | None => if bool_decide (key ∈ Object_prototype) then prototype_member key
            else looked_up fallback
  end.

(** The [map] of [_getLangCode]. *)
Definition getLangCode_map : list (jsstring * jsstring) :=
  [ (js "en", js "en-US"); (js "hi", js "hi-IN"); (js "te", js "te-IN");
    (js "ta", js "ta-IN"); (js "es", js "es-ES"); (js "fr", js "fr-FR");
    (js "de", js "de-DE"); (js "pt", js "pt-BR"); (js "ru", js "ru-RU");
    (js "zh", js "cmn-CN"); (js "ja", js "ja-JP"); (js "ko", js "ko-KR");
    (js "ar", js "ar-XA") ].

(** [_getLangCode(lang)] *)
Definition _getLangCode (lang : option jsstring) : Looked jsstring :=
  lookup_or getLangCode_map (base_lang lang) (js "en-US").

(** The [voice] of a synthesis request. *)
Record Voice := {
  languageCode : option jsstring;
  name : option jsstring;
  ssmlGender : option jsstring
}.

Definition named_voice (code voice_name : String.string) : Voice :=
  {| languageCode := Some (js code); name := Some (js voice_name);
     ssmlGender := None |}.
Arguments named_voice (code voice_name)%_string.

(** The [voices] of [_tts]. *)
Definition voices : list (jsstring * Voice) :=
  [ (js "en", named_voice "en-US" "en-US-Neural2-J");
    (js "es", named_voice "es-ES" "es-ES-Neural2-A");
    (js "fr", named_voice "fr-FR" "fr-FR-Neural2-A");
    (js "de", named_voice "de-DE" "de-DE-Neural2-A");
    (js "pt", named_voice "pt-BR" "pt-BR-Neural2-A");
    (js "it", named_voice "it-IT" "it-IT-Neural2-A");
    (js "ru", named_voice "ru-RU" "ru-RU-Standard-A");
    (js "zh", named_voice "cmn-CN" "cmn-CN-Standard-A");
    (js "ja", named_voice "ja-JP" "ja-JP-Neural2-B");
    (js "ko", named_voice "ko-KR" "ko-KR-Neural2-A");
    (js "vi", named_voice "vi-VN" "vi-VN-Neural2-A");
    (js "th", named_voice "th-TH" "th-TH-Neural2-C");
    (js "id", named_voice "id-ID" "id-ID-Standard-A");
    (js "ms", named_voice "ms-MY" "ms-MY-Standard-A");
    (js "fil", named_voice "fil-PH" "fil-PH-Neural2-A");
    (js "hi", named_voice "hi-IN" "hi-IN-Neural2-A");
    (js "te", named_voice "te-IN" "te-IN-Standard-A");
    (js "ta", named_voice "ta-IN" "ta-IN-Standard-A");
    (js "bn", named_voice "bn-IN" "bn-IN-Standard-A");
    (js "gu", named_voice "gu-IN" "gu-IN-Standard-A");
    (js "kn", named_voice "kn-IN" "kn-IN-Standard-A");
    (js "ml", named_voice "ml-IN" "ml-IN-Standard-A");
    (js "mr", named_voice "mr-IN" "mr-IN-Standard-A");
    (js "pa", named_voice "pa-IN" "pa-IN-Standard-A");
    (js "ar", named_voice "ar-XA" "ar-XA-Standard-A");
    (js "he", named_voice "he-IL" "he-IL-Standard-A");
    (js "tr", named_voice "tr-TR" "tr-TR-Neural2-A");
    (js "fa", named_voice "fa-IR" "fa-IR-Standard-A");
    (js "nl", named_voice "nl-NL" "nl-NL-Neural2-A");
    (js "pl", named_voice "pl-PL" "pl-PL-Neural2-A");
    (js "sv", named_voice "sv-SE" "sv-SE-Neural2-A");
    (js "da", named_voice "da-DK" "da-DK-Neural2-D");
    (js "no", named_voice "nb-NO" "nb-NO-Neural2-A");
    (js "fi", named_voice "fi-FI" "fi-FI-Neural2-A");
    (js "el", named_voice "el-GR" "el-GR-Neural2-A");
    (js "cs", named_voice "cs-CZ" "cs-CZ-Standard-A");
    (js "ro", named_voice "ro-RO" "ro-RO-Standard-A");
    (js "hu", named_voice "hu-HU" "hu-HU-Standard-A");
    (js "uk", named_voice "uk-UA" "uk-UA-Standard-A");
    (js "af", named_voice "af-ZA" "af-ZA-Standard-A") ].

(** The [voice] that [_tts(text, lang)] asks the synthesis engine for:
    [voices[base] || { languageCode: lang, ssmlGender: "NEUTRAL" }]. *)
Definition _tts_voice (lang : option jsstring) : Looked Voice :=
  lookup_or voices (base_lang lang)
    {| languageCode := lang; name := None; ssmlGender := Some (js "NEUTRAL") |}.

(** ** The recognition stream, with the ways it can fail

    [_startStream], [_restartStream] and [_processAudio] once more, now with
    every outcome of the calls they make: an [opening] is [None] when
    [streamingRecognize] throws and the value of [Date.now()] read after it
    returned otherwise; [base64Audio] is [None] when the message carries no
    [audio], which makes [Buffer.from] throw before anything is changed. The
    definitions of the same names above are the case where every opening
    succeeds at one reading of the clock. *)
Module Stream.

Definition _startStream (opening : option Z) (c : VoiceProcessor) : VoiceProcessor :=
  if isStreaming c then c
  else
    match opening with
    | Some now => set_streamCreatedAt now (set_stream true true c)
    | None => set_stream (recognizeStream c) false c
    end.

Definition _restartStream (opening : option Z) (c : VoiceProcessor) : VoiceProcessor :=
  let savedSentence := sentence c in
  _startStream opening (set_sentence savedSentence (_stopStream c)).

Definition _processAudio (base64Audio : option jsstring)
    (first : option Z) (now : Z) (second : option Z)
    (write_ok : bool) (third : option Z) (c : VoiceProcessor) : VoiceProcessor :=
  if negb (truthy_opt (myLanguage c)) then c
  else
    match base64Audio with
    | None => c
    | Some _ =>
      let c := if isStreaming c then c else _startStream first c in
      let c := if 50000 <? now - streamCreatedAt c then _restartStream second c else c in
      if recognizeStream c then (if write_ok then c else _restartStream third c)
      else c
    end.

End Stream.

(** ** Reading the registry *)

(** The body [GET /room-info] answers with for a room that exists. *)
Record RoomInfo := {
  info_creatorLanguage : option jsstring;
  info_creatorName : option jsstring;
  info_participantLanguage : option jsstring;
  info_participantName : option jsstring
}.

(** [GET /room-info]: the status with the error or the four fields; [room]
    is [req.query.roomId]. *)
Definition room_info (room : option jsstring) (sessions : gmap jsstring Session)
    : Z * (jsstring + RoomInfo) :=
  match room ≫= fun r => sessions !! r with
  | None => (404, inl (js "Room not found"))
  | Some session =>
    (200, inr {| info_creatorLanguage := creatorLanguage session;
                 info_creatorName := creatorName session;
                 info_participantLanguage := participantLanguage session;
                 info_participantName := participantName session |})
  end.

(** [GET /health]: the [activeRooms] it reports. *)
Definition health (sessions : gmap jsstring Session) : nat := size sessions.

(** ** Vocabulary of the further statements *)

(** The socket of connection [p] is OPEN. *)
Definition socket_open (w : World) (p : ref) : Prop :=
  ws_readyState <$> heap w !! p = Some 1.

(** The messages among the observations, with their addressees. *)
Definition sends (l : list Obs) : list (ref * OutMsg) :=
  omap (fun o => match o with
                 | sent to m => Some (to, m)
                 | relay _ _ => None
                 end) l.

(** The stream fields agree: a handle is stored exactly while the stream
    counts as running. *)
Definition stream_consistent (c : VoiceProcessor) : Prop :=
  recognizeStream c = isStreaming c.

(** [w'] comes from [w] by steps that leave the state of every socket and
    the set of rooms alone, and whose messages all go to sockets that are
    open. *)
Record Quiet (w w' : World) : Prop := {
  quiet_sockets : forall r,
    ws_readyState <$> heap w' !! r = ws_readyState <$> heap w !! r;
  quiet_rooms : dom (activeSessions w') = dom (activeSessions w);
  quiet_log : exists l,
    log w' = log w ++ l /\ Forall (fun s => socket_open w s.1) (sends l)
}.

(** A text fit for the relay: not empty, with nothing to trim. *)
Definition sentence_like (text : jsstring) : Prop := text <> [] /\ trimmed text.

(** * Properties *)

(** ** The store *)

Ltac wsimpl :=
  cbn [heap activeSessions jobs calls log modify emit enqueue request ws_send
       set_heap set_activeSessions set_jobs set_calls set_log] in *.

Ltac vsimpl :=
  cbn [ws_readyState roomId userType myLanguage myName recognizeStream
       isStreaming streamCreatedAt sentence lastInterim lastSentence
       sentenceTimer isProcessing set_ws_readyState set_user set_stream
       set_streamCreatedAt set_sentence set_lastInterim set_lastSentence
       set_sentenceTimer set_isProcessing] in *.

Lemma alter_fix {A} (f : A -> A) (l : list A) (i : nat) :
  (forall x, l !! i = Some x -> f x = x) -> alter f i l = l.
Proof.
  intros H. apply list_eq. intros j. rewrite list_lookup_alter.
  case_decide; [subst|done]. destruct (l !! j) eqn:E; [|done].
  cbn. by rewrite H.
Qed.

Lemma modify_fix (this : ref) f (w : World) :
  (forall c, heap w !! this = Some c -> f c = c) -> modify this f w = w.
Proof. intros H. unfold modify. rewrite alter_fix by done. by destruct w. Qed.

Lemma lookup_modify (this r : ref) f (w : World) :
  heap (modify this f w) !! r
  = if decide (this = r) then f <$> heap w !! this else heap w !! r.
Proof. apply list_lookup_alter. Qed.

Lemma lookup_modify_eq (this : ref) f (w : World) c :
  heap w !! this = Some c -> heap (modify this f w) !! this = Some (f c).
Proof. intros H. rewrite lookup_modify, decide_True, H; done. Qed.

Lemma lookup_modify_ne (this r : ref) f (w : World) :
  this <> r -> heap (modify this f w) !! r = heap w !! r.
Proof. intros H. by rewrite lookup_modify, decide_False. Qed.

Lemma modify_modify this f g w :
  modify this g (modify this f w) = modify this (g ∘ f) w.
Proof. unfold modify. wsimpl. by rewrite list_alter_alter_eq. Qed.

Lemma set_isProcessing_same c : set_isProcessing (isProcessing c) c = c.
Proof. by destruct c. Qed.

Lemma truthy_nonempty s : truthy s = true <-> s <> [].
Proof. destruct s; cbn; split; done. Qed.

Lemma tas_log this text w :
  log (_translateAndSpeak this text w) = log w ++ [relay this text].
Proof.
  unfold _translateAndSpeak. repeat case_match; reflexivity.
Qed.

Lemma tas_lookup this text w r c :
  heap w !! r = Some c ->
  exists b, heap (_translateAndSpeak this text w) !! r = Some (set_isProcessing b c).
Proof.
  intros Hr. unfold _translateAndSpeak.
  repeat case_match; wsimpl;
    rewrite ?list_lookup_alter; repeat case_decide; subst;
    rewrite ?Hr; cbn; eauto using set_isProcessing_same.
  all: try (exists (isProcessing c); by rewrite set_isProcessing_same).
Qed.

Lemma relays_snoc l this text : relays (l ++ [relay this text]) = relays l ++ [(this, text)].
Proof. unfold relays. by rewrite omap_app. Qed.

(** ** Trimmed text *)

Lemma trimStart_clean s : starts_clean (trimStart s).
Proof.
  induction s as [|c s IH]; cbn; [done|].
  destruct (isWhiteSpace c) eqn:E; [done|]. cbn. done.
Qed.

Lemma trimStart_fix s : starts_clean s -> trimStart s = s.
Proof. destruct s as [|c s]; cbn; [done|]. by intros ->. Qed.

Lemma trimStart_suffix s : exists p, s = p ++ trimStart s.
Proof.
  induction s as [|c s [p IH]]; cbn; [by exists []|].
  destruct (isWhiteSpace c); [|by exists []].
  exists (c :: p). cbn. by rewrite <- IH.
Qed.

Lemma starts_clean_app s t : starts_clean (s ++ t) -> starts_clean s.
Proof. destruct s; cbn; done. Qed.

Lemma starts_clean_app_l s t : s <> [] -> starts_clean s -> starts_clean (s ++ t).
Proof. destruct s; cbn; done. Qed.

Lemma trimmed_iff s : trimmed s <-> starts_clean s /\ starts_clean (rev s).
Proof.
  unfold trimmed, trim, trimEnd. split.
  - intros H.
    assert (H1 : starts_clean (rev s)).
    { rewrite <- H at 1. rewrite rev_involutive. apply trimStart_clean. }
    split; [|done].
    destruct (trimStart_suffix (rev (trimStart s))) as [p Hp].
    apply (f_equal (@rev N)) in Hp. rewrite rev_involutive, rev_app_distr in Hp.
    rewrite H in Hp.
    destruct s as [|c s']; [done|].
    cbn in Hp |- *. destruct (isWhiteSpace c) eqn:Ec; [|done].
    exfalso.
    destruct (trimStart_suffix s') as [q Hq].
    apply (f_equal length) in Hp, Hq.
    rewrite length_app in Hq. cbn in Hp. rewrite length_app in Hp. lia.
  - intros [H1 H2]. rewrite (trimStart_fix s H1), (trimStart_fix _ H2).
    apply rev_involutive.
Qed.

Lemma trim_trimmed s : trimmed (trim s).
Proof.
  apply trimmed_iff. unfold trim, trimEnd. split.
  - destruct (trimStart_suffix (rev (trimStart s))) as [p Hp].
    set (u := trimStart (rev (trimStart s))) in *.
    apply (f_equal (@rev N)) in Hp. rewrite rev_involutive, rev_app_distr in Hp.
    pose proof (trimStart_clean s) as Hc. rewrite Hp in Hc.
    destruct (rev u) eqn:Eu; [done|]. by apply starts_clean_app in Hc.
  - rewrite rev_involutive. apply trimStart_clean.
Qed.

Lemma trimmed_nil : trimmed [].
Proof. reflexivity. Qed.

Lemma trimmed_append s t :
  trimmed s -> s <> [] -> trimmed t -> t <> [] -> trimmed (s ++ SPACE :: t).
Proof.
  intros [Hs1 Hs2]%trimmed_iff Hs [Ht1 Ht2]%trimmed_iff Ht. apply trimmed_iff. split.
  - by apply starts_clean_app_l.
  - rewrite rev_app_distr. cbn [rev]. rewrite <- app_assoc.
    apply starts_clean_app_l; [|done].
    intros E. apply (f_equal (@rev N)) in E. rewrite rev_involutive in E. done.
Qed.

Lemma trimmed_append_fragment s t :
  trimmed s -> trimmed t -> t <> [] -> trimmed (append_fragment s t).
Proof.
  intros Hs Ht Hne. unfold append_fragment.
  destruct (truthy s) eqn:E; [|done].
  apply trimmed_append; try done. by apply truthy_nonempty.
Qed.

(** ** The two ways out of [_finalizeSentence] *)

Lemma clearSentenceTimer_fields c :
  sentence (clearSentenceTimer c) = sentence c /\
  lastSentence (clearSentenceTimer c) = lastSentence c /\
  lastInterim (clearSentenceTimer c) = lastInterim c /\
  isProcessing (clearSentenceTimer c) = isProcessing c /\
  sentenceTimer (clearSentenceTimer c) = false.
Proof. unfold clearSentenceTimer. destruct c as [? ? ? ? ? ? ? ? ? ? ? [] ?]; done. Qed.

Lemma clearSentenceTimer_idem c :
  clearSentenceTimer (clearSentenceTimer c) = clearSentenceTimer c.
Proof. unfold clearSentenceTimer. destruct c as [? ? ? ? ? ? ? ? ? ? ? [] ?]; done. Qed.

Lemma clearSentenceTimer_fix c : sentenceTimer c = false -> clearSentenceTimer c = c.
Proof. unfold clearSentenceTimer. by intros ->. Qed.

Lemma clearSentenceTimer_user c :
  roomId (clearSentenceTimer c) = roomId c /\
  userType (clearSentenceTimer c) = userType c /\
  myLanguage (clearSentenceTimer c) = myLanguage c /\
  ws_readyState (clearSentenceTimer c) = ws_readyState c.
Proof. unfold clearSentenceTimer. by destruct (sentenceTimer c). Qed.

Lemma finalize_dropped this w c :
  heap w !! this = Some c -> finalize_guard c = true ->
  _finalizeSentence this w = modify this clearSentenceTimer w.
Proof.
  intros Hc Hg. unfold _finalizeSentence.
  rewrite (lookup_modify_eq _ _ _ _ Hc).
  destruct (clearSentenceTimer_fields c) as (-> & -> & _).
  unfold finalize_guard in Hg. by rewrite Hg.
Qed.

Lemma finalize_dispatched this w c :
  heap w !! this = Some c -> finalize_guard c = false ->
  _finalizeSentence this w
  = _translateAndSpeak this (trim (sentence c))
      (modify this (fun c' => set_sentence [] (set_lastSentence (trim (sentence c)) c'))
         (modify this clearSentenceTimer w)).
Proof.
  intros Hc Hg. unfold _finalizeSentence.
  rewrite (lookup_modify_eq _ _ _ _ Hc).
  destruct (clearSentenceTimer_fields c) as (-> & -> & _).
  unfold finalize_guard in Hg. by rewrite Hg.
Qed.

Lemma finalize_log this w c :
  heap w !! this = Some c ->
  log (_finalizeSentence this w)
  = log w ++ (if finalize_guard c then [] else [relay this (trim (sentence c))]).
Proof.
  intros Hc. destruct (finalize_guard c) eqn:Hg.
  - rewrite (finalize_dropped _ _ _ Hc Hg). by rewrite app_nil_r.
  - rewrite (finalize_dispatched _ _ _ Hc Hg). by rewrite tas_log.
Qed.

Lemma cleanup_log this w c :
  heap w !! this = Some c ->
  log (cleanup this w)
  = log w ++ (if finalize_guard c then [] else [relay this (trim (sentence c))]).
Proof.
  intros Hc. unfold cleanup.
  pose proof (lookup_modify_eq this clearSentenceTimer w c Hc) as Hc1.
  set (w1 := modify this clearSentenceTimer w) in *.
  change (log w) with (log w1). clearbody w1.
  cbn [log enqueue set_jobs modify set_heap].
  rewrite Hc1.
  assert (Hg : finalize_guard (clearSentenceTimer c) = finalize_guard c).
  { unfold finalize_guard. by destruct (clearSentenceTimer_fields c) as (-> & -> & _). }
  assert (Hs : sentence (clearSentenceTimer c) = sentence c)
    by apply clearSentenceTimer_fields.
  destruct (truthy (sentence (clearSentenceTimer c))
            && negb (bool_decide (sentence (clearSentenceTimer c)
                                  = lastSentence (clearSentenceTimer c)))) eqn:E.
  - rewrite (finalize_log _ _ _ Hc1), Hg, Hs. done.
  - unfold finalize_guard in *. rewrite <- Hg.
    apply andb_false_iff in E as [->| ->%negb_false_iff]; simpl;
      by rewrite ?orb_true_r, app_nil_r.
Qed.

(** ** The invariant of the event loop *)

Lemma count_app {A} (p : A -> bool) l1 l2 :
  count p (l1 ++ l2) = (count p l1 + count p l2)%nat.
Proof. induction l1 as [|x l1 IH]; cbn; [done|]. rewrite IH. lia. Qed.

Lemma count_delete {A} (p : A -> bool) (l : list A) i x :
  l !! i = Some x ->
  count p l = ((if p x then 1 else 0) + count p (delete i l))%nat.
Proof.
  revert i. induction l as [|y l IH]; intros [|i] H; simpl in *; try done.
  - by injection H as ->.
  - rewrite (IH i H). destruct (p x), (p y); lia.
Qed.

Lemma count_none {A} (p : A -> bool) (l : list A) :
  Forall (fun x => p x = false) l -> count p l = 0%nat.
Proof. induction 1 as [|x l Hx _ IH]; cbn; [done|]. by rewrite Hx, IH. Qed.

Lemma Inv_modify js this f w :
  (forall c, heap w !! this = Some c -> isProcessing (f c) = isProcessing c) ->
  (forall c, heap w !! this = Some c -> acc_ok c -> acc_ok (f c)) ->
  Inv_at js w -> Inv_at js (modify this f w).
Proof.
  intros Hflag Hacc [I1 I2 I3 I4]. split; wsimpl; rewrite ?length_alter; try done.
  - intros r c'. rewrite list_lookup_alter. case_decide; [subst|by apply I1].
    intros (c & Hc & ->)%fmap_Some. eauto.
  - intros r c'. rewrite list_lookup_alter. case_decide; [subst|by apply I2].
    intros (c & Hc & ->)%fmap_Some. rewrite Hflag by done. eauto.
Qed.

Lemma Inv_emit js o w : Inv_at js w -> Inv_at js (emit o w).
Proof. intros [I1 I2 I3 I4]. by split. Qed.

Lemma Inv_set_activeSessions js m w : Inv_at js w -> Inv_at js (set_activeSessions m w).
Proof. intros [I1 I2 I3 I4]. by split. Qed.

Lemma Inv_sendToUI js this d w : Inv_at js w -> Inv_at js (_sendToUI this d w).
Proof. intros H. unfold _sendToUI. repeat case_match; try done. by apply Inv_emit. Qed.

Lemma Inv_notifyPartner js this m w : Inv_at js w -> Inv_at js (_notifyPartner this m w).
Proof. intros H. unfold _notifyPartner. repeat case_match; try done. by apply Inv_emit. Qed.

Lemma Inv_registerConnection js this w : Inv_at js w -> Inv_at js (_registerConnection this w).
Proof.
  intros H. unfold _registerConnection. repeat case_match; try done;
    by apply Inv_set_activeSessions.
Qed.

Lemma Inv_enqueue_stop js this w :
  Inv_at js w -> Inv_at js (enqueue (after_stopStream this) w).
Proof.
  intros [I1 I2 I3 I4]. split; wsimpl; try done.
  - intros r c Hc. unfold rounds in *. rewrite app_assoc, count_app. cbn.
    rewrite <- (I2 r c Hc). lia.
  - rewrite app_assoc. apply Forall_app. split; [done|]. by repeat constructor.
Qed.

Lemma Inv_enqueue_round js this p x y c w :
  heap w !! this = Some c -> isProcessing c = false -> (p < length (heap w))%nat ->
  Inv_at js w ->
  Inv_at js (enqueue (after_translate this p x y) (modify this (set_isProcessing true) w)).
Proof.
  intros Hc Hf Hp [I1 I2 I3 I4]. split; wsimpl; rewrite ?length_alter; try done.
  - intros r c'. rewrite list_lookup_alter. case_decide; [subst|by apply I1].
    intros (c0 & Hc0 & ->)%fmap_Some. exact (I1 r c0 Hc0).
  - intros r c'. unfold rounds in *. rewrite app_assoc, count_app.
    rewrite list_lookup_alter. simpl. case_decide; [subst|].
    + intros (c0 & Hc0 & ->)%fmap_Some. rewrite bool_decide_eq_true_2 by done.
      specialize (I2 r c0 Hc0). rewrite Hc in Hc0. injection Hc0 as <-.
      rewrite Hf in I2. simpl. lia.
    + intros Hr. rewrite bool_decide_eq_false_2 by done.
      specialize (I2 r c' Hr). destruct (isProcessing c'); lia.
  - rewrite app_assoc. apply Forall_app. split; [done|].
    repeat constructor; [by eapply lookup_lt_Some | done].
Qed.

Lemma Inv_request_round js this p x f t c w :
  heap w !! this = Some c -> isProcessing c = false -> (p < length (heap w))%nat ->
  Inv_at js w ->
  Inv_at js (request (translate_call this p x f t) (modify this (set_isProcessing true) w)).
Proof.
  intros Hc Hf Hp [I1 I2 I3 I4]. split; wsimpl; rewrite ?length_alter; try done.
  - intros r c'. rewrite list_lookup_alter. case_decide; [subst|by apply I1].
    intros (c0 & Hc0 & ->)%fmap_Some. exact (I1 r c0 Hc0).
  - intros r c'. unfold rounds in *. rewrite (count_app (owns_call r)).
    rewrite list_lookup_alter. simpl. case_decide; [subst|].
    + intros (c0 & Hc0 & ->)%fmap_Some. rewrite bool_decide_eq_true_2 by done.
      specialize (I2 r c0 Hc0). rewrite Hc in Hc0. injection Hc0 as <-.
      rewrite Hf in I2. simpl. lia.
    + intros Hr. rewrite bool_decide_eq_false_2 by done.
      specialize (I2 r c' Hr). destruct (isProcessing c'); lia.
  - apply Forall_app. split; [done|].
    repeat constructor; [by eapply lookup_lt_Some | done].
Qed.

Lemma Inv_translateAndSpeak js this text w :
  Inv_at js w -> Inv_at js (_translateAndSpeak this text w).
Proof.
  intros H. unfold _translateAndSpeak.
  assert (H0 : Inv_at js (emit (relay this text) w)) by by apply Inv_emit.
  set (w0 := emit (relay this text) w) in *. clearbody w0.
  destruct (heap w0 !! this) as [c|] eqn:Hc; [|done].
  destruct (isProcessing c) eqn:Hf; [done|]. simpl.
  destruct (truthy text); [|done]. simpl.
  assert (Hfin : Inv_at js (modify this (set_isProcessing false)
                              (modify this (set_isProcessing true) w0))).
  { rewrite modify_modify. apply Inv_modify; [|done|done].
    intros c' Hc'. rewrite Hc in Hc'. by injection Hc' as <-. }
  repeat case_match; try done.
  - eapply Inv_enqueue_round; try done.
    match goal with Hp : alter _ _ _ !! _ = Some _ |- _ =>
      apply lookup_lt_Some in Hp; by rewrite length_alter in Hp end.
  - eapply Inv_request_round; try done.
    match goal with Hp : alter _ _ _ !! _ = Some _ |- _ =>
      apply lookup_lt_Some in Hp; by rewrite length_alter in Hp end.
Qed.

Lemma Inv_finalizeSentence js this w :
  Inv_at js w -> Inv_at js (_finalizeSentence this w).
Proof.
  intros H. unfold _finalizeSentence.
  assert (H0 : Inv_at js (modify this clearSentenceTimer w)).
  { apply Inv_modify; [| |done]; intros c _.
    - apply clearSentenceTimer_fields.
    - unfold acc_ok. by destruct (clearSentenceTimer_fields c) as (-> & _ & -> & _). }
  set (w0 := modify this clearSentenceTimer w) in *. clearbody w0.
  repeat case_match; try done.
  apply Inv_translateAndSpeak. apply Inv_modify; [done| |done].
  intros c' _ [_ Hi]. split; [apply trimmed_nil | done].
Qed.

Lemma Inv_handleSTTData js this response w :
  Inv_at js w -> Inv_at js (_handleSTTData this response w).
Proof.
  intros H. unfold _handleSTTData.
  destruct response as [|result ?]; [done|].
  destruct (alternatives result) as [|alternative ?]; [done|].
  destruct (truthy (trim alternative)) eqn:Ht; [|done]. simpl.
  apply truthy_nonempty in Ht.
  apply Inv_modify; [done|done|].
  destruct (isFinal result).
  - apply Inv_modify; [done| |done].
    intros c _ [Hs _]. split; [|apply trimmed_nil].
    apply trimmed_append_fragment; [done|apply trim_trimmed|done].
  - destruct (heap w !! this) as [c|] eqn:Hc; [|done].
    apply Inv_sendToUI, Inv_modify; [done| |done].
    intros c' Hc' [Hs _]. rewrite Hc in Hc'. injection Hc' as <-.
    split; [done|].
    apply trimmed_append_fragment; [done|apply trim_trimmed|done].
Qed.

Lemma Inv_handleSTTError js this w :
  Inv_at js w -> Inv_at js (_handleSTTError this w).
Proof.
  intros H. unfold _handleSTTError.
  apply Inv_modify; [done| |].
  { intros c _ [Hs _]. split; [done|apply trimmed_nil]. }
  assert (H0 : Inv_at js (modify this (set_stream false false) w))
    by by apply Inv_modify.
  set (w0 := modify this (set_stream false false) w) in *. clearbody w0.
  match goal with |- Inv_at js (match heap ?w1 !! _ with _ => _ end) =>
    assert (H1 : Inv_at js w1) end.
  { apply Inv_modify; [| |done]; intros c _; [by case_match|].
    intros [Hs Hi]. by case_match. }
  repeat case_match; try done. by apply Inv_finalizeSentence.
Qed.

Lemma processAudio_fields now write_ok c :
  sentence (_processAudio now write_ok c) = sentence c /\
  lastInterim (_processAudio now write_ok c) = lastInterim c /\
  isProcessing (_processAudio now write_ok c) = isProcessing c.
Proof.
  unfold _processAudio, _restartStream, _startStream, _stopStream.
  repeat (case_match; vsimpl); done.
Qed.

Lemma Inv_cleanup js this w : Inv_at js w -> Inv_at js (cleanup this w).
Proof.
  intros H. unfold cleanup.
  apply Inv_enqueue_stop, Inv_modify; [done|done|].
  assert (H0 : Inv_at js (modify this clearSentenceTimer w)).
  { apply Inv_modify; [| |done]; intros c _.
    - apply clearSentenceTimer_fields.
    - unfold acc_ok. by destruct (clearSentenceTimer_fields c) as (-> & _ & -> & _). }
  repeat case_match; try done. by apply Inv_finalizeSentence.
Qed.

Lemma Inv_handleMessage js this msg w :
  Inv_at js w -> Inv_at js (handleMessage this msg w).
Proof.
  intros H. destruct msg; simpl; try done; try by apply Inv_cleanup.
  by apply Inv_notifyPartner, Inv_registerConnection, Inv_modify.
Qed.

Lemma Inv_leave_room js room w : Inv_at js w -> Inv_at js (leave_room room w).2.
Proof.
  intros H. unfold leave_room.
  assert (Hclose : forall p w', Inv_at js w' -> Inv_at js (modify p ws_close_call w')).
  { intros p w' H'. apply Inv_modify; [| |done]; intros c _;
      unfold ws_close_call; by case_match. }
  repeat case_match; simplify_eq; simpl; try done;
    apply Inv_set_activeSessions; auto.
Qed.

Lemma count_owner_out_of_range_jobs n r (js : list Job) :
  Forall (job_valid n) js -> (n <= r)%nat -> count (owns_job r) js = 0%nat.
Proof.
  intros H Hr. apply count_none. eapply Forall_impl; [done|].
  intros [t p ? ?|?]; simpl; [|done]. intros [? ?].
  apply bool_decide_eq_false_2. lia.
Qed.

Lemma count_owner_out_of_range_calls n r (cs : list Call) :
  Forall (call_valid n) cs -> (n <= r)%nat -> count (owns_call r) cs = 0%nat.
Proof.
  intros H Hr. apply count_none. eapply Forall_impl; [done|].
  intros [t p ? ? ?|t p ? ?]; simpl; intros [? ?];
    apply bool_decide_eq_false_2; lia.
Qed.

Lemma job_valid_mono n m j : (n <= m)%nat -> job_valid n j -> job_valid m j.
Proof. destruct j; simpl; [lia|done]. Qed.

Lemma call_valid_mono n m c : (n <= m)%nat -> call_valid n c -> call_valid m c.
Proof. destruct c; simpl; lia. Qed.

Lemma Inv_connection js w :
  Inv_at js w -> Inv_at js (set_heap (heap w ++ [new_VoiceProcessor]) w).
Proof.
  intros [I1 I2 I3 I4]. split; wsimpl.
  - intros r c [Hc|[_ Hc]]%lookup_app_Some; [by eapply I1|].
    apply list_lookup_singleton_Some in Hc as [_ <-]. by split.
  - intros r c [Hc|[Hr Hc]]%lookup_app_Some; [by eapply I2|].
    apply list_lookup_singleton_Some in Hc as [_ <-]. simpl. unfold rounds.
    by rewrite (count_owner_out_of_range_jobs _ _ _ I3 Hr),
               (count_owner_out_of_range_calls _ _ _ I4 Hr).
  - eapply Forall_impl; [done|]. intros j. apply job_valid_mono.
    rewrite length_app. lia.
  - eapply Forall_impl; [done|]. intros j. apply call_valid_mono.
    rewrite length_app. lia.
Qed.

Lemma Inv_translate_reply js i result w this partner text fromLang toLang :
  calls w !! i = Some (translate_call this partner text fromLang toLang) ->
  Inv_at js w ->
  Inv_at js (enqueue (after_translate this partner text (_translate_settle text result))
               (set_calls (delete i (calls w)) w)).
Proof.
  intros Hi [I1 I2 I3 I4]. split; wsimpl; try done.
  - intros r c Hc. rewrite <- (I2 r c Hc). unfold rounds.
    rewrite app_assoc, count_app, (count_delete (owns_call r) _ _ _ Hi). simpl.
    destruct (bool_decide (this = r)); lia.
  - rewrite app_assoc. apply Forall_app. split; [done|].
    apply Forall_singleton. eapply Forall_lookup_1 in I4; [|done]. exact I4.
  - rewrite delete_take_drop.
    rewrite <- (take_drop_middle _ _ _ Hi) in I4.
    apply Forall_app in I4 as [? [_ ?]%Forall_cons]. by apply Forall_app.
Qed.

Lemma Inv_synthesize_reply js i audio w this partner text lang :
  calls w !! i = Some (synthesize_call this partner text lang) ->
  Inv_at js w ->
  Inv_at js (resume_synthesized this partner audio (set_calls (delete i (calls w)) w)).
Proof.
  intros Hi [I1 I2 I3 I4]. unfold resume_synthesized.
  match goal with |- Inv_at js (modify _ _ ?w1) =>
    assert (Hw : heap w1 = heap w /\ jobs w1 = jobs w /\ calls w1 = delete i (calls w)) end.
  { destruct audio as [pcm|]; [|done].
    destruct (heap _ !! partner) as [pc|]; [|done].
    destruct (ws_readyState pc =? 1); [|done].
    by destruct (_toWav pcm 48000). }
  match goal with |- Inv_at js (modify _ _ ?w1) => set (w' := w1) in * end.
  clearbody w'. destruct Hw as (Hh & Hj & Hc).
  split; wsimpl; rewrite ?length_alter, ?Hh, ?Hj, ?Hc; try done.
  - intros r c. rewrite list_lookup_alter. case_decide; [subst|by apply I1].
    intros (c0 & Hc0 & ->)%fmap_Some. exact (I1 r c0 Hc0).
  - intros r c. rewrite list_lookup_alter. unfold rounds in *.
    case_decide; [subst|].
    + intros (c0 & Hc0 & ->)%fmap_Some. simpl.
      specialize (I2 r c0 Hc0).
      rewrite (count_delete (owns_call r) _ _ _ Hi) in I2. simpl in I2.
      rewrite bool_decide_eq_true_2 in I2 by done.
      destruct (isProcessing c0); lia.
    + intros Hr. rewrite <- (I2 r c Hr).
      rewrite (count_delete (owns_call r) _ _ _ Hi). simpl.
      by rewrite bool_decide_eq_false_2.
  - rewrite delete_take_drop.
    rewrite <- (take_drop_middle _ _ _ Hi) in I4.
    apply Forall_app in I4 as [? [_ ?]%Forall_cons]. by apply Forall_app.
Qed.

Lemma run_job_jobs w j : jobs (run_job w j) = jobs w.
Proof.
  destruct j; simpl.
  - unfold resume_translated, _sendToUI. by repeat (case_match; wsimpl).
  - unfold resume_cleanup, _notifyPartner. by repeat (case_match; wsimpl).
Qed.

Lemma Inv_request_synthesize js this partner x y text lang w :
  Inv_at (after_translate this partner x y :: js) w ->
  Inv_at js (request (synthesize_call this partner text lang) w).
Proof.
  intros [I1 I2 I3 I4]. simpl in I3. apply Forall_cons in I3 as [Hv I3].
  split; wsimpl; try done.
  - intros r c Hc. rewrite <- (I2 r c Hc). unfold rounds.
    rewrite (count_app (owns_call r)). simpl.
    destruct (bool_decide (this = r)); lia.
  - apply Forall_app. split; [done|]. apply Forall_singleton. exact Hv.
Qed.

Lemma Inv_drop_stop js this w :
  Inv_at (after_stopStream this :: js) w -> Inv_at js w.
Proof.
  intros [I1 I2 I3 I4]. simpl in I3. apply Forall_cons in I3 as [_ I3].
  by split.
Qed.

Lemma Inv_frame js w w' :
  heap w' = heap w -> jobs w' = jobs w -> calls w' = calls w ->
  Inv_at js w -> Inv_at js w'.
Proof. intros Hh Hj Hc [I1 I2 I3 I4]. split; rewrite ?Hh, ?Hj, ?Hc; done. Qed.

Lemma Inv_run_job js j w : Inv_at (j :: js) w -> Inv_at js (run_job w j).
Proof.
  intros H. destruct j as [this partner text translated|this]; simpl.
  - unfold resume_translated.
    pose proof (inv_jobs _ _ H) as Hv. apply Forall_cons in Hv as [[Ht Hp] _].
    apply lookup_lt_is_Some in Ht as [c Hc], Hp as [pc Hpc].
    rewrite Hc, Hpc.
    apply Inv_request_synthesize with (x := text) (y := translated).
    eapply Inv_frame; [| | |exact H];
      unfold _sendToUI; by repeat (case_match; wsimpl).
  - apply Inv_drop_stop in H. unfold resume_cleanup.
    apply Inv_notifyPartner. repeat case_match; try done;
      by apply Inv_set_activeSessions.
Qed.

Lemma Inv_fold_jobs js w :
  jobs w = [] -> Inv_at js w ->
  Inv_at [] (fold_left run_job js w) /\ jobs (fold_left run_job js w) = [].
Proof.
  revert w. induction js as [|j js IH]; intros w Hj H; simpl; [done|].
  apply IH; [by rewrite run_job_jobs | by apply Inv_run_job].
Qed.

Lemma Inv_drain w : Inv_at [] w -> Inv_at [] (drain w) /\ jobs (drain w) = [].
Proof.
  intros [I1 I2 I3 I4]. unfold drain. apply Inv_fold_jobs; [done|].
  split; wsimpl; rewrite ?app_nil_r; done.
Qed.

Lemma Inv_handle e w : Inv_at [] w -> Inv_at [] (handle e w).
Proof.
  intros H. destruct e; simpl.
  - by apply Inv_set_activeSessions.
  - by apply Inv_set_activeSessions.
  - by apply Inv_leave_room.
  - by apply Inv_connection.
  - by apply Inv_handleMessage.
  - apply Inv_modify; [| |done]; intros c _.
    + apply processAudio_fields.
    + unfold acc_ok. by destruct (processAudio_fields now write_ok c) as (-> & -> & _).
  - by apply Inv_cleanup, Inv_modify.
  - by apply Inv_cleanup, Inv_modify.
  - by apply Inv_handleSTTData.
  - by apply Inv_handleSTTError.
  - by apply Inv_modify.
  - unfold timer_callback. repeat case_match; try done.
    by apply Inv_finalizeSentence.
  - destruct (calls w !! i) as [[]|] eqn:Hi; try done.
    by eapply Inv_translate_reply.
  - destruct (calls w !! i) as [[]|] eqn:Hi; try done.
    by eapply Inv_synthesize_reply.
Qed.

Lemma Inv_initial : Inv_at [] initial.
Proof. split; simpl; try done; by constructor. Qed.

Lemma reachable_Inv w : reachable w -> Inv_at [] w /\ jobs w = [].
Proof.
  induction 1 as [|w e _ [IH _]]; [split; [apply Inv_initial | done]|].
  by apply Inv_drain, Inv_handle.
Qed.

Lemma reachable_run w es : reachable w -> reachable (run w es).
Proof.
  revert w. induction es as [|e es IH]; intros w H; simpl; [done|].
  apply IH. by constructor.
Qed.

Lemma reachable_acc_ok w r c : reachable w -> heap w !! r = Some c -> acc_ok c.
Proof. intros [H _]%reachable_Inv. apply (inv_acc _ _ H). Qed.

Lemma rounds_bound js w this :
  Inv_at js w -> (rounds this (js ++ jobs w) (calls w) <= 1)%nat.
Proof.
  intros H. destruct (heap w !! this) as [c|] eqn:Hc.
  - rewrite (inv_flight _ _ H _ _ Hc). destruct (isProcessing c); lia.
  - apply lookup_ge_None in Hc. unfold rounds.
    rewrite (count_owner_out_of_range_jobs _ _ _ (inv_jobs _ _ H) Hc),
            (count_owner_out_of_range_calls _ _ _ (inv_calls _ _ H) Hc). lia.
Qed.

(** ** A complete round *)

(** The caller says "Hello", then "there" (with a preview in between) and
    pauses; the engines reply. Both sides receive the translation of
    "Hello there" and the receiver the synthesized audio in a WAV
    container. *)
Example hello_there_round :
  let w := run initial (demo_call "es-ES") in
  let said := js "Hello there" in
  let data := translation said (js "Hola") (Some (js "caller"))
                (Some (js "en-US")) (Some (js "es-ES")) in
  observed w
    (run w [stt_data 0 (final_response "Hello");
            stt_data 0 (interim_response "there");
            stt_data 0 (final_response "there");
            timer_fired 0;
            translate_reply 0 (Some (js "Hola"));
            synthesize_reply 0 (Some [1; 2])])
  = [sent 0 (transcript_interim said); relay 0 said; sent 0 data; sent 1 data;
     sent 1 (audio_playback (wav_header 2 48000 ++ [1; 2]))].
Proof. by vm_compute. Qed.

(** ** Accumulating fragments *)

Lemma handleSTTData_step this response w c :
  heap w !! this = Some c ->
  exists c', heap (_handleSTTData this response w) !! this = Some c' /\
    sentence c' = match event_of response with
                  | Some (true, t) => append_fragment (sentence c) t
                  | _ => sentence c
                  end /\
    lastSentence c' = lastSentence c /\
    relays (log (_handleSTTData this response w)) = relays (log w).
Proof.
  intros Hc. unfold _handleSTTData, event_of.
  destruct response as [|result ?]; [by eauto|].
  destruct (alternatives result) as [|alternative ?]; [by eauto|].
  destruct (truthy (trim alternative)); [|by eauto]. cbn [negb].
  destruct (isFinal result).
  - eexists. split.
    { erewrite lookup_modify_eq; [done|]. by apply lookup_modify_eq. }
    done.
  - rewrite Hc. eexists. split.
    + apply lookup_modify_eq. unfold _sendToUI.
      rewrite (lookup_modify_eq _ _ _ _ Hc). case_match; by apply lookup_modify_eq.
    + vsimpl. split; [done|]. split; [done|]. unfold _sendToUI.
      rewrite (lookup_modify_eq _ _ _ _ Hc). case_match; [|done].
      wsimpl. unfold relays. rewrite omap_app. simpl. by rewrite app_nil_r.
Qed.

Lemma space_join_cons s t rest :
  space_join ((s ++ SPACE :: t) :: rest) = s ++ SPACE :: space_join (t :: rest).
Proof. destruct rest; simpl; [done|]. by rewrite <- app_assoc. Qed.

Lemma append_fragment_fold s texts :
  s <> [] -> Forall (fun t => t <> []) texts ->
  fold_left append_fragment texts s = space_join (s :: texts).
Proof.
  intros Hs H. revert s Hs.
  induction H as [|t texts Ht _ IH]; intros s Hs; simpl; [done|].
  unfold append_fragment at 2. apply truthy_nonempty in Hs. rewrite Hs.
  rewrite IH by (by destruct s). apply space_join_cons.
Qed.

Lemma final_texts_nonempty responses : Forall (fun t => t <> []) (final_texts responses).
Proof.
  unfold final_texts. induction responses as [|r rs IH]; simpl; [done|].
  destruct (event_of r) as [[[] t]|] eqn:E; simpl; try done.
  constructor; [|done]. unfold event_of in E. repeat case_match; simplify_eq.
  by apply truthy_nonempty.
Qed.

Lemma accumulate_from_empty texts :
  Forall (fun t => t <> []) texts ->
  fold_left append_fragment texts [] = space_join texts.
Proof.
  destruct 1 as [|t texts Ht H]; simpl; [done|].
  unfold append_fragment at 2. simpl. by apply append_fragment_fold.
Qed.

Lemma consume_step this i w c :
  heap w !! this = Some c ->
  exists c' l,
    heap (consume this w i) !! this = Some c' /\
    relays (log (consume this w i)) = relays (log w) ++ l /\
    (l = [] ->
     sentence c' = fold_left append_fragment (final_texts (responses_of [i])) (sentence c) /\
     lastSentence c' = lastSentence c).
Proof.
  intros Hc. destruct i as [response|]; simpl.
  - destruct (handleSTTData_step this response w c Hc) as (c' & Hc' & Hs & Hl & Hr).
    exists c', []. rewrite app_nil_r. split; [done|]. split; [done|].
    intros _. split; [|done]. rewrite Hs. unfold final_texts. simpl.
    by destruct (event_of response) as [[[] t]|].
  - destruct (finalize_guard c) eqn:Hg.
    + rewrite (finalize_dropped _ _ _ Hc Hg).
      exists (clearSentenceTimer c), []. rewrite app_nil_r.
      split; [by apply lookup_modify_eq|]. split; [done|]. intros _.
      by destruct (clearSentenceTimer_fields c) as (-> & -> & _).
    + pose proof (finalize_log _ _ _ Hc) as Hlog. rewrite Hg in Hlog.
      rewrite (finalize_dispatched _ _ _ Hc Hg) in *.
      assert (Hc2 : heap (modify this (fun c' => set_sentence []
                            (set_lastSentence (trim (sentence c)) c'))
                            (modify this clearSentenceTimer w)) !! this
                = Some (set_sentence [] (set_lastSentence (trim (sentence c))
                                           (clearSentenceTimer c)))).
      { erewrite lookup_modify_eq; [done|]. by apply lookup_modify_eq. }
      destruct (tas_lookup this (trim (sentence c)) _ this _ Hc2) as [b Hc3].
      eexists _, [(this, trim (sentence c))]. split; [exact Hc3|].
      split; [by rewrite Hlog, relays_snoc|]. done.
Qed.

Lemma consume_fold this inputs w c :
  heap w !! this = Some c ->
  let w' := fold_left (consume this) inputs w in
  exists c' l,
    heap w' !! this = Some c' /\
    relays (log w') = relays (log w) ++ l /\
    (l = [] ->
     sentence c' = fold_left append_fragment (final_texts (responses_of inputs)) (sentence c) /\
     lastSentence c' = lastSentence c).
Proof.
  revert w c. induction inputs as [|i inputs IH]; intros w c Hc; simpl.
  { exists c, []. by rewrite app_nil_r. }
  destruct (consume_step this i w c Hc) as (c1 & l1 & Hc1 & Hr1 & H1).
  destruct (IH _ _ Hc1) as (c' & l2 & Hc' & Hr2 & H2).
  exists c', (l1 ++ l2). split; [done|]. split; [by rewrite Hr2, Hr1, app_assoc|].
  intros [-> ->]%app_eq_nil. destruct (H1 eq_refl) as [Hs1 Hl1].
  destruct (H2 eq_refl) as [Hs2 Hl2]. rewrite Hs2, Hl2, Hs1, Hl1.
  split; [|done]. unfold final_texts, responses_of. simpl.
  destruct i as [response|]; simpl; [|done].
  by destruct (event_of response) as [[[] t]|].
Qed.

(** C1, as the code has it: from an empty accumulator (a new connection, or
    the state a dispatching [_finalizeSentence] leaves), after any sequence
    of recognition responses and of calls of [_finalizeSentence] that
    dispatched nothing, the next [_finalizeSentence] hands to
    [_translateAndSpeak] the trimmed space-joined texts of all [final]
    events of the sequence, in arrival order; [interim] events never enter
    the text. Nothing is handed over while that text is empty or equals
    [lastSentence]. *)
Theorem finals_make_the_sentence (this : ref) (w : World) (c : VoiceProcessor)
    (inputs : list Input) :
  heap w !! this = Some c ->
  sentence c = [] ->
  let w' := fold_left (consume this) inputs w in
  relays (log w') = relays (log w) ->
  let joined := space_join (final_texts (responses_of inputs)) in
  relays (log (_finalizeSentence this w'))
  = relays (log w)
    ++ (if truthy joined && negb (bool_decide (joined = lastSentence c))
        then [(this, trim joined)] else []).
Proof.
  intros Hc Hs w' Hquiet joined.
  destruct (consume_fold this inputs w c Hc) as (c' & l & Hc' & Hr' & H').
  fold w' in Hc', Hr'.
  assert (Hl : l = []).
  { rewrite Hquiet in Hr'. rewrite <- (app_nil_r (relays (log w))) in Hr' at 1.
    by apply app_inv_head in Hr'. }
  destruct (H' Hl) as [Hs' Hl'].
  rewrite Hs, (accumulate_from_empty _ (final_texts_nonempty _)) in Hs'.
  fold joined in Hs'.
  rewrite (finalize_log _ _ _ Hc'). unfold relays in *. rewrite omap_app, Hquiet.
  unfold finalize_guard. rewrite Hs', Hl'.
  destruct (truthy joined), (bool_decide (joined = lastSentence c)); done.
Qed.

Lemma finals_make_the_sentence_witness :
  let w := run initial (demo_call "es-ES") in
  let inputs := [recognized (final_response "Hello");
                 recognized (interim_response "Hello there");
                 recognized (interim_response "the");
                 recognized (final_response " there ")] in
  relays (log (_finalizeSentence 0 (fold_left (consume 0) inputs w)))
  = relays (log w) ++ [(0%nat, js "Hello there")].
Proof.
  intros w inputs.
  assert (Hc : heap w !! 0%nat = Some (default new_VoiceProcessor (heap w !! 0%nat)))
    by by vm_compute.
  pose proof (finals_make_the_sentence 0 w _ inputs Hc) as H.
  vm_compute in H |- *. apply H; reflexivity.
Defined.

(** C1 as stated fails: a [_finalizeSentence] that finds the accumulated
    text equal to [lastSentence] returns without emptying the accumulator,
    so the sentence dispatched at the next one also carries the finals that
    came before it. *)
Lemma finalize_keeps_repeated_sentence :
  let w := run initial (demo_call "es-ES" ++
             [stt_data 0 (final_response "Hi"); timer_fired 0;
              stt_data 0 (final_response "Hi")]) in
  let w1 := _finalizeSentence 0 w in
  let since := [final_response "there"] in
  let w2 := _finalizeSentence 0
              (fold_left (fun w r => _handleSTTData 0 r w) since w1) in
  relays (observed w w1) = [] /\
  relays (observed w1 w2) = [(0%nat, js "Hi there")] /\
  trim (space_join (final_texts since)) = js "there".
Proof. by vm_compute. Qed.

(** ** Finalizing twice, and a repeated sentence *)

(** C2: two calls of [_finalizeSentence] in a row hand the accumulated
    sentence to [_translateAndSpeak] once (not at all when the guard drops
    it); the second call changes nothing, and neither does a teardown that
    follows a call add a dispatch. *)
Theorem finalize_twice (this : ref) (w : World) (c : VoiceProcessor) :
  heap w !! this = Some c ->
  let w1 := _finalizeSentence this w in
  let w2 := _finalizeSentence this w1 in
  w2 = w1 /\
  relays (log w2)
  = relays (log w)
    ++ (if truthy (sentence c) && negb (bool_decide (sentence c = lastSentence c))
        then [(this, trim (sentence c))] else []) /\
  log (cleanup this w1) = log w1.
Proof.
  intros Hc w1 w2.
  assert (Hafter : exists c1, heap w1 !! this = Some c1 /\
                     sentenceTimer c1 = false /\ finalize_guard c1 = true).
  { subst w1. destruct (finalize_guard c) eqn:Hg.
    - rewrite (finalize_dropped _ _ _ Hc Hg).
      exists (clearSentenceTimer c). split; [by apply lookup_modify_eq|].
      unfold finalize_guard in *.
      by destruct (clearSentenceTimer_fields c) as (-> & -> & _ & _ & ->).
    - rewrite (finalize_dispatched _ _ _ Hc Hg).
      set (w' := modify this _ (modify this clearSentenceTimer w)).
      assert (Hc2 : heap w' !! this
                = Some (set_sentence [] (set_lastSentence (trim (sentence c))
                                           (clearSentenceTimer c)))).
      { subst w'. erewrite lookup_modify_eq; [done|]. by apply lookup_modify_eq. }
      destruct (tas_lookup this (trim (sentence c)) w' this _ Hc2) as [b Hc3].
      eexists. split; [exact Hc3|]. split; [apply clearSentenceTimer_fields | done]. }
  destruct Hafter as (c1 & Hc1 & Ht1 & Hg1).
  assert (Hidem : w2 = w1).
  { subst w2. rewrite (finalize_dropped _ _ _ Hc1 Hg1). apply modify_fix.
    intros c' Hc'. rewrite Hc1 in Hc'. injection Hc' as <-.
    by apply clearSentenceTimer_fix. }
  split; [done|]. rewrite Hidem. split.
  - subst w1. rewrite (finalize_log _ _ _ Hc). unfold relays, finalize_guard.
    rewrite omap_app.
    destruct (truthy (sentence c)), (bool_decide (sentence c = lastSentence c));
      simpl; by rewrite ?app_nil_r.
  - by rewrite (cleanup_log _ _ _ Hc1), Hg1, app_nil_r.
Qed.

Lemma finalize_twice_witness :
  let w := run initial (demo_call "es-ES" ++ [stt_data 0 (final_response "I am")]) in
  let w1 := _finalizeSentence 0 w in
  _finalizeSentence 0 w1 = w1 /\
  relays (log (_finalizeSentence 0 w1)) = relays (log w) ++ [(0%nat, js "I am")].
Proof.
  intros w w1.
  assert (Hc : heap w !! 0%nat = Some (default new_VoiceProcessor (heap w !! 0%nat)))
    by by vm_compute.
  destruct (finalize_twice 0 w _ Hc) as (H1 & H2 & _). split; [exact H1|].
  vm_compute in H2 |- *. exact H2.
Defined.

(** C10: when the accumulated sentence equals [lastSentence], nothing is
    handed to [_translateAndSpeak] and nothing is sent, whoever asks:
    [_finalizeSentence] itself, the silence timer, teardown, or the
    stream-error handler (unless its fallback applies: an empty accumulator
    with a preview that differs from [lastSentence]). *)
Theorem repeated_sentence_dropped (this : ref) (w : World) (c : VoiceProcessor) :
  heap w !! this = Some c ->
  sentence c = lastSentence c ->
  (log (_finalizeSentence this w) = log w /\
   calls (_finalizeSentence this w) = calls w /\
   jobs (_finalizeSentence this w) = jobs w) /\
  (log (timer_callback this w) = log w /\
   calls (timer_callback this w) = calls w /\
   jobs (timer_callback this w) = jobs w) /\
  (log (cleanup this w) = log w /\
   calls (cleanup this w) = calls w /\
   jobs (cleanup this w) = jobs w ++ [after_stopStream this]) /\
  (sentence c <> [] \/ lastInterim c = [] \/ lastInterim c = lastSentence c ->
   log (_handleSTTError this w) = log w /\
   calls (_handleSTTError this w) = calls w /\
   jobs (_handleSTTError this w) = jobs w).
Proof.
  intros Hc Heq.
  assert (Hg : finalize_guard c = true).
  { unfold finalize_guard. rewrite (bool_decide_eq_true_2 _ Heq). apply orb_true_r. }
  assert (Hfin : log (_finalizeSentence this w) = log w /\
                 calls (_finalizeSentence this w) = calls w /\
                 jobs (_finalizeSentence this w) = jobs w)
    by by rewrite (finalize_dropped _ _ _ Hc Hg).
  split; [done|]. split; [|split].
  - unfold timer_callback. rewrite Hc. by destruct (sentenceTimer c).
  - unfold cleanup. rewrite (lookup_modify_eq _ _ _ _ Hc).
    destruct (clearSentenceTimer_fields c) as (-> & -> & _).
    rewrite (bool_decide_eq_true_2 _ Heq), andb_false_r. done.
  - intros Hno. unfold _handleSTTError.
    set (w0 := modify this (set_stream false false) w).
    assert (Hc0 : heap w0 !! this = Some (set_stream false false c))
      by by apply lookup_modify_eq.
    rewrite (modify_fix this _ w0).
    + rewrite Hc0. vsimpl. rewrite (bool_decide_eq_true_2 _ Heq), andb_false_r. done.
    + intros c' Hc'. rewrite Hc0 in Hc'. injection Hc' as <-. vsimpl.
      destruct Hno as [Hne%truthy_nonempty | [Hi | Hi]].
      * by rewrite Hne.
      * rewrite Hi. simpl. by rewrite andb_false_r.
      * rewrite (bool_decide_eq_true_2 _ Hi). by rewrite andb_false_r.
Qed.

Lemma repeated_sentence_dropped_witness :
  let w := run initial (demo_call "es-ES" ++
             [stt_data 0 (final_response "Hi"); timer_fired 0;
              stt_data 0 (final_response "Hi")]) in
  log (timer_callback 0 w) = log w /\ log (_handleSTTError 0 w) = log w.
Proof.
  intros w.
  assert (Hc : heap w !! 0%nat = Some (default new_VoiceProcessor (heap w !! 0%nat)))
    by by vm_compute.
  destruct (repeated_sentence_dropped 0 w _ Hc) as (_ & (H2 & _) & _ & H4);
    [by vm_compute|].
  split; [exact H2|]. apply H4. left. by vm_compute.
Defined.

(** ** Stream errors *)

(** C4: a stream error arriving with an empty accumulator and a preview
    that is non-empty and differs from [lastSentence] makes the preview the
    sentence, finalizes it (the preview text is what [_translateAndSpeak]
    receives and what [lastSentence] records) and leaves the preview
    empty. *)
Theorem stt_error_promotes_preview (w : World) (this : ref) (c : VoiceProcessor) :
  reachable w ->
  heap w !! this = Some c ->
  sentence c = [] -> lastInterim c <> [] -> lastInterim c <> lastSentence c ->
  let preview := lastInterim c in
  _handleSTTError this w
  = modify this (set_lastInterim [])
      (_finalizeSentence this
         (modify this (set_sentence preview)
            (modify this (set_stream false false) w))) /\
  log (_handleSTTError this w) = log w ++ [relay this preview] /\
  exists c', heap (_handleSTTError this w) !! this = Some c' /\
             lastSentence c' = preview /\ sentence c' = [] /\ lastInterim c' = [].
Proof.
  intros Hw Hc Hs Hi Hd preview.
  destruct (reachable_acc_ok _ _ _ Hw Hc) as [_ Htrim].
  set (w0 := modify this (set_stream false false) w).
  assert (Hc0 : heap w0 !! this = Some (set_stream false false c))
    by by apply lookup_modify_eq.
  assert (Hpromote :
    modify this (fun c => if negb (truthy (sentence c)) && truthy (lastInterim c)
                             && negb (bool_decide (lastInterim c = lastSentence c))
                          then set_sentence (lastInterim c) c else c) w0
    = modify this (set_sentence preview) w0).
  { unfold modify. f_equal. apply list_alter_ext; [|done].
    intros c' Hc'. rewrite Hc0 in Hc'. injection Hc' as <-. vsimpl.
    rewrite Hs. apply truthy_nonempty in Hi. rewrite Hi.
    by rewrite bool_decide_eq_false_2. }
  set (w1 := modify this (set_sentence preview) w0).
  assert (Hc1 : heap w1 !! this = Some (set_sentence preview (set_stream false false c)))
    by by apply lookup_modify_eq.
  assert (Hg : finalize_guard (set_sentence preview (set_stream false false c)) = false).
  { unfold finalize_guard. vsimpl. apply truthy_nonempty in Hi. fold preview in Hi.
    rewrite Hi. by rewrite bool_decide_eq_false_2. }
  assert (Heq : _handleSTTError this w
                = modify this (set_lastInterim []) (_finalizeSentence this w1)).
  { unfold _handleSTTError. fold w0. rewrite Hpromote. fold w1. rewrite Hc1. vsimpl.
    apply truthy_nonempty in Hi. fold preview in Hi. rewrite Hi.
    by rewrite bool_decide_eq_false_2. }
  split; [done|]. rewrite Heq. split.
  - wsimpl. rewrite (finalize_log _ _ _ Hc1), Hg. vsimpl.
    fold preview in Htrim. by rewrite Htrim.
  - rewrite (finalize_dispatched _ _ _ Hc1 Hg). vsimpl.
    fold preview in Htrim. rewrite Htrim.
    set (w2 := modify this _ (modify this clearSentenceTimer w1)).
    assert (Hc2 : heap w2 !! this
              = Some (set_sentence [] (set_lastSentence preview
                        (clearSentenceTimer (set_sentence preview (set_stream false false c)))))).
    { subst w2. erewrite lookup_modify_eq; [done|]. by apply lookup_modify_eq. }
    destruct (tas_lookup this preview w2 this _ Hc2) as [b Hc3].
    eexists. split; [by apply lookup_modify_eq|]. done.
Qed.

Lemma stt_error_promotes_preview_witness :
  let w := run initial (demo_call "es-ES" ++ [stt_data 0 (interim_response " Hello ")]) in
  log (_handleSTTError 0 w) = log w ++ [relay 0 (js "Hello")].
Proof.
  intros w.
  refine (proj1 (proj2 (stt_error_promotes_preview w 0 _ _ eq_refl eq_refl _ _))).
  - apply reachable_run, reachable_initial.
  - discriminate.
  - discriminate.
Defined.

(** ** Single flight *)

(** C3: a connection never has more than one round of
    [_translateAndSpeak] in flight, between events and after the synchronous
    part of any handler; an invocation that finds the processing flag set
    is only observed: the heap, the promise jobs, the pending engine calls
    and the sessions stay as they are, so the sentence is neither queued nor
    processed and the round in flight is untouched. *)
Theorem single_flight (w : World) (this : ref) :
  reachable w ->
  (rounds this (jobs w) (calls w) <= 1)%nat /\
  (forall e, (rounds this (jobs (handle e w)) (calls (handle e w)) <= 1)%nat) /\
  (forall c text,
     heap w !! this = Some c -> isProcessing c = true ->
     _translateAndSpeak this text w = emit (relay this text) w).
Proof.
  intros [H _]%reachable_Inv. split; [|split].
  - exact (rounds_bound [] w this H).
  - intros e. exact (rounds_bound [] _ this (Inv_handle e w H)).
  - intros c text Hc Hf. unfold _translateAndSpeak. wsimpl. by rewrite Hc, Hf.
Qed.

Lemma single_flight_witness :
  let w := run initial (demo_call "es-ES" ++ [stt_data 0 (final_response "Hello");
                                              timer_fired 0]) in
  rounds 0 (jobs w) (calls w) = 1%nat /\
  _translateAndSpeak 0 (js "there") w = emit (relay 0 (js "there")) w.
Proof.
  intros w. split; [by vm_compute|].
  refine (proj2 (proj2 (single_flight w 0 _)) _ (js "there") _ _).
  - apply reachable_run, reachable_initial.
  - by vm_compute.
  - by vm_compute.
Defined.

(** C7: the processing flag is set only while a round is in flight. Between
    events a connection without a round in flight has the flag clear; when
    [_translateAndSpeak] returns without leaving a round suspended (empty
    text, missing session, missing or language-less partner) the flag is
    clear; and the last part of a round clears it whatever the synthesis
    reply is and whether or not the delivery throws. *)
Theorem processing_flag_released (w : World) (this : ref) (c : VoiceProcessor) :
  reachable w ->
  heap w !! this = Some c ->
  (rounds this (jobs w) (calls w) = 0%nat -> isProcessing c = false) /\
  (forall text,
     let w' := _translateAndSpeak this text w in
     rounds this (jobs w') (calls w') = 0%nat ->
     exists c', heap w' !! this = Some c' /\ isProcessing c' = false) /\
  (forall partner audio,
     exists c', heap (resume_synthesized this partner audio w) !! this = Some c' /\
                isProcessing c' = false).
Proof.
  intros [H _]%reachable_Inv Hc. split; [|split].
  - intros H0. pose proof (inv_flight _ _ H _ _ Hc) as Hf. simpl in Hf.
    rewrite H0 in Hf. by destruct (isProcessing c).
  - intros text w' H0.
    destruct (tas_lookup this text w this c Hc) as [b Hc'].
    exists (set_isProcessing b c). split; [done|].
    pose proof (inv_flight _ _ (Inv_translateAndSpeak [] this text w H) _ _ Hc') as Hf.
    simpl in Hf. fold w' in Hf. rewrite H0 in Hf. vsimpl. by destruct b.
  - intros partner audio. unfold resume_synthesized.
    match goal with |- context [modify this _ ?w1] =>
      assert (Hw : heap w1 = heap w) end.
    { destruct audio as [pcm|]; [|done].
      destruct (heap w !! partner) as [pc|]; [|done].
      destruct (ws_readyState pc =? 1); [|done].
      by destruct (_toWav pcm 48000). }
    eexists. split; [apply lookup_modify_eq; by rewrite Hw|]. done.
Qed.

Lemma processing_flag_released_witness :
  let w := run initial (demo_call "es-ES" ++
             [stt_data 0 (final_response "Hello"); timer_fired 0;
              translate_reply 0 None; synthesize_reply 0 None]) in
  isProcessing (default new_VoiceProcessor (heap w !! 0%nat)) = false.
Proof.
  intros w.
  assert (Hw : reachable w) by apply reachable_run, reachable_initial.
  assert (Hc : heap w !! 0%nat = Some (default new_VoiceProcessor (heap w !! 0%nat)))
    by by vm_compute.
  apply (proj1 (processing_flag_released w 0 _ Hw Hc)).
  by vm_compute.
Defined.

(** ** Teardown *)

Lemma run_job_log w j : exists l, log (run_job w j) = log w ++ l.
Proof.
  destruct j; simpl.
  - unfold resume_translated, _sendToUI.
    repeat (case_match; wsimpl); rewrite <- ?app_assoc;
      first [by eexists | exists []; by rewrite app_nil_r].
  - unfold resume_cleanup, _notifyPartner.
    repeat (case_match; wsimpl);
      first [by eexists | exists []; by rewrite app_nil_r].
Qed.

Lemma fold_jobs_log js w : exists l, log (fold_left run_job js w) = log w ++ l.
Proof.
  revert w. induction js as [|j js IH]; intros w; simpl;
    [exists []; by rewrite app_nil_r|].
  destruct (IH (run_job w j)) as [l2 ->]. destruct (run_job_log w j) as [l1 ->].
  exists (l1 ++ l2). by rewrite app_assoc.
Qed.

Lemma drain_log w : exists l, log (drain w) = log w ++ l.
Proof. unfold drain. apply (fold_jobs_log (jobs w) (set_jobs [] w)). Qed.

Lemma tas_same_language this p text w c pc session :
  heap w !! this = Some c -> isProcessing c = false -> text <> [] ->
  get_session w (roomId c) = Some session -> partner_of c session = Some p ->
  p <> this -> heap w !! p = Some pc -> truthy_opt (myLanguage pc) = true ->
  base_lang (myLanguage c) = base_lang (myLanguage pc) ->
  _translateAndSpeak this text w
  = enqueue (after_translate this p text text)
      (modify this (set_isProcessing true) (emit (relay this text) w)).
Proof.
  intros Hc Hf Ht Hs Hp Hne Hpc Hl Hb. unfold _translateAndSpeak.
  change (heap (emit (relay this text) w)) with (heap w). rewrite Hc, Hf.
  apply truthy_nonempty in Ht. rewrite Ht. cbn [negb orb].
  change (get_session (modify this (set_isProcessing true) (emit (relay this text) w))
            (roomId c)) with (get_session w (roomId c)).
  rewrite Hs, Hp, lookup_modify_ne by done.
  change (heap (emit (relay this text) w)) with (heap w). rewrite Hpc, Hl.
  unfold _translate. by rewrite Hb, bool_decide_eq_true_2.
Qed.

Lemma partner_of_detach this p c session :
  partner_of c session = Some p -> p <> this ->
  partner_of c (detach this session) = Some p.
Proof.
  unfold partner_of, detach. intros H Hne.
  repeat (case_bool_decide; simpl in *); simplify_eq; done.
Qed.

Lemma resume_translated_open this p text translated w c pc :
  heap w !! this = Some c -> heap w !! p = Some pc -> ws_readyState pc = 1 ->
  let data := translation text translated (userType c) (myLanguage c) (myLanguage pc) in
  resume_translated this p text translated w
  = request (synthesize_call this p translated (myLanguage pc))
      (emit (sent p data)
         (if ws_readyState c =? 1 then emit (sent this data) w else w)).
Proof.
  intros Hc Hpc Hopen data. unfold resume_translated. rewrite Hc, Hpc.
  fold data. unfold _sendToUI at 2. rewrite Hc.
  unfold _sendToUI, ws_send.
  destruct (ws_readyState c =? 1); wsimpl; by rewrite Hpc, Hopen.
Qed.

Lemma resume_cleanup_open this p w c pc room session :
  heap w !! this = Some c -> roomId c = Some room ->
  activeSessions w !! room = Some session ->
  partner_of c session = Some p -> p <> this ->
  heap w !! p = Some pc -> ws_readyState pc = 1 ->
  resume_cleanup this w
  = emit (sent p user_left)
      (set_activeSessions (<[room := detach this session]> (activeSessions w)) w).
Proof.
  intros Hc Hr Hs Hp Hne Hpc Hopen. unfold resume_cleanup.
  rewrite Hc, Hr, Hs. unfold _notifyPartner. wsimpl. rewrite Hc, Hr.
  unfold get_session. simpl. rewrite lookup_insert_eq.
  rewrite (partner_of_detach _ _ _ _ Hp Hne), Hpc, Hopen. done.
Qed.

(** C5, as the code has it: tearing down a connection whose accumulated
    sentence is non-empty and differs from [lastSentence] hands that
    sentence to [_translateAndSpeak] in the synchronous part of [cleanup],
    ahead of everything else the teardown does, so before [user_left] is
    sent. The partner is sent the [translation] before [user_left] when the
    round needs no engine: the relay is free, the partner is attached with
    an open socket and a language of the same base tag. *)
Theorem cleanup_flushes_pending_sentence (w : World) (this : ref) (c : VoiceProcessor) :
  reachable w ->
  heap w !! this = Some c ->
  sentence c <> [] -> sentence c <> lastSentence c ->
  let said := trim (sentence c) in
  log (cleanup this w) = log w ++ [relay this said] /\
  (exists rest, log (drain (cleanup this w)) = log w ++ relay this said :: rest) /\
  (forall session p pc,
     isProcessing c = false ->
     get_session w (roomId c) = Some session -> partner_of c session = Some p ->
     p <> this -> heap w !! p = Some pc -> ws_readyState pc = 1 ->
     truthy_opt (myLanguage pc) = true ->
     base_lang (myLanguage c) = base_lang (myLanguage pc) ->
     let data := translation said said (userType c) (myLanguage c) (myLanguage pc) in
     log (drain (cleanup this w))
     = log w ++ [relay this said]
         ++ (if ws_readyState c =? 1 then [sent this data] else [])
         ++ [sent p data; sent p user_left] /\
     translation_before_user_left p (observed w (drain (cleanup this w))) = true).
Proof.
  intros Hw Hc Hne Hd said.
  destruct (reachable_Inv w Hw) as [HI Hjobs].
  destruct (inv_acc _ _ HI _ _ Hc) as [Htrim _].
  assert (Hg : finalize_guard c = false).
  { unfold finalize_guard. apply truthy_nonempty in Hne. rewrite Hne.
    by rewrite bool_decide_eq_false_2. }
  assert (Hlog : log (cleanup this w) = log w ++ [relay this said])
    by by rewrite (cleanup_log _ _ _ Hc), Hg.
  split; [done|]. split.
  { destruct (drain_log (cleanup this w)) as [l ->]. rewrite Hlog.
    exists l. by rewrite <- app_assoc. }
  intros session p pc Hf Hs Hp Hpne Hpc Hopen Hlang Hbase data.
  assert (Hsaid : said <> []) by (subst said; by rewrite Htrim).
  destruct (clearSentenceTimer_fields c) as (Hc1s & Hc1l & _ & Hc1f & _).
  destruct (clearSentenceTimer_user c) as (Hc1r & Hc1u & Hc1m & Hc1w).
  (* the synchronous part *)
  set (w1 := modify this clearSentenceTimer w).
  assert (Hw1 : heap w1 !! this = Some (clearSentenceTimer c))
    by by apply lookup_modify_eq.
  assert (Hg1 : finalize_guard (clearSentenceTimer c) = false)
    by (unfold finalize_guard in *; by rewrite Hc1s, Hc1l).
  set (c2 := set_sentence [] (set_lastSentence said
               (clearSentenceTimer (clearSentenceTimer c)))).
  set (w2 := modify this (fun c' => set_sentence [] (set_lastSentence said c'))
               (modify this clearSentenceTimer w1)).
  assert (Hw2 : heap w2 !! this = Some c2).
  { subst w2 c2. erewrite lookup_modify_eq; [done|]. by apply lookup_modify_eq. }
  assert (Hc2 : roomId c2 = roomId c /\ userType c2 = userType c /\
                myLanguage c2 = myLanguage c /\ ws_readyState c2 = ws_readyState c /\
                isProcessing c2 = isProcessing c).
  { subst c2. unfold clearSentenceTimer. by destruct (sentenceTimer c). }
  destruct Hc2 as (Hr2 & Hu2 & Hm2 & Hws2 & Hf2).
  assert (Hp2 : heap w2 !! p = Some pc).
  { subst w2 w1. by rewrite !lookup_modify_ne. }
  assert (Hfin : _finalizeSentence this w1
    = enqueue (after_translate this p said said)
        (modify this (set_isProcessing true) (emit (relay this said) w2))).
  { rewrite (finalize_dispatched _ _ _ Hw1 Hg1), Hc1s. fold said. fold w2.
    apply (tas_same_language this p said w2 c2 pc session); try done.
    - by rewrite Hf2.
    - by rewrite Hr2.
    - unfold partner_of in *. by rewrite Hu2.
    - by rewrite Hm2. }
  assert (Hclean : cleanup this w
    = enqueue (after_stopStream this)
        (modify this _stopStream
           (enqueue (after_translate this p said said)
              (modify this (set_isProcessing true) (emit (relay this said) w2))))).
  { unfold cleanup. fold w1. rewrite Hw1, Hc1s, Hc1l.
    apply truthy_nonempty in Hne. rewrite Hne.
    rewrite bool_decide_eq_false_2 by done. simpl. by rewrite Hfin. }
  (* the promise jobs *)
  set (c3 := _stopStream (set_isProcessing true c2)).
  assert (Hc3 : roomId c3 = roomId c /\ userType c3 = userType c /\
                myLanguage c3 = myLanguage c /\ ws_readyState c3 = ws_readyState c).
  { subst c3 c2. unfold clearSentenceTimer. by destruct (sentenceTimer c). }
  destruct Hc3 as (Hr3 & Hu3 & Hm3 & Hws3).
  set (w3 := set_jobs [] (cleanup this w)).
  assert (Hw3 : heap w3 !! this = Some c3).
  { subst w3. rewrite Hclean. wsimpl.
    rewrite !list_lookup_alter_eq. wsimpl.
    change (alter _ this (alter clearSentenceTimer this (heap w1)))
      with (heap w2). by rewrite Hw2. }
  assert (Hp3 : heap w3 !! p = Some pc).
  { subst w3. rewrite Hclean. wsimpl.
    rewrite !list_lookup_alter_ne by done. exact Hp2. }
  assert (Hdrain : drain (cleanup this w)
    = resume_cleanup this (resume_translated this p said said w3)).
  { unfold drain. fold w3. rewrite Hclean.
    change (jobs _) with ((jobs w ++ [after_translate this p said said])
                          ++ [after_stopStream this]).
    by rewrite Hjobs. }
  rewrite Hdrain.
  rewrite (resume_translated_open this p said said w3 c3 pc Hw3 Hp3 Hopen).
  unfold get_session in Hs. destruct (roomId c) as [room|] eqn:Hroom; [|done].
  simpl in Hs.
  set (data3 := translation said said (userType c3) (myLanguage c3) (myLanguage pc)).
  assert (Hdata : data3 = data).
  { subst data3 data. by rewrite Hu3, Hm3. }
  rewrite Hdata.
  rewrite Hws3.
  set (w4 := request _ _).
  assert (Hlog4 : log w4 = log w ++ [relay this said]
                    ++ (if ws_readyState c =? 1 then [sent this data] else [])
                    ++ [sent p data]).
  { subst w4 w3. rewrite Hclean. destruct (ws_readyState c =? 1); wsimpl;
      by rewrite <- !app_assoc. }
  assert (Heq : resume_cleanup this w4
    = emit (sent p user_left)
        (set_activeSessions (<[room := detach this session]> (activeSessions w4)) w4)).
  { apply (resume_cleanup_open this p w4 c3 pc room session).
    - subst w4. destruct (ws_readyState c =? 1); exact Hw3.
    - by rewrite Hr3.
    - subst w4 w3. rewrite Hclean. by destruct (ws_readyState c =? 1).
    - unfold partner_of in *. by rewrite Hu3.
    - done.
    - subst w4. destruct (ws_readyState c =? 1); exact Hp3.
    - done. }
  rewrite Heq.
  assert (Hfinal : log (emit (sent p user_left)
              (set_activeSessions (<[room := detach this session]> (activeSessions w4)) w4))
            = log w ++ [relay this said]
                ++ (if ws_readyState c =? 1 then [sent this data] else [])
                ++ [sent p data; sent p user_left]).
  { wsimpl. rewrite Hlog4. rewrite <- !app_assoc. done. }
  split; [done|].
  unfold observed. rewrite Hfinal, drop_app_length.
  unfold translation_before_user_left.
  destruct (ws_readyState c =? 1); simpl;
    rewrite ?(bool_decide_eq_false_2 (this = p)) by done;
    rewrite !(bool_decide_eq_true_2 (p = p)) by done; done.
Qed.

Lemma cleanup_flushes_pending_sentence_witness :
  let w := run initial (demo_call "en-GB" ++ [stt_data 0 (final_response "I am")]) in
  let said := js "I am" in
  let data := translation said said (Some (js "caller")) (Some (js "en-US"))
                (Some (js "en-GB")) in
  log (perform w (ws_message 0 disconnect))
  = log w ++ [relay 0 said; sent 0 data; sent 1 data; sent 1 user_left].
Proof.
  intros w said data.
  assert (Hw : reachable w) by apply reachable_run, reachable_initial.
  assert (Hc : heap w !! 0%nat = Some (default new_VoiceProcessor (heap w !! 0%nat)))
    by by vm_compute.
  destruct (cleanup_flushes_pending_sentence w 0 _ Hw Hc) as (_ & _ & H);
    [by vm_compute | by vm_compute |].
  edestruct H as [Hlog _]; [by vm_compute ..|].
  vm_compute in Hlog |- *. exact Hlog.
Defined.

(** C5 as stated fails: with a partner of another language the translation
    is delivered only once the engine has replied, and by then the partner
    has been sent [user_left]. *)
Lemma cleanup_user_left_before_translation :
  let w := run initial (demo_call "es-ES" ++ [stt_data 0 (final_response "I am")]) in
  let said := js "I am" in
  let w' := run w [ws_closed 0; translate_reply 0 (Some (js "Yo soy"))] in
  sentence <$> heap w !! 0%nat = Some said /\
  lastSentence <$> heap w !! 0%nat = Some [] /\
  observed w (perform w (ws_closed 0)) = [relay 0 said; sent 1 user_left] /\
  observed w w'
  = [relay 0 said; sent 1 user_left;
     sent 1 (translation said (js "Yo soy") (Some (js "caller"))
               (Some (js "en-US")) (Some (js "es-ES")))] /\
  translation_before_user_left 1 (observed w w') = false.
Proof. by vm_compute. Qed.

(** ** Joining a room *)

(** C6: [/join-room] answers 404 "Room not found" for an identifier that is
    not in [activeSessions], 400 "Room is full" when the session already has
    a participant language, and otherwise stores the participant and echoes
    the creator's language and name; a second join after a successful one
    that gave a language is refused. *)
Theorem join_room_outcomes (b : JoinBody) (sessions : gmap jsstring Session) :
  ((join_roomId b = None \/
    exists room, join_roomId b = Some room /\ sessions !! room = None) ->
   join_room (Some b) sessions
   = (res_status_json 404 (error_body (js "Room not found")), sessions)) /\
  (forall room session,
     join_roomId b = Some room -> sessions !! room = Some session ->
     truthy_opt (participantLanguage session) = true ->
     join_room (Some b) sessions
     = (res_status_json 400 (error_body (js "Room is full")), sessions)) /\
  (forall room session,
     join_roomId b = Some room -> sessions !! room = Some session ->
     truthy_opt (participantLanguage session) = false ->
     join_room (Some b) sessions
     = (res_json (join_success (creatorLanguage session) (creatorName session)),
        <[room := set_participant (join_participantLanguage b)
                    (join_participantName b) session]> sessions) /\
     (truthy_opt (join_participantLanguage b) = true ->
      forall b', join_roomId b' = Some room ->
        (join_room (Some b') (join_room (Some b) sessions).2).1
        = res_status_json 400 (error_body (js "Room is full")))).
Proof.
  unfold join_room.
  split; [|split].
  - intros [-> | (room & -> & H)]; cbn; [done|]. by rewrite H.
  - intros room session -> Hs Hfull. cbn. by rewrite Hs; cbn; rewrite Hfull.
  - intros room session Hr Hs Hfree. rewrite Hr. cbn. rewrite Hs. cbn.
    rewrite Hfree. split; [done|].
    intros Hlang b' ->. cbn. rewrite lookup_insert_eq. cbn.
    by rewrite Hlang.
Qed.

Lemma join_room_outcomes_witness :
  let room := js "abcd1234" in
  let session := {| creatorLanguage := Some (js "en"); creatorName := Some (js "Ann");
                    participantLanguage := None; participantName := None;
                    callerConnection := None; receiverConnection := None;
                    createdAt := 0 |} in
  let b := {| join_roomId := Some room; join_participantLanguage := Some (js "es");
              join_participantName := Some (js "Bob") |} in
  (join_room (Some b) ∅).1 = res_status_json 404 (error_body (js "Room not found")) /\
  (join_room (Some b) {[ room := session ]}).1
  = res_json (join_success (Some (js "en")) (Some (js "Ann"))) /\
  (join_room (Some b) (join_room (Some b) {[ room := session ]}).2).1
  = res_status_json 400 (error_body (js "Room is full")).
Proof.
  intros room session b.
  destruct (join_room_outcomes b ∅) as (H1 & _ & _).
  specialize (H1 (or_intror (ex_intro _ room (conj eq_refl (lookup_empty room))))).
  destruct (join_room_outcomes b {[ room := session ]}) as (_ & _ & H3).
  destruct (H3 room session eq_refl (lookup_singleton_eq room session) eq_refl)
    as (H3a & H3b).
  split; [by rewrite H1|].
  split; [by rewrite H3a|].
  by apply H3b.
Defined.

(** ** Same-language short-circuit *)

(** C8: when two language tags have the same part before their first
    hyphen, [_translate] fulfils its promise with the input text at once and
    issues no request to the translation engine. *)
Theorem translate_same_base (text from to : jsstring) :
  from <> [] -> to <> [] ->
  split_head HYPHEN from = split_head HYPHEN to ->
  _translate text (Some from) (Some to) = translate_done text.
Proof.
  intros Hf Ht Hb. unfold _translate, base_lang, or_else.
  destruct from as [|f from']; [done|]. destruct to as [|t to']; [done|].
  cbn [truthy]. rewrite Hb. by rewrite bool_decide_eq_true_2.
Qed.

Lemma translate_same_base_witness :
  _translate (js "Hello there") (Some (js "en-US")) (Some (js "en-GB"))
  = translate_done (js "Hello there").
Proof. apply translate_same_base; [discriminate | discriminate | reflexivity]. Defined.

(** ** The WAV container *)

Lemma le32_read (v : Z) (pre post : Buffer) (off : nat) :
  0 <= v <= 4294967295 -> length pre = off ->
  readUInt32LE off (pre ++ le32 v ++ post) = v.
Proof.
  intros Hv <-. unfold readUInt32LE.
  rewrite drop_app_length. unfold le32. cbn [app].
  replace (v / 65536) with (v / 256 / 256)
    by (rewrite Z.div_div by lia; reflexivity).
  replace (v / 16777216) with (v / 256 / 256 / 256)
    by (rewrite !Z.div_div by lia; reflexivity).
  set (q1 := v / 256). set (q2 := q1 / 256). set (q3 := q2 / 256).
  pose proof (Z.div_mod v 256 ltac:(lia)) as E0.
  pose proof (Z.div_mod q1 256 ltac:(lia)) as E1.
  pose proof (Z.div_mod q2 256 ltac:(lia)) as E2.
  pose proof (Z.mod_pos_bound v 256 ltac:(lia)).
  pose proof (Z.mod_pos_bound q1 256 ltac:(lia)).
  pose proof (Z.mod_pos_bound q2 256 ltac:(lia)).
  fold q1 in E0. fold q2 in E1. fold q3 in E2.
  rewrite (Z.mod_small q3) by lia.
  lia.
Qed.

Lemma in_range_check (v max : Z) :
  0 <= v <= max -> (v <? 0) || (max <? v) = false.
Proof. intros. apply orb_false_iff. split; lia. Qed.

Lemma toWav_bytes (pcm : Buffer) (rate : Z) :
  0 <= rate <= 2147483647 ->
  Z.of_nat (length pcm) <= 4294967259 ->
  _toWav pcm rate = normal (wav_header (Z.of_nat (length pcm)) rate ++ pcm).
Proof.
  intros Hr Hn. unfold _toWav, wav_header.
  set (n := Z.of_nat (length pcm)) in *.
  assert (E1 := in_range_check (36 + n) 4294967295 ltac:(lia)).
  assert (E2 := in_range_check rate 4294967295 ltac:(lia)).
  assert (E3 := in_range_check (rate * 2) 4294967295 ltac:(lia)).
  assert (E4 := in_range_check n 4294967295 ltac:(lia)).
  set (riff := 36 + n) in *. set (br := rate * 2) in *.
  clearbody riff br n.
  unfold writeUInt32LE, writeUInt16LE.
  rewrite E1, E2, E3, E4.
  reflexivity.
Qed.

(** C9, as the code has it: for a PCM buffer of N <= 4294967259 bytes and an
    integer sample rate 0 <= R <= 2147483647, [_toWav] returns 44 + N bytes;
    the first 44 decode as a RIFF/WAVE header declaring PCM, mono, 16 bits,
    sample rate R and a data chunk of N bytes, and the rest is the input. *)
Theorem toWav_container (pcm : Buffer) (rate : Z) :
  0 <= rate <= 2147483647 ->
  Z.of_nat (length pcm) <= 4294967259 ->
  exists wav,
    _toWav pcm rate = normal wav /\
    length wav = (44 + length pcm)%nat /\
    decode_wav_header (take 44 wav) =
      Some {| riffSize := 36 + Z.of_nat (length pcm); audioFormat := 1;
              numChannels := 1; sampleRate := rate; byteRate := rate * 2;
              blockAlign := 2; bitsPerSample := 16;
              dataSize := Z.of_nat (length pcm) |} /\
    drop 44 wav = pcm.
Proof.
  intros Hr Hn. eexists. split; [by apply toWav_bytes|].
  set (n := Z.of_nat (length pcm)) in *.
  assert (Hlen : length (wav_header n rate) = 44%nat) by reflexivity.
  split; [by rewrite length_app, Hlen|].
  split; [|by rewrite drop_app_length'].
  rewrite take_app_length' by done.
  unfold decode_wav_header. rewrite Hlen.
  assert (R1 : readUInt32LE 4 (wav_header n rate) = 36 + n)
    by (apply (le32_read _ [82; 73; 70; 70]); [lia | done]).
  assert (R2 : readUInt32LE 24 (wav_header n rate) = rate)
    by exact (le32_read rate
                ([82; 73; 70; 70] ++ le32 (36 + n)
                 ++ [87; 65; 86; 69; 102; 109; 116; 32; 16; 0; 0; 0; 1; 0; 1; 0])
                (le32 (rate * 2) ++ [2; 0; 16; 0; 100; 97; 116; 97] ++ le32 n)
                24 ltac:(lia) eq_refl).
  assert (R3 : readUInt32LE 28 (wav_header n rate) = rate * 2)
    by exact (le32_read (rate * 2)
                ([82; 73; 70; 70] ++ le32 (36 + n)
                 ++ [87; 65; 86; 69; 102; 109; 116; 32; 16; 0; 0; 0; 1; 0; 1; 0]
                 ++ le32 rate)
                ([2; 0; 16; 0; 100; 97; 116; 97] ++ le32 n)
                28 ltac:(lia) eq_refl).
  assert (R4 : readUInt32LE 40 (wav_header n rate) = n)
    by exact (le32_read n
                ([82; 73; 70; 70] ++ le32 (36 + n)
                 ++ [87; 65; 86; 69; 102; 109; 116; 32; 16; 0; 0; 0; 1; 0; 1; 0]
                 ++ le32 rate ++ le32 (rate * 2)
                 ++ [2; 0; 16; 0; 100; 97; 116; 97])
                [] 40 ltac:(lia) eq_refl).
  rewrite R1, R2, R3, R4.
  reflexivity.
Qed.

Lemma toWav_container_witness :
  exists wav,
    _toWav [1; 2; 3] 48000 = normal wav /\
    length wav = 47%nat /\
    decode_wav_header (take 44 wav) =
      Some {| riffSize := 39; audioFormat := 1; numChannels := 1;
              sampleRate := 48000; byteRate := 96000; blockAlign := 2;
              bitsPerSample := 16; dataSize := 3 |} /\
    drop 44 wav = [1; 2; 3].
Proof. apply (toWav_container [1; 2; 3] 48000); simpl; lia. Defined.

(** C9 as stated fails: at sample rate 2^31 the byte-rate field [rate * 2]
    does not fit 32 bits and [writeUInt32LE] throws, for every buffer. *)
Lemma toWav_rate_out_of_range :
  _toWav [] 2147483648 = thrown RangeError /\
  ~ (exists wav, _toWav [] 2147483648 = normal wav /\ length wav = 44%nat).
Proof.
  split; [reflexivity|].
  intros (wav & H & _). vm_compute in H. discriminate.
Qed.

(** ** Language tables *)

(** Closed decidable facts, by evaluation of their decision procedure. *)
Ltac decided := apply (bool_decide_unpack _); vm_compute; exact I.

Lemma split_head_clean sep s : sep ∉ split_head sep s.
Proof.
  induction s as [|c s IH]; cbn; [by apply not_elem_of_nil|].
  destruct (N.eqb_spec c sep) as [->|Hne]; [by apply not_elem_of_nil|].
  apply not_elem_of_cons. by split; [congruence|].
Qed.

Lemma split_head_prefix sep s r : sep ∉ s -> split_head sep (s ++ sep :: r) = s.
Proof.
  induction s as [|c s IH]; cbn; intros H.
  - by rewrite N.eqb_refl.
  - apply not_elem_of_cons in H as [Hc Hs].
    destruct (N.eqb_spec c sep) as [->|_]; [done|]. by rewrite IH.
Qed.

Lemma split_head_whole sep s : sep ∉ s -> split_head sep s = s.
Proof.
  induction s as [|c s IH]; cbn; intros H; [done|].
  apply not_elem_of_cons in H as [Hc Hs].
  destruct (N.eqb_spec c sep) as [->|_]; [done|]. by rewrite IH.
Qed.

Lemma base_lang_region tag region :
  tag <> [] -> HYPHEN ∉ tag ->
  base_lang (Some (tag ++ HYPHEN :: region)) = tag /\ base_lang (Some tag) = tag.
Proof.
  intros Hne Hh. unfold base_lang.
  destruct tag as [|c tag]; [done|]. cbn [app or_else truthy].
  split; [by apply (split_head_prefix HYPHEN (c :: tag))|by apply split_head_whole].
Qed.

Lemma own_property_Some {A} (table : list (jsstring * A)) key v :
  own_property table key = Some v -> (key, v) ∈ table.
Proof.
  induction table as [|[k x] table IH]; cbn; [done|].
  case_bool_decide; [intros [= ->]; subst; apply list_elem_of_here|].
  intros Hrest. apply list_elem_of_further. by apply IH.
Qed.

(** X1. The recognition language depends on the base subtag only: whatever
    follows the first hyphen of the tag is ignored. *)
Theorem getLangCode_region_ignored (tag region : jsstring) :
  HYPHEN ∉ tag ->
  _getLangCode (Some (tag ++ HYPHEN :: region)) = _getLangCode (Some tag).
Proof.
  intros Hh. destruct tag as [|c tag]; [done|].
  unfold _getLangCode.
  destruct (base_lang_region (c :: tag) region) as [E1 E2]; [done|done|].
  by rewrite E1, E2.
Qed.

Lemma getLangCode_region_ignored_witness :
  _getLangCode (Some (js "es-MX")) = _getLangCode (Some (js "es")).
Proof.
  apply (getLangCode_region_ignored (js "es") (js "MX")). decided.
Defined.

(** X2. Unless the base subtag names a member of [Object.prototype], the
    recognition language is one of the thirteen codes of the table, and it
    is en-US for every base subtag the table does not list. *)
Theorem getLangCode_range (lang : option jsstring) :
  base_lang lang ∉ Object_prototype ->
  exists code,
    _getLangCode lang = looked_up code /\
    code ∈ getLangCode_map.*2 /\
    (own_property getLangCode_map (base_lang lang) = None -> code = js "en-US").
Proof.
  intros Hp. unfold _getLangCode, lookup_or.
  destruct (own_property getLangCode_map (base_lang lang)) as [code|] eqn:E.
  - exists code. split; [done|]. split; [|done].
    apply own_property_Some in E. apply list_elem_of_fmap. by exists (base_lang lang, code).
  - rewrite bool_decide_eq_false_2 by done. exists (js "en-US").
    split; [done|]. split; [|done]. apply list_elem_of_here.
Qed.

Lemma getLangCode_range_witness :
  exists code,
    _getLangCode (Some (js "it-IT")) = looked_up code /\
    code ∈ getLangCode_map.*2 /\
    (own_property getLangCode_map (base_lang (Some (js "it-IT"))) = None ->
     code = js "en-US").
Proof.
  apply (getLangCode_range (Some (js "it-IT"))).
  decided.
Defined.

(** X3. Every language the recogniser has a code for is synthesised in that
    same code: the voice chosen for the tag carries the [languageCode]
    that [_getLangCode] gives for it. *)
Theorem tts_voice_matches_recognizer (lang : option jsstring) (code : jsstring) :
  own_property getLangCode_map (base_lang lang) = Some code ->
  _getLangCode lang = looked_up code /\
  exists voice, _tts_voice lang = looked_up voice /\ languageCode voice = Some code.
Proof.
  intros H. unfold _getLangCode, _tts_voice, lookup_or. rewrite H.
  split; [done|].
  apply own_property_Some in H. unfold getLangCode_map in H.
  repeat (apply elem_of_cons in H as [[= -> ->]|H];
          [eexists; split; [reflexivity|by vm_compute]|]).
  by apply elem_of_nil in H.
Qed.

Lemma tts_voice_matches_recognizer_witness :
  _getLangCode (Some (js "zh-TW")) = looked_up (js "cmn-CN") /\
  exists voice, _tts_voice (Some (js "zh-TW")) = looked_up voice /\
                languageCode voice = Some (js "cmn-CN").
Proof.
  apply (tts_voice_matches_recognizer (Some (js "zh-TW")) (js "cmn-CN")).
  by vm_compute.
Defined.

(** X4. A tag whose base subtag is a key of [voices] gets the voice of the
    table whatever its region; any other tag, unless its base names a member
    of [Object.prototype], gets a voice with no name, gender NEUTRAL and the
    whole tag, region included, as its [languageCode]. *)
Theorem tts_voice_region (tag region : jsstring) :
  HYPHEN ∉ tag ->
  (forall voice, own_property voices tag = Some voice ->
     _tts_voice (Some (tag ++ HYPHEN :: region)) = looked_up voice) /\
  (own_property voices tag = None -> tag ∉ Object_prototype ->
     _tts_voice (Some (tag ++ HYPHEN :: region))
     = looked_up {| languageCode := Some (tag ++ HYPHEN :: region); name := None;
                    ssmlGender := Some (js "NEUTRAL") |}).
Proof.
  intros Hh.
  assert (Hb : base_lang (Some (tag ++ HYPHEN :: region)) = tag).
  { destruct tag as [|c tag]; [done|]. by apply base_lang_region. }
  unfold _tts_voice, lookup_or. rewrite Hb. split.
  - by intros voice ->.
  - intros -> Hp. by rewrite bool_decide_eq_false_2.
Qed.

Lemma tts_voice_region_witness :
  (forall voice, own_property voices (js "en") = Some voice ->
     _tts_voice (Some (js "en-GB")) = looked_up voice) /\
  (own_property voices (js "sw") = None -> js "sw" ∉ Object_prototype ->
     _tts_voice (Some (js "sw-KE"))
     = looked_up {| languageCode := Some (js "sw-KE"); name := None;
                    ssmlGender := Some (js "NEUTRAL") |}).
Proof.
  split.
  - apply (tts_voice_region (js "en") (js "GB")). decided.
  - apply (tts_voice_region (js "sw") (js "KE")). decided.
Defined.

(** X5. A tag whose base subtag names a member of [Object.prototype] finds
    that member in both tables: neither a language code nor a voice comes
    out, and no fallback applies. *)
Theorem prototype_member_tags (lang : option jsstring) :
  base_lang lang ∈ Object_prototype ->
  _getLangCode lang = prototype_member (base_lang lang) /\
  _tts_voice lang = prototype_member (base_lang lang).
Proof.
  intros H. unfold _getLangCode, _tts_voice, lookup_or.
  rewrite (bool_decide_eq_true_2 _ H).
  unfold Object_prototype in H.
  repeat (apply elem_of_cons in H as [->|H]; [by vm_compute|]).
  by apply elem_of_nil in H.
Qed.

Lemma prototype_member_tags_witness :
  _getLangCode (Some (js "constructor")) = prototype_member (js "constructor") /\
  _tts_voice (Some (js "toString-x")) = prototype_member (js "toString").
Proof.
  split.
  - apply (prototype_member_tags (Some (js "constructor"))). decided.
  - apply (prototype_member_tags (Some (js "toString-x"))). decided.
Defined.

(** ** When [_toWav] throws *)

Lemma out_of_range_check (v max : Z) :
  v < 0 \/ max < v -> (v <? 0) || (max <? v) = true.
Proof. intros. apply orb_true_iff. lia. Qed.

Lemma toWav_out_of_range (pcm : Buffer) (rate : Z) :
  ~ (0 <= rate <= 2147483647 /\ Z.of_nat (length pcm) <= 4294967259) ->
  _toWav pcm rate = thrown RangeError.
Proof.
  intros H. unfold _toWav.
  set (n := Z.of_nat (length pcm)) in *.
  assert (Hn0 : 0 <= n) by lia.
  destruct (Z.le_gt_cases n 4294967259) as [Hn|Hn].
  - assert (E1 := in_range_check (36 + n) 4294967295 ltac:(lia)).
    assert (rate < 0 \/ 4294967295 < rate \/
            (0 <= rate <= 4294967295 /\ 4294967295 < rate * 2))
      as [Hr|[Hr|[Hr Hb]]] by lia.
    + assert (E2 := out_of_range_check rate 4294967295 ltac:(lia)).
      set (riff := 36 + n) in *. clearbody riff n.
      unfold writeUInt32LE, writeUInt16LE. rewrite E1, E2. reflexivity.
    + assert (E2 := out_of_range_check rate 4294967295 ltac:(lia)).
      set (riff := 36 + n) in *. clearbody riff n.
      unfold writeUInt32LE, writeUInt16LE. rewrite E1, E2. reflexivity.
    + assert (E2 := in_range_check rate 4294967295 ltac:(lia)).
      assert (E3 := out_of_range_check (rate * 2) 4294967295 ltac:(lia)).
      set (riff := 36 + n) in *. set (br := rate * 2) in *. clearbody riff br n.
      unfold writeUInt32LE, writeUInt16LE. rewrite E1, E2, E3. reflexivity.
  - assert (E1 := out_of_range_check (36 + n) 4294967295 ltac:(lia)).
    set (riff := 36 + n) in *. clearbody riff n.
    unfold writeUInt32LE. rewrite E1. reflexivity.
Qed.

(** X6. [_toWav] throws a RangeError exactly when the sample rate is outside
    0..2147483647 or the PCM buffer is longer than 4294967259 bytes; in
    every other case it returns. *)
Theorem toWav_throws_iff (pcm : Buffer) (rate : Z) :
  _toWav pcm rate = thrown RangeError
  <-> ~ (0 <= rate <= 2147483647 /\ Z.of_nat (length pcm) <= 4294967259).
Proof.
  split.
  - intros H [Hr Hn]. by rewrite (toWav_bytes pcm rate Hr Hn) in H.
  - apply toWav_out_of_range.
Qed.

Lemma toWav_throws_iff_witness : _toWav [0; 0] 4294967295 = thrown RangeError.
Proof. apply (toWav_throws_iff [0; 0] 4294967295). simpl. lia. Defined.

(** ** The room registry *)

(** X7. What [/room-info] reports follows the two handlers that write a room:
    after [/create-room] it shows the creator with no participant, and a
    [/join-room] on the new room succeeds and adds the participant. *)
Theorem room_info_tracks_handlers (room : jsstring) (language name : option jsstring)
    (now : Z) (b : JoinBody) (sessions : gmap jsstring Session) :
  join_roomId b = Some room ->
  let created := (create_room room language name now sessions).2 in
  let joined := join_room (Some b) created in
  room_info (Some room) created
  = (200, inr {| info_creatorLanguage := language; info_creatorName := name;
                 info_participantLanguage := None;
                 info_participantName := None |}) /\
  joined.1 = res_json (join_success language name) /\
  room_info (Some room) joined.2
  = (200, inr {| info_creatorLanguage := language; info_creatorName := name;
                 info_participantLanguage := join_participantLanguage b;
                 info_participantName := join_participantName b |}).
Proof.
  intros Hb created joined. subst joined created.
  unfold room_info, join_room, create_room. simpl. rewrite Hb. simpl.
  rewrite !lookup_insert_eq. simpl. rewrite lookup_insert_eq. done.
Qed.

Lemma room_info_tracks_handlers_witness :
  room_info (Some demo_room)
    (activeSessions (run initial
       [ http_create_room demo_room (Some (js "en-US")) (Some (js "Ann")) 0;
         http_join_room (Some {| join_roomId := Some demo_room;
                                 join_participantLanguage := Some (js "te-IN");
                                 join_participantName := Some (js "Ravi") |}) ]))
  = (200, inr {| info_creatorLanguage := Some (js "en-US");
                 info_creatorName := Some (js "Ann");
                 info_participantLanguage := Some (js "te-IN");
                 info_participantName := Some (js "Ravi") |}).
Proof.
  exact (proj2 (proj2 (room_info_tracks_handlers demo_room (Some (js "en-US"))
    (Some (js "Ann")) 0
    {| join_roomId := Some demo_room; join_participantLanguage := Some (js "te-IN");
       join_participantName := Some (js "Ravi") |} ∅ eq_refl))).
Defined.

Lemma join_room_found (room : jsstring) (b : JoinBody) (session : Session)
    (sessions : gmap jsstring Session) :
  join_roomId b = Some room -> sessions !! room = Some session ->
  join_room (Some b) sessions
  = if truthy_opt (participantLanguage session)
    then (res_status_json 400 (error_body (js "Room is full")), sessions)
    else (res_json (join_success (creatorLanguage session) (creatorName session)),
          <[room := set_participant (join_participantLanguage b)
                      (join_participantName b) session]> sessions).
Proof. intros Hb Hs. unfold join_room. rewrite Hb. simpl. by rewrite Hs. Qed.

(** X8. A room counts as full by the participant's language alone. After a
    join that gave a non-empty language every further join is refused with
    400; after a join that gave none, the next join succeeds and replaces
    the participant. *)
Theorem second_join (room : jsstring) (b1 b2 : JoinBody) (session : Session)
    (sessions : gmap jsstring Session) :
  join_roomId b1 = Some room -> join_roomId b2 = Some room ->
  sessions !! room = Some session ->
  truthy_opt (participantLanguage session) = false ->
  let first := join_room (Some b1) sessions in
  let second := join_room (Some b2) first.2 in
  status first.1 = 200 /\
  if truthy_opt (join_participantLanguage b1)
  then second = (res_status_json 400 (error_body (js "Room is full")), first.2)
  else status second.1 = 200 /\
       room_info (Some room) second.2
       = (200, inr {| info_creatorLanguage := creatorLanguage session;
                      info_creatorName := creatorName session;
                      info_participantLanguage := join_participantLanguage b2;
                      info_participantName := join_participantName b2 |}).
Proof.
  intros H1 H2 Hs Hfree first second. subst second first.
  rewrite (join_room_found room b1 session sessions H1 Hs), Hfree.
  split; [done|]. cbn [snd].
  erewrite (join_room_found room b2 _ _ H2) by apply lookup_insert_eq.
  cbn [participantLanguage set_participant].
  destruct (truthy_opt (join_participantLanguage b1)); [done|].
  split; [done|]. unfold room_info. cbn [snd mbind option_bind].
  by rewrite lookup_insert_eq.
Qed.

Lemma second_join_witness :
  let b1 := {| join_roomId := Some demo_room; join_participantLanguage := None;
               join_participantName := Some (js "Bob") |} in
  let b2 := {| join_roomId := Some demo_room;
               join_participantLanguage := Some (js "fr-FR");
               join_participantName := Some (js "Zoe") |} in
  let sessions := (create_room demo_room (Some (js "en-US")) None 0 ∅).2 in
  status (join_room (Some b2) (join_room (Some b1) sessions).2).1 = 200 /\
  join_room (Some b1) (join_room (Some b2) sessions).2
  = (res_status_json 400 (error_body (js "Room is full")),
     (join_room (Some b2) sessions).2).
Proof.
  intros b1 b2 sessions.
  assert (Hs : sessions !! demo_room
               = Some (default {| creatorLanguage := None; creatorName := None;
                                  participantLanguage := None; participantName := None;
                                  callerConnection := None; receiverConnection := None;
                                  createdAt := 0 |} (sessions !! demo_room)))
    by by vm_compute.
  split.
  - exact (proj1 (proj2 (second_join demo_room b1 b2 _ sessions eq_refl eq_refl Hs
                           eq_refl))).
  - exact (proj2 (second_join demo_room b2 b1 _ sessions eq_refl eq_refl Hs eq_refl)).
Defined.

(** ** What a task leaves alone *)

Lemma Quiet_refl w : Quiet w w.
Proof. split; [done|done|]. exists []. by rewrite app_nil_r. Qed.

Lemma socket_open_quiet w w' p :
  (forall r, ws_readyState <$> heap w' !! r = ws_readyState <$> heap w !! r) ->
  socket_open w' p <-> socket_open w p.
Proof. intros H. unfold socket_open. by rewrite H. Qed.

Lemma Quiet_trans w1 w2 w3 : Quiet w1 w2 -> Quiet w2 w3 -> Quiet w1 w3.
Proof.
  intros [S1 R1 (l1 & L1 & O1)] [S2 R2 (l2 & L2 & O2)]. split.
  - intros r. by rewrite S2, S1.
  - by rewrite R2, R1.
  - exists (l1 ++ l2). split; [by rewrite L2, L1, app_assoc|].
    unfold sends. rewrite omap_app. apply Forall_app. split; [done|].
    eapply Forall_impl; [exact O2|]. intros s Hs. by apply (socket_open_quiet w1 w2).
Qed.

Lemma Quiet_modify this f w :
  (forall c, ws_readyState (f c) = ws_readyState c) -> Quiet w (modify this f w).
Proof.
  intros Hf. split; wsimpl; [|done|exists []; by rewrite app_nil_r].
  intros r. rewrite list_lookup_alter. case_decide; [subst|done].
  destruct (heap w !! r); simpl; [|done]. by rewrite Hf.
Qed.

Lemma Quiet_relay this text w : Quiet w (emit (relay this text) w).
Proof. split; wsimpl; [done|done|]. by exists [relay this text]. Qed.

Lemma Quiet_send p m w : socket_open w p -> Quiet w (ws_send p m w).
Proof.
  intros Hp. split; wsimpl; [done|done|]. exists [sent p m]. split; [done|].
  simpl. by apply Forall_singleton.
Qed.

Lemma Quiet_enqueue j w : Quiet w (enqueue j w).
Proof. split; wsimpl; [done|done|]. exists []. by rewrite app_nil_r. Qed.

Lemma Quiet_request c w : Quiet w (request c w).
Proof. split; wsimpl; [done|done|]. exists []. by rewrite app_nil_r. Qed.

Lemma Quiet_set_jobs js w : Quiet w (set_jobs js w).
Proof. split; wsimpl; [done|done|]. exists []. by rewrite app_nil_r. Qed.

Lemma Quiet_set_calls cs w : Quiet w (set_calls cs w).
Proof. split; wsimpl; [done|done|]. exists []. by rewrite app_nil_r. Qed.

Lemma Quiet_update_session room session session' w :
  activeSessions w !! room = Some session ->
  Quiet w (set_activeSessions (<[room := session']> (activeSessions w)) w).
Proof.
  intros Hs. split; wsimpl; [done| |exists []; by rewrite app_nil_r].
  rewrite dom_insert_L. apply subseteq_union_1_L, singleton_subseteq_l.
  by apply elem_of_dom_2 in Hs.
Qed.

Lemma socket_open_lookup w p c :
  heap w !! p = Some c -> (ws_readyState c =? 1) = true -> socket_open w p.
Proof. intros Hc H. unfold socket_open. rewrite Hc. simpl. f_equal. lia. Qed.

Lemma Quiet_sendToUI this data w : Quiet w (_sendToUI this data w).
Proof.
  unfold _sendToUI. repeat case_match; try apply Quiet_refl.
  by eapply Quiet_send, socket_open_lookup.
Qed.

Lemma Quiet_notifyPartner this m w : Quiet w (_notifyPartner this m w).
Proof.
  unfold _notifyPartner. repeat case_match; try apply Quiet_refl.
  by eapply Quiet_send, socket_open_lookup.
Qed.

Lemma Quiet_registerConnection this w : Quiet w (_registerConnection this w).
Proof.
  unfold _registerConnection. repeat case_match; try apply Quiet_refl;
    by eapply Quiet_update_session.
Qed.

(** Chains of quiet steps, outermost first. *)
Ltac quiet :=
  repeat first
    [ apply Quiet_refl
    | match goal with
      | |- Quiet ?w (emit (relay _ _) ?w') =>
          apply (Quiet_trans w w'); [|apply Quiet_relay]
      | |- Quiet ?w (enqueue _ ?w') =>
          apply (Quiet_trans w w'); [|apply Quiet_enqueue]
      | |- Quiet ?w (request _ ?w') =>
          apply (Quiet_trans w w'); [|apply Quiet_request]
      | |- Quiet ?w (set_jobs _ ?w') =>
          apply (Quiet_trans w w'); [|apply Quiet_set_jobs]
      | |- Quiet ?w (set_calls _ ?w') =>
          apply (Quiet_trans w w'); [|apply Quiet_set_calls]
      | |- Quiet ?w (_sendToUI _ _ ?w') =>
          apply (Quiet_trans w w'); [|apply Quiet_sendToUI]
      | |- Quiet ?w (_notifyPartner _ _ ?w') =>
          apply (Quiet_trans w w'); [|apply Quiet_notifyPartner]
      | |- Quiet ?w (_registerConnection _ ?w') =>
          apply (Quiet_trans w w'); [|apply Quiet_registerConnection]
      | |- Quiet ?w (modify _ _ ?w') =>
          apply (Quiet_trans w w');
          [|apply Quiet_modify; intros ?;
            unfold clearSentenceTimer, _stopStream, _resetSentenceTimer;
            repeat case_match; reflexivity]
      end ].

Lemma Quiet_translateAndSpeak this text w : Quiet w (_translateAndSpeak this text w).
Proof. unfold _translateAndSpeak. repeat case_match; quiet. Qed.

Lemma Quiet_finalizeSentence this w : Quiet w (_finalizeSentence this w).
Proof.
  unfold _finalizeSentence. repeat case_match; quiet.
  eapply Quiet_trans; [|apply Quiet_translateAndSpeak]. quiet.
Qed.

Lemma Quiet_handleSTTData this response w : Quiet w (_handleSTTData this response w).
Proof. unfold _handleSTTData. repeat case_match; quiet. Qed.

Lemma Quiet_handleSTTError this w : Quiet w (_handleSTTError this w).
Proof.
  unfold _handleSTTError.
  eapply Quiet_trans; [|apply Quiet_modify; by intros ?].
  repeat case_match; quiet;
    (eapply Quiet_trans; [|apply Quiet_finalizeSentence]); quiet.
Qed.

Lemma Quiet_cleanup this w : Quiet w (cleanup this w).
Proof.
  unfold cleanup.
  eapply Quiet_trans; [|apply Quiet_enqueue].
  eapply Quiet_trans; [|apply Quiet_modify; by intros ?].
  repeat case_match; quiet;
    (eapply Quiet_trans; [|apply Quiet_finalizeSentence]); quiet.
Qed.

Lemma Quiet_handleMessage this msg w : Quiet w (handleMessage this msg w).
Proof. destruct msg; simpl; try apply Quiet_cleanup; quiet. Qed.

Lemma Quiet_resume_translated this p text translated w :
  Quiet w (resume_translated this p text translated w).
Proof. unfold resume_translated. repeat case_match; quiet. Qed.

Lemma Quiet_resume_synthesized this p audio w :
  Quiet w (resume_synthesized this p audio w).
Proof.
  unfold resume_synthesized.
  eapply Quiet_trans; [|apply Quiet_modify; by intros ?].
  destruct audio as [pcm|]; [|apply Quiet_refl].
  destruct (heap w !! p) as [pc|] eqn:Hpc; [|apply Quiet_refl].
  destruct (ws_readyState pc =? 1) eqn:Hopen; [|apply Quiet_refl].
  destruct (_toWav pcm 48000) as [wav|]; simpl; [|apply Quiet_refl].
  by eapply Quiet_send, socket_open_lookup.
Qed.

Lemma Quiet_resume_cleanup this w : Quiet w (resume_cleanup this w).
Proof.
  unfold resume_cleanup. eapply Quiet_trans; [|apply Quiet_notifyPartner].
  repeat case_match; quiet. by eapply Quiet_update_session.
Qed.

Lemma Quiet_run_job w j : Quiet w (run_job w j).
Proof.
  destruct j; simpl; [apply Quiet_resume_translated|apply Quiet_resume_cleanup].
Qed.

Lemma Quiet_fold_jobs js w : Quiet w (fold_left run_job js w).
Proof.
  revert w. induction js as [|j js IH]; intros w; simpl; [apply Quiet_refl|].
  eapply Quiet_trans; [apply Quiet_run_job|apply IH].
Qed.

Lemma Quiet_drain w : Quiet w (drain w).
Proof.
  unfold drain. eapply Quiet_trans; [apply (Quiet_set_jobs [])|apply Quiet_fold_jobs].
Qed.

Lemma leave_room_log room w : log (leave_room room w).2 = log w.
Proof. unfold leave_room. by repeat case_match. Qed.

Lemma join_room_rooms (req_body : option JoinBody) (sessions : gmap jsstring Session) :
  dom ((join_room req_body sessions).2) = dom sessions.
Proof.
  unfold join_room. repeat case_match; simpl; try done.
  destruct (join_roomId _) as [r|]; simpl in *; [|done].
  destruct (sessions !! r) as [s0|] eqn:Hs; simpl in *; simplify_eq.
  rewrite dom_insert_L. apply subseteq_union_1_L, singleton_subseteq_l.
  by apply elem_of_dom_2 in Hs.
Qed.

Lemma leave_room_rooms room w :
  dom (activeSessions ((leave_room room w).2))
  = match room with
    | Some r => dom (activeSessions w) ∖ {[r]}
    | None => dom (activeSessions w)
    end.
Proof.
  unfold leave_room. destruct room as [r|]; simpl; [|done].
  destruct (activeSessions w !! r) as [session|] eqn:Hs; simpl.
  - rewrite dom_delete_L. by repeat case_match.
  - apply not_elem_of_dom in Hs. symmetry. by apply difference_disjoint_L, disjoint_singleton_r.
Qed.

Lemma processAudio_socket now write_ok c :
  ws_readyState (_processAudio now write_ok c) = ws_readyState c.
Proof.
  unfold _processAudio, _restartStream, _startStream, _stopStream.
  repeat (case_match; vsimpl); done.
Qed.

(** The part of a task that sends: it starts from a state [w0] that has
    the log of [w] and, for a socket event, the new state of that socket. *)
Lemma Quiet_perform w e :
  exists w0,
    log w0 = log w /\ Quiet w0 (perform w e) /\
    dom (activeSessions w0)
    = match e with
      | http_create_room room _ _ _ => {[room]} ∪ dom (activeSessions w)
      | http_leave_room (Some room) => dom (activeSessions w) ∖ {[room]}
      | _ => dom (activeSessions w)
      end.
Proof.
  unfold perform. destruct e; simpl.
  - eexists. split; [|split; [apply Quiet_drain|]]; [done|]. simpl.
    by rewrite dom_insert_L.
  - eexists. split; [|split; [apply Quiet_drain|]]; [done|]. simpl.
    apply join_room_rooms.
  - eexists. split; [|split; [apply Quiet_drain|]]; [apply leave_room_log|].
    apply leave_room_rooms.
  - eexists. split; [|split; [apply Quiet_drain|]]; done.
  - exists w. split; [done|]. split; [|done].
    eapply Quiet_trans; [apply Quiet_handleMessage|apply Quiet_drain].
  - exists w. split; [done|]. split; [|done].
    eapply Quiet_trans; [|apply Quiet_drain].
    apply Quiet_modify, processAudio_socket.
  - exists (modify this (set_ws_readyState 3) w). split; [done|]. split; [|done].
    eapply Quiet_trans; [apply Quiet_cleanup|apply Quiet_drain].
  - exists (modify this (set_ws_readyState 2) w). split; [done|]. split; [|done].
    eapply Quiet_trans; [apply Quiet_cleanup|apply Quiet_drain].
  - exists w. split; [done|]. split; [|done].
    eapply Quiet_trans; [apply Quiet_handleSTTData|apply Quiet_drain].
  - exists w. split; [done|]. split; [|done].
    eapply Quiet_trans; [apply Quiet_handleSTTError|apply Quiet_drain].
  - exists w. split; [done|]. split; [|done].
    eapply Quiet_trans; [|apply Quiet_drain]. by apply Quiet_modify.
  - exists w. split; [done|]. split; [|done].
    eapply Quiet_trans; [|apply Quiet_drain].
    unfold timer_callback. repeat case_match; try apply Quiet_refl.
    apply Quiet_finalizeSentence.
  - exists w. split; [done|]. split; [|done].
    eapply Quiet_trans; [|apply Quiet_drain].
    repeat case_match; quiet.
  - exists w. split; [done|]. split; [|done].
    eapply Quiet_trans; [|apply Quiet_drain].
    repeat case_match; try apply Quiet_refl.
    eapply Quiet_trans; [|apply Quiet_resume_synthesized]. quiet.
Qed.

(** X9. No event makes the server write to a socket that is not OPEN: every
    message sent while an event is handled, promise jobs included, goes to a
    connection whose socket is open, and still is when the task ends. *)
Theorem sends_only_on_open_sockets (w : World) (e : Event) (p : ref) (m : OutMsg) :
  (p, m) ∈ sends (observed w (perform w e)) -> socket_open (perform w e) p.
Proof.
  destruct (Quiet_perform w e) as (w0 & Hlog & [S _ (l & L & O)] & _).
  unfold observed. rewrite L, <- Hlog, drop_app_length. intros H.
  apply (socket_open_quiet w0 _ p S).
  rewrite Forall_forall in O. exact (O (p, m) H).
Qed.

Lemma sends_only_on_open_sockets_witness :
  socket_open
    (perform (run initial (demo_call "es-ES")) (stt_data 0 (interim_response "hola")))
    0.
Proof.
  apply (sends_only_on_open_sockets _ _ 0%nat (transcript_interim (js "hola"))).
  vm_compute. apply list_elem_of_here.
Defined.

(** X10. Rooms come and go over HTTP only: [/create-room] adds its room,
    [/leave-room] removes the one it names, and no other event, a socket
    closing included, changes the set of registered rooms. *)
Theorem rooms_change_only_over_http (w : World) (e : Event) :
  dom (activeSessions (perform w e))
  = match e with
    | http_create_room room _ _ _ => {[room]} ∪ dom (activeSessions w)
    | http_leave_room (Some room) => dom (activeSessions w) ∖ {[room]}
    | _ => dom (activeSessions w)
    end.
Proof.
  destruct (Quiet_perform w e) as (w0 & _ & [_ R _] & H). by rewrite R.
Qed.

(** X11. The [activeRooms] that [/health] reports does not drop when the peers
    of a room hang up or lose their sockets: it changes with [/create-room]
    and [/leave-room] only. *)
Theorem health_counts_until_leave (w : World) (e : Event) :
  (forall room language name now, e <> http_create_room room language name now) ->
  (forall room, e <> http_leave_room room) ->
  health (activeSessions (perform w e)) = health (activeSessions w).
Proof.
  intros Hc Hl. unfold health. rewrite <- !size_dom.
  destruct (Quiet_perform w e) as (w0 & _ & [_ R _] & H). rewrite R, H.
  destruct e; try done; exfalso; [by eapply Hc|by eapply Hl].
Qed.

Lemma health_counts_until_leave_witness :
  let w := run initial (demo_call "es-ES") in
  health (activeSessions (perform w (ws_closed 0))) = health (activeSessions w).
Proof.
  intros w. apply (health_counts_until_leave w (ws_closed 0)); by intros.
Defined.

(** ** The end of a room and of a connection *)

Lemma ws_close_call_fields c :
  ws_readyState (ws_close_call c) <> 1 /\ roomId (ws_close_call c) = roomId c /\
  ws_close_call (ws_close_call c) = ws_close_call c.
Proof.
  unfold ws_close_call. destruct (ws_readyState c =? 3) eqn:E.
  - rewrite E. split; [lia|done].
  - by vsimpl.
Qed.

Lemma close_call_closes p w : ~ socket_open (modify p ws_close_call w) p.
Proof.
  unfold socket_open. wsimpl. rewrite list_lookup_alter_eq.
  destruct (heap w !! p) as [c|]; simpl; [|done].
  intros [= Hopen]. by apply (ws_close_call_fields c).
Qed.

Lemma close_call_keeps_closed q p w :
  ~ socket_open w p -> ~ socket_open (modify q ws_close_call w) p.
Proof.
  unfold socket_open. wsimpl. rewrite list_lookup_alter.
  case_decide; [subst|done].
  destruct (heap w !! p) as [c|]; simpl; [|done].
  intros Hc [= Hopen]. apply Hc. f_equal. revert Hopen.
  unfold ws_close_call. by case_match.
Qed.

(** X12. [/leave-room] on a registered room forgets the room and closes the
    sockets attached to it, and sends nothing: afterwards [/room-info] and
    [/join-room] answer 404 for it, and no connection that was attached has
    an open socket. *)
Theorem leave_room_closes_and_forgets (w : World) (room : jsstring) (session : Session) :
  activeSessions w !! room = Some session ->
  let w' := (leave_room (Some room) w).2 in
  (leave_room (Some room) w).1 = res_json leave_success /\
  activeSessions w' = delete room (activeSessions w) /\
  log w' = log w /\
  (forall p, callerConnection session = Some p \/ receiverConnection session = Some p ->
     ~ socket_open w' p) /\
  (room_info (Some room) (activeSessions w')).1 = 404 /\
  (forall b, join_roomId b = Some room ->
     (join_room (Some b) (activeSessions w')).1
     = res_status_json 404 (error_body (js "Room not found"))).
Proof.
  intros Hs w'. subst w'. split; [|split; [|split; [|split; [|split]]]].
  - unfold leave_room. simpl. by rewrite Hs.
  - unfold leave_room. simpl. rewrite Hs. simpl. by repeat case_match.
  - apply leave_room_log.
  - intros p Hp. unfold leave_room. simpl. rewrite Hs. simpl.
    change (socket_open (set_activeSessions ?m ?w0) p) with (socket_open w0 p).
    destruct (callerConnection session) as [a|] eqn:Ha,
             (receiverConnection session) as [b|] eqn:Hb;
      destruct Hp as [Hp|Hp]; simplify_eq;
      first [apply close_call_closes
            |apply close_call_keeps_closed, close_call_closes].
  - unfold leave_room, room_info. simpl. rewrite Hs. simpl.
    replace (activeSessions _) with (activeSessions w) by by repeat case_match.
    by rewrite lookup_delete_eq.
  - intros b Hb. unfold leave_room, join_room. simpl. rewrite Hs, Hb. simpl.
    replace (activeSessions _) with (activeSessions w) by by repeat case_match.
    by rewrite lookup_delete_eq.
Qed.

Lemma leave_room_closes_and_forgets_witness :
  let w := run initial (demo_call "es-ES") in
  let w' := (leave_room (Some demo_room) w).2 in
  ~ socket_open w' 0 /\ ~ socket_open w' 1 /\
  (room_info (Some demo_room) (activeSessions w')).1 = 404.
Proof.
  intros w w'.
  assert (Hs : activeSessions w !! demo_room
               = Some {| creatorLanguage := Some (js "en-US");
                         creatorName := Some (js "Ann");
                         participantLanguage := Some (js "es-ES");
                         participantName := Some (js "Bob");
                         callerConnection := Some 0%nat;
                         receiverConnection := Some 1%nat; createdAt := 0 |})
    by by vm_compute.
  destruct (leave_room_closes_and_forgets w demo_room _ Hs)
    as (_ & _ & _ & Hclosed & Hinfo & _).
  split; [apply Hclosed; by left|]. split; [apply Hclosed; by right|]. exact Hinfo.
Defined.

Lemma drain_idle w : jobs w = [] -> drain w = w.
Proof. intros H. unfold drain. rewrite H. destruct w. simpl in *. by subst. Qed.

Lemma run_job_heap w j : heap (run_job w j) = heap w.
Proof.
  destruct j; simpl.
  - unfold resume_translated, _sendToUI. by repeat (case_match; wsimpl).
  - unfold resume_cleanup, _notifyPartner. by repeat (case_match; wsimpl).
Qed.

Lemma fold_jobs_heap js w : heap (fold_left run_job js w) = heap w.
Proof.
  revert w. induction js as [|j js IH]; intros w; simpl; [done|].
  by rewrite IH, run_job_heap.
Qed.

Lemma drain_heap w : heap (drain w) = heap w.
Proof. unfold drain. by rewrite fold_jobs_heap. Qed.

Lemma finalize_guard_cleared c :
  finalize_guard (clearSentenceTimer c) = finalize_guard c.
Proof.
  unfold finalize_guard.
  by destruct (clearSentenceTimer_fields c) as (-> & -> & _).
Qed.

(** What [_finalizeSentence] leaves of the object it runs on. *)
Lemma finalize_settles this w c :
  heap w !! this = Some c ->
  exists c',
    heap (_finalizeSentence this w) !! this = Some c' /\
    sentenceTimer c' = false /\ finalize_guard c' = true /\
    ws_readyState c' = ws_readyState c /\ roomId c' = roomId c /\
    userType c' = userType c /\ myLanguage c' = myLanguage c /\
    recognizeStream c' = recognizeStream c /\ isStreaming c' = isStreaming c /\
    lastInterim c' = lastInterim c.
Proof.
  intros Hc. destruct (finalize_guard c) eqn:Hg.
  - rewrite (finalize_dropped _ _ _ Hc Hg).
    exists (clearSentenceTimer c). split; [by apply lookup_modify_eq|].
    rewrite finalize_guard_cleared. unfold clearSentenceTimer.
    by destruct (sentenceTimer c) eqn:E.
  - rewrite (finalize_dispatched _ _ _ Hc Hg).
    edestruct (tas_lookup this (trim (sentence c))) as [b Hb];
      [apply lookup_modify_eq, lookup_modify_eq, Hc|].
    eexists. split; [exact Hb|].
    unfold clearSentenceTimer, finalize_guard. by destruct (sentenceTimer c) eqn:E.
Qed.

(** What the synchronous part of [cleanup] leaves of the object it runs
    on. *)
Lemma cleanup_settles this w c :
  heap w !! this = Some c ->
  exists c',
    heap (cleanup this w) !! this = Some c' /\
    sentenceTimer c' = false /\ finalize_guard c' = true /\
    ws_readyState c' = ws_readyState c /\ roomId c' = roomId c /\
    userType c' = userType c /\ myLanguage c' = myLanguage c /\
    recognizeStream c' = false /\ isStreaming c' = false /\
    lastInterim c' = lastInterim c.
Proof.
  intros Hc. unfold cleanup.
  pose proof (lookup_modify_eq this clearSentenceTimer w c Hc) as Hc1.
  set (w1 := modify this clearSentenceTimer w) in *.
  assert (H1 : exists c1, heap
      match heap w1 !! this with
      | Some c0 =>
          if truthy (sentence c0) && negb (bool_decide (sentence c0 = lastSentence c0))
          then _finalizeSentence this w1 else w1
      | None => w1
      end !! this = Some c1 /\
    sentenceTimer c1 = false /\ finalize_guard c1 = true /\
    ws_readyState c1 = ws_readyState c /\ roomId c1 = roomId c /\
    userType c1 = userType c /\ myLanguage c1 = myLanguage c /\
    lastInterim c1 = lastInterim c).
  { rewrite Hc1.
    destruct (clearSentenceTimer_fields c) as (Es & El & Ei & _ & Et).
    destruct (clearSentenceTimer_user c) as (Er & Eu & Em & Ew).
    destruct (truthy (sentence (clearSentenceTimer c))
              && negb (bool_decide (sentence (clearSentenceTimer c)
                                    = lastSentence (clearSentenceTimer c)))) eqn:E.
    - destruct (finalize_settles this w1 _ Hc1)
        as (c1 & H1 & ? & ? & ? & ? & ? & ? & ? & ? & ?).
      exists c1. repeat split; congruence.
    - exists (clearSentenceTimer c). split; [done|]. split; [done|].
      split; [|done]. unfold finalize_guard. revert E.
      by destruct (truthy _), (bool_decide _). }
  destruct H1 as (c1 & H1 & Ht & Hg & Hw & Hr & Hu & Hm & Hi).
  exists (_stopStream c1). split.
  { wsimpl. by rewrite list_lookup_alter_eq, H1. }
  unfold _stopStream, finalize_guard in *. by vsimpl.
Qed.

(** X13. When a socket has closed and its task is over, the connection holds no
    timer and no stream, and nothing is left to dispatch: its sentence is
    empty or is the one dispatched last. *)
Theorem teardown_settles (w : World) (this : ref) (c : VoiceProcessor) :
  heap w !! this = Some c ->
  exists c',
    heap (perform w (ws_closed this)) !! this = Some c' /\
    ws_readyState c' = 3 /\ sentenceTimer c' = false /\
    recognizeStream c' = false /\ isStreaming c' = false /\
    finalize_guard c' = true.
Proof.
  intros Hc. unfold perform. rewrite drain_heap. simpl.
  destruct (cleanup_settles this (modify this (set_ws_readyState 3) w) _
              (lookup_modify_eq _ _ _ _ Hc))
    as (c' & H & ? & ? & ? & ? & ? & ? & ? & ? & ?).
  exists c'. by repeat split.
Qed.

Lemma teardown_settles_witness :
  let w := run initial (demo_call "es-ES"
             ++ [ws_audio 0 1000 true; stt_data 0 (final_response "I am")]) in
  exists c',
    heap (perform w (ws_closed 0)) !! 0%nat = Some c' /\
    ws_readyState c' = 3 /\ sentenceTimer c' = false /\
    recognizeStream c' = false /\ isStreaming c' = false /\
    finalize_guard c' = true.
Proof.
  intros w.
  assert (Hc : heap w !! 0%nat = Some (default new_VoiceProcessor (heap w !! 0%nat)))
    by by vm_compute.
  exact (teardown_settles w 0 _ Hc).
Defined.

Lemma tas_sessions this text w :
  activeSessions (_translateAndSpeak this text w) = activeSessions w.
Proof. unfold _translateAndSpeak. by repeat case_match. Qed.

Lemma finalize_sessions this w :
  activeSessions (_finalizeSentence this w) = activeSessions w.
Proof.
  unfold _finalizeSentence. repeat case_match; try done. by rewrite tas_sessions.
Qed.

Lemma cleanup_sessions this w : activeSessions (cleanup this w) = activeSessions w.
Proof.
  unfold cleanup. wsimpl. repeat case_match; try done. by rewrite finalize_sessions.
Qed.

Lemma set_isProcessing_round c :
  isProcessing c = false -> set_isProcessing false (set_isProcessing true c) = c.
Proof. destruct c. simpl. by intros ->. Qed.

(** A round of a connection whose room is not registered ends at once. *)
Lemma tas_unregistered this text w c :
  heap w !! this = Some c -> get_session w (roomId c) = None ->
  _translateAndSpeak this text w = emit (relay this text) w.
Proof.
  intros Hc Hs. unfold _translateAndSpeak.
  change (heap (emit (relay this text) w)) with (heap w). rewrite Hc.
  destruct (isProcessing c) eqn:Hf; [done|].
  destruct (truthy text); [|done]. cbn [negb orb].
  change (get_session (modify this (set_isProcessing true) (emit (relay this text) w))
            (roomId c)) with (get_session w (roomId c)).
  rewrite Hs, modify_modify. apply modify_fix.
  intros c' Hc'. change (heap (emit (relay this text) w)) with (heap w) in Hc'.
  simplify_eq. by apply set_isProcessing_round.
Qed.

Lemma finalize_unregistered_jobs this w c :
  heap w !! this = Some c -> get_session w (roomId c) = None ->
  jobs (_finalizeSentence this w) = jobs w.
Proof.
  intros Hc Hs. destruct (finalize_guard c) eqn:Hg.
  - by rewrite (finalize_dropped _ _ _ Hc Hg).
  - rewrite (finalize_dispatched _ _ _ Hc Hg).
    erewrite tas_unregistered; [done| |].
    + apply lookup_modify_eq, lookup_modify_eq, Hc.
    + vsimpl. by destruct (clearSentenceTimer_user c) as (-> & _).
Qed.

Lemma cleanup_unregistered_jobs this w c :
  heap w !! this = Some c -> get_session w (roomId c) = None ->
  jobs (cleanup this w) = jobs w ++ [after_stopStream this].
Proof.
  intros Hc Hs. unfold cleanup. wsimpl. f_equal.
  rewrite list_lookup_alter_eq, Hc. simpl.
  case_match; [|done].
  erewrite (finalize_unregistered_jobs this (modify this clearSentenceTimer w));
    [done|by apply lookup_modify_eq|].
  by destruct (clearSentenceTimer_user c) as (-> & _).
Qed.

Lemma resume_cleanup_unregistered this w c :
  heap w !! this = Some c -> get_session w (roomId c) = None ->
  resume_cleanup this w = w.
Proof.
  intros Hc Hs. unfold resume_cleanup, _notifyPartner. rewrite Hc.
  unfold get_session in Hs. destruct (roomId c) as [room|] eqn:Hr; simpl in *.
  - rewrite Hs. rewrite Hc, Hr. unfold get_session. simpl. by rewrite Hs.
  - by rewrite Hc, Hr.
Qed.

Lemma sends_relay_only this (b : bool) text :
  sends (if b then [] else [relay this text]) = [].
Proof. by destruct b. Qed.

(** Closing a connection whose room is not registered sends nothing. *)
Lemma close_unregistered v this w c :
  jobs w = [] -> heap w !! this = Some c -> get_session w (roomId c) = None ->
  sends (observed w (drain (cleanup this (modify this (set_ws_readyState v) w)))) = [].
Proof.
  intros Hj Hc Hs.
  set (w2 := modify this (set_ws_readyState v) w).
  assert (Hc2 : heap w2 !! this = Some (set_ws_readyState v c))
    by by apply lookup_modify_eq.
  assert (Hs2 : get_session w2 (roomId (set_ws_readyState v c)) = None) by done.
  destruct (cleanup_settles this w2 _ Hc2) as (c3 & Hc3 & _ & _ & _ & Hr3 & _).
  unfold drain. rewrite (cleanup_unregistered_jobs this w2 _ Hc2 Hs2).
  change (jobs w2) with (jobs w). rewrite Hj. simpl.
  rewrite (resume_cleanup_unregistered this _ c3); [|done|].
  - unfold observed. wsimpl. rewrite (cleanup_log this w2 _ Hc2).
    change (log w2) with (log w). rewrite drop_app_length.
    apply sends_relay_only.
  - unfold get_session. wsimpl. rewrite Hr3, cleanup_sessions. exact Hs2.
Qed.

Lemma leave_room_lookup room w r c :
  heap w !! r = Some c ->
  exists c', heap (leave_room room w).2 !! r = Some c' /\ roomId c' = roomId c.
Proof.
  intros Hc. unfold leave_room.
  assert (Hclose : forall p w' c', heap w' !! r = Some c' -> roomId c' = roomId c ->
    exists c'', heap (modify p ws_close_call w') !! r = Some c'' /\ roomId c'' = roomId c).
  { intros p w' c' Hc' Hr. rewrite lookup_modify. case_decide; [subst|by eauto].
    rewrite Hc'. simpl. eexists. split; [done|].
    by rewrite (proj1 (proj2 (ws_close_call_fields c'))). }
  destruct (room ≫= _) as [[r0 session]|]; simpl; [|by eauto].
  destruct (callerConnection session) as [a|], (receiverConnection session) as [b|];
    try by eauto.
  edestruct (Hclose a w) as (c1 & H1 & Hr1); [done..|]. by eapply Hclose.
Qed.

Lemma leave_room_jobs room w : jobs (leave_room room w).2 = jobs w.
Proof. unfold leave_room. by repeat case_match. Qed.

Lemma leave_room_forgets room w : activeSessions (leave_room (Some room) w).2 !! room = None.
Proof.
  unfold leave_room. simpl.
  destruct (activeSessions w !! room) eqn:Hs; simpl; [|done].
  replace (activeSessions _) with (activeSessions w) by by repeat case_match.
  by rewrite lookup_delete_eq.
Qed.

(** X14. [/leave-room] sends nothing itself, and once it has removed a room,
    closing one of the room's connections sends nothing either: nobody is
    told [user_left]. *)
Theorem no_farewell_after_leave_room (w : World) (this : ref) (c : VoiceProcessor)
    (room : jsstring) :
  reachable w -> heap w !! this = Some c -> roomId c = Some room ->
  let w1 := perform w (http_leave_room (Some room)) in
  log w1 = log w /\
  sends (observed w1 (perform w1 (ws_closed this))) = [].
Proof.
  intros Hw Hc Hr w1.
  destruct (reachable_Inv w Hw) as [_ Hj].
  assert (E : w1 = (leave_room (Some room) w).2).
  { subst w1. unfold perform. simpl. apply drain_idle. by rewrite leave_room_jobs. }
  rewrite E. split; [apply leave_room_log|].
  destruct (leave_room_lookup (Some room) w this c Hc) as (c1 & Hc1 & Hr1).
  unfold perform. simpl.
  apply (close_unregistered 3 this _ c1); [by rewrite leave_room_jobs|done|].
  unfold get_session. rewrite Hr1, Hr. simpl. apply leave_room_forgets.
Qed.

Lemma no_farewell_after_leave_room_witness :
  let w := run initial (demo_call "es-ES" ++ [stt_data 0 (final_response "I am")]) in
  let w1 := perform w (http_leave_room (Some demo_room)) in
  sends (observed w1 (perform w1 (ws_closed 0))) = [] /\
  relays (observed w1 (perform w1 (ws_closed 0))) = [(0%nat, js "I am")].
Proof.
  intros w w1.
  assert (Hw : reachable w) by apply reachable_run, reachable_initial.
  assert (Hc : heap w !! 0%nat = Some (default new_VoiceProcessor (heap w !! 0%nat)))
    by by vm_compute.
  split.
  - exact (proj2 (no_farewell_after_leave_room w 0 _ demo_room Hw Hc eq_refl)).
  - by vm_compute.
Defined.

Lemma notifyPartner_sessions this m w :
  activeSessions (_notifyPartner this m w) = activeSessions w.
Proof. unfold _notifyPartner. by repeat case_match. Qed.

(** X15. The continuation of [cleanup] takes the connection out of the slots of
    its room that hold it, and out of those only: a slot that another
    connection has registered in since then keeps that connection, and the
    room stays registered with its creator and participant. *)
Theorem teardown_detaches_own_slots (w : World) (this : ref) (c : VoiceProcessor)
    (room : jsstring) (session : Session) :
  heap w !! this = Some c -> roomId c = Some room ->
  activeSessions w !! room = Some session ->
  exists session',
    activeSessions (resume_cleanup this w) = <[room := session']> (activeSessions w) /\
    callerConnection session' <> Some this /\
    receiverConnection session' <> Some this /\
    (forall q, q <> this -> callerConnection session = Some q ->
       callerConnection session' = Some q) /\
    (forall q, q <> this -> receiverConnection session = Some q ->
       receiverConnection session' = Some q) /\
    room_info (Some room) (activeSessions (resume_cleanup this w))
    = room_info (Some room) (activeSessions w).
Proof.
  intros Hc Hr Hs. exists (detach this session).
  assert (E : activeSessions (resume_cleanup this w)
              = <[room := detach this session]> (activeSessions w)).
  { unfold resume_cleanup. by rewrite notifyPartner_sessions, Hc, Hr, Hs. }
  split; [done|].
  unfold room_info. rewrite E. simpl. rewrite lookup_insert_eq, Hs.
  unfold detach.
  repeat split; try intros q Hq; repeat (case_bool_decide; simpl in *);
    simplify_eq; try done; congruence.
Qed.

Lemma teardown_detaches_own_slots_witness :
  let w := run initial (demo_call "es-ES" ++
             [ws_connection;
              ws_message 2 (connected (Some demo_room) (Some (js "caller"))
                              (Some (js "en-US")) (Some (js "Ann")))]) in
  exists session',
    activeSessions (resume_cleanup 0 w) !! demo_room = Some session' /\
    callerConnection session' = Some 2%nat /\
    receiverConnection session' = Some 1%nat.
Proof.
  intros w.
  assert (Hc : heap w !! 0%nat = Some (default new_VoiceProcessor (heap w !! 0%nat)))
    by by vm_compute.
  assert (Hs : activeSessions w !! demo_room
               = Some {| creatorLanguage := Some (js "en-US");
                         creatorName := Some (js "Ann");
                         participantLanguage := Some (js "es-ES");
                         participantName := Some (js "Bob");
                         callerConnection := Some 2%nat;
                         receiverConnection := Some 1%nat; createdAt := 0 |})
    by by vm_compute.
  destruct (teardown_detaches_own_slots w 0 _ demo_room _ Hc eq_refl Hs)
    as (session' & E & _ & _ & Hcaller & Hreceiver & _).
  exists session'. rewrite E, lookup_insert_eq.
  split; [done|]. split; [by apply Hcaller|by apply Hreceiver].
Defined.

Lemma cleanup_idle this w c :
  heap w !! this = Some c -> finalize_guard c = true ->
  cleanup this w
  = enqueue (after_stopStream this)
      (modify this (_stopStream ∘ clearSentenceTimer) w).
Proof.
  intros Hc Hg. unfold cleanup.
  rewrite (lookup_modify_eq _ _ _ _ Hc).
  rewrite <- finalize_guard_cleared in Hg. unfold finalize_guard in Hg.
  replace (truthy (sentence (clearSentenceTimer c))
           && negb (bool_decide (sentence (clearSentenceTimer c)
                                 = lastSentence (clearSentenceTimer c))))
    with false by (revert Hg; by destruct (truthy _), (bool_decide _)).
  by rewrite modify_modify.
Qed.

Lemma set_jobs_enqueue j w : jobs w = [] -> set_jobs [] (enqueue j w) = w.
Proof. intros H. destruct w. simpl in *. by subst. Qed.

(** Hanging up with nothing pending: the partner is told [user_left]. *)
Lemma hangup_idle w this c p pc room session :
  jobs w = [] -> heap w !! this = Some c -> finalize_guard c = true ->
  roomId c = Some room -> activeSessions w !! room = Some session ->
  partner_of c session = Some p -> p <> this ->
  heap w !! p = Some pc -> ws_readyState pc = 1 ->
  drain (cleanup this w)
  = emit (sent p user_left)
      (set_activeSessions (<[room := detach this session]> (activeSessions w))
         (modify this (_stopStream ∘ clearSentenceTimer) w)).
Proof.
  intros Hj Hc Hg Hr Hs Hp Hne Hpc Hopen.
  rewrite (cleanup_idle _ _ _ Hc Hg). unfold drain.
  change (jobs (enqueue _ _)) with (jobs w ++ [after_stopStream this]).
  rewrite Hj. simpl. rewrite set_jobs_enqueue by done.
  rewrite (resume_cleanup_open this p (modify this (_stopStream ∘ clearSentenceTimer) w)
             ((_stopStream ∘ clearSentenceTimer) c) pc room session);
    try done.
  - by apply lookup_modify_eq.
  - simpl. by destruct (clearSentenceTimer_user c) as (-> & _).
  - unfold partner_of in *. simpl.
    by destruct (clearSentenceTimer_user c) as (_ & -> & _).
  - by rewrite lookup_modify_ne.
Qed.

(** X16. The peer is told [user_left] once for every teardown, not once for
    every connection: a [disconnect] message followed by the close of the
    socket sends it twice. *)
Theorem farewell_repeats (w : World) (this p : ref) (c pc : VoiceProcessor)
    (room : jsstring) (session : Session) :
  reachable w ->
  heap w !! this = Some c -> finalize_guard c = true ->
  roomId c = Some room -> activeSessions w !! room = Some session ->
  partner_of c session = Some p -> p <> this ->
  heap w !! p = Some pc -> ws_readyState pc = 1 ->
  observed w (run w [ws_message this disconnect; ws_closed this])
  = [sent p user_left; sent p user_left].
Proof.
  intros Hw Hc Hg Hr Hs Hp Hne Hpc Hopen.
  destruct (reachable_Inv w Hw) as [_ Hj].
  unfold run. cbn [fold_left]. unfold perform at 2. cbn [handle handleMessage].
  rewrite (hangup_idle w this c p pc room session) by done.
  set (c1 := (_stopStream ∘ clearSentenceTimer) c).
  set (w1 := emit _ _).
  assert (Hc1 : heap w1 !! this = Some c1) by by apply lookup_modify_eq.
  assert (Hf1 : finalize_guard c1 = true /\ roomId c1 = Some room /\
                userType c1 = userType c).
  { subst c1. simpl. unfold _stopStream, finalize_guard in *. vsimpl.
    destruct (clearSentenceTimer_fields c) as (-> & -> & _).
    by destruct (clearSentenceTimer_user c) as (-> & -> & _). }
  destruct Hf1 as (Hg1 & Hr1 & Hu1).
  unfold perform. cbn [handle].
  rewrite (hangup_idle (modify this (set_ws_readyState 3) w1) this
             (set_ws_readyState 3 c1) p pc room (detach this session)).
  - unfold observed. subst w1. wsimpl. rewrite <- app_assoc.
    by rewrite drop_app_length.
  - done.
  - by apply lookup_modify_eq.
  - done.
  - done.
  - subst w1. wsimpl. apply lookup_insert_eq.
  - apply partner_of_detach; [|done]. unfold partner_of in *. vsimpl. by rewrite Hu1.
  - done.
  - subst w1. rewrite lookup_modify_ne by done. wsimpl.
    by rewrite list_lookup_alter_ne.
  - done.
Qed.

Lemma farewell_repeats_witness :
  let w := run initial (demo_call "es-ES") in
  observed w (run w [ws_message 0 disconnect; ws_closed 0])
  = [sent 1%nat user_left; sent 1%nat user_left].
Proof.
  intros w.
  assert (Hw : reachable w) by apply reachable_run, reachable_initial.
  assert (Hc : heap w !! 0%nat = Some (default new_VoiceProcessor (heap w !! 0%nat)))
    by by vm_compute.
  assert (Hpc : heap w !! 1%nat = Some (default new_VoiceProcessor (heap w !! 1%nat)))
    by by vm_compute.
  assert (Hs : activeSessions w !! demo_room
               = Some {| creatorLanguage := Some (js "en-US");
                         creatorName := Some (js "Ann");
                         participantLanguage := Some (js "es-ES");
                         participantName := Some (js "Bob");
                         callerConnection := Some 0%nat;
                         receiverConnection := Some 1%nat; createdAt := 0 |})
    by by vm_compute.
  eapply (farewell_repeats w 0 1 _ _ demo_room _ Hw Hc);
    first [exact Hs | exact Hpc | by vm_compute].
Defined.

(** ** Pairing *)

Lemma connected_caller w a ca room session la na :
  heap w !! a = Some ca -> activeSessions w !! room = Some session ->
  receiverConnection session = None ->
  handleMessage a (connected (Some room) (Some (js "caller")) la na) w
  = set_activeSessions
      (<[room := set_callerConnection (Some a) session]> (activeSessions w))
      (modify a (set_user (Some room) (Some (js "caller")) la
                   (Some (or_else na (js "User")))) w).
Proof.
  intros Hca Hs Hrecv. unfold handleMessage, _registerConnection.
  rewrite (lookup_modify_eq _ _ _ _ Hca). vsimpl. wsimpl. rewrite Hs.
  rewrite bool_decide_eq_true_2 by done.
  unfold _notifyPartner. wsimpl. rewrite list_lookup_alter_eq, Hca. simpl.
  unfold get_session. simpl. rewrite lookup_insert_eq.
  unfold partner_of. simpl. rewrite ?bool_decide_eq_true_2 by done. by rewrite Hrecv.
Qed.

Lemma connected_other w b cb a ca room session tb lb nb :
  heap w !! b = Some cb -> heap w !! a = Some ca -> a <> b ->
  activeSessions w !! room = Some session ->
  callerConnection session = Some a -> tb <> Some (js "caller") ->
  handleMessage b (connected (Some room) tb lb nb) w
  = (if ws_readyState ca =? 1
     then ws_send a (user_joined (Some (or_else nb (js "User"))) lb)
     else id)
      (set_activeSessions
         (<[room := set_receiverConnection (Some b) session]> (activeSessions w))
         (modify b (set_user (Some room) tb lb (Some (or_else nb (js "User")))) w)).
Proof.
  intros Hcb Hca Hne Hs Hcaller Htb. unfold handleMessage, _registerConnection.
  rewrite (lookup_modify_eq _ _ _ _ Hcb). vsimpl. wsimpl. rewrite Hs.
  rewrite bool_decide_eq_false_2 by done.
  unfold _notifyPartner. wsimpl. rewrite list_lookup_alter_eq, Hcb. simpl.
  unfold get_session. simpl. rewrite lookup_insert_eq.
  unfold partner_of. simpl. rewrite ?bool_decide_eq_false_2 by done.
  simpl. rewrite Hcaller. rewrite list_lookup_alter_ne by done. rewrite Hca.
  by destruct (ws_readyState ca =? 1).
Qed.

(** X17. Two connections that announce themselves for a registered room whose
    receiver slot is free, the first as caller on an open socket and the
    second under any other role, end up in its two slots; the first is told
    [user_joined] with the name, or "User" when none was given, and the
    language of the second, and nothing else is sent. *)
Theorem connected_pairs_the_room (w : World) (a b : ref) (ca cb : VoiceProcessor)
    (room : jsstring) (session : Session) (la na tb lb nb : option jsstring) :
  heap w !! a = Some ca -> heap w !! b = Some cb -> a <> b ->
  activeSessions w !! room = Some session ->
  receiverConnection session = None ->
  ws_readyState ca = 1 ->
  tb <> Some (js "caller") ->
  let w' := handleMessage b (connected (Some room) tb lb nb)
              (handleMessage a (connected (Some room) (Some (js "caller")) la na) w) in
  (exists session',
     activeSessions w' !! room = Some session' /\
     callerConnection session' = Some a /\ receiverConnection session' = Some b) /\
  log w' = log w ++ [sent a (user_joined (Some (or_else nb (js "User"))) lb)].
Proof.
  intros Hca Hcb Hne Hs Hrecv Hopen Htb w'. subst w'.
  rewrite (connected_caller w a ca room session la na Hca Hs Hrecv).
  rewrite (connected_other _ b cb a
             (set_user (Some room) (Some (js "caller")) la
                (Some (or_else na (js "User"))) ca)
             room (set_callerConnection (Some a) session) tb lb nb); try done.
  - vsimpl. rewrite Hopen. simpl. split; [|done].
    eexists. split; [apply lookup_insert_eq|]. done.
  - wsimpl. by rewrite list_lookup_alter_ne.
  - wsimpl. by rewrite list_lookup_alter_eq, Hca.
  - wsimpl. apply lookup_insert_eq.
Qed.

Lemma connected_pairs_the_room_witness :
  let w := run initial
             [ http_create_room demo_room (Some (js "en-US")) (Some (js "Ann")) 0;
               ws_connection; ws_connection ] in
  let w' := handleMessage 1 (connected (Some demo_room) None (Some (js "hi-IN")) None)
              (handleMessage 0 (connected (Some demo_room) (Some (js "caller"))
                                  (Some (js "en-US")) (Some (js "Ann"))) w) in
  log w' = log w ++ [sent 0%nat (user_joined (Some (js "User")) (Some (js "hi-IN")))].
Proof.
  intros w w'.
  assert (Hs : activeSessions w !! demo_room
               = Some {| creatorLanguage := Some (js "en-US");
                         creatorName := Some (js "Ann");
                         participantLanguage := None; participantName := None;
                         callerConnection := None; receiverConnection := None;
                         createdAt := 0 |}) by by vm_compute.
  exact (proj2 (connected_pairs_the_room w 0 1 new_VoiceProcessor new_VoiceProcessor
                  demo_room _ (Some (js "en-US")) (Some (js "Ann")) None
                  (Some (js "hi-IN")) None eq_refl eq_refl ltac:(done) Hs eq_refl
                  eq_refl ltac:(done))).
Defined.

(** ** Recognition responses *)

(** X18. A response that carries no result, no alternative, or a transcript
    that is empty once trimmed changes nothing: no field, no timer, no
    message. *)
Theorem blank_response_ignored (this : ref) (response : Response) (w : World) :
  event_of response = None -> _handleSTTData this response w = w.
Proof.
  unfold event_of, _handleSTTData.
  destruct response as [|result rest]; [done|].
  destruct (alternatives result) as [|alternative others]; [done|].
  by destruct (truthy (trim alternative)).
Qed.

Lemma blank_response_ignored_witness :
  let w := run initial (demo_call "es-ES" ++ [stt_data 0 (final_response "I am")]) in
  _handleSTTData 0 (interim_response "   ") w = w /\
  _handleSTTData 0 [{| alternatives := []; isFinal := true |}] w = w.
Proof.
  intros w. split.
  - apply (blank_response_ignored 0 (interim_response "   ") w). by vm_compute.
  - by apply (blank_response_ignored 0 [{| alternatives := []; isFinal := true |}] w).
Defined.

(** X19. An interim event is echoed to the speaker alone: the preview, which is
    the accumulated sentence, a space and the fragment, is stored in
    [lastInterim] and sent as [transcript_interim] on the speaker's own
    socket when that is open; the sentence stays as it was and the silence
    timer is armed. *)
Theorem interim_is_previewed (w : World) (this : ref) (c : VoiceProcessor)
    (response : Response) (t : jsstring) :
  heap w !! this = Some c -> event_of response = Some (false, t) ->
  let preview := append_fragment (sentence c) t in
  let w' := _handleSTTData this response w in
  heap w' = <[this := set_sentenceTimer true (set_lastInterim preview c)]> (heap w) /\
  log w' = log w ++ (if ws_readyState c =? 1
                     then [sent this (transcript_interim preview)] else []) /\
  activeSessions w' = activeSessions w /\ jobs w' = jobs w /\ calls w' = calls w.
Proof.
  intros Hc He preview w'. subst w'. revert He.
  unfold event_of, _handleSTTData.
  destruct response as [|result rest]; [done|].
  destruct (alternatives result) as [|alternative others]; [done|].
  destruct (truthy (trim alternative)); [|done].
  intros [= Hf Ht]. rewrite Hf, Ht, Hc. fold preview. cbn [negb].
  unfold _sendToUI. rewrite (lookup_modify_eq _ _ _ _ Hc). vsimpl.
  assert (Hheap : alter _resetSentenceTimer this (alter (set_lastInterim preview) this (heap w))
                  = <[this := set_sentenceTimer true (set_lastInterim preview c)]> (heap w)).
  { rewrite list_alter_alter_eq. apply list_eq. intros j.
    destruct (decide (this = j)) as [<-|Hne].
    - rewrite list_lookup_alter_eq, list_lookup_insert_eq
        by (by apply lookup_lt_Some in Hc). by rewrite Hc.
    - by rewrite list_lookup_alter_ne, list_lookup_insert_ne. }
  destruct (ws_readyState c =? 1); wsimpl; rewrite ?app_nil_r; by rewrite Hheap.
Qed.

Lemma interim_is_previewed_witness :
  let w := run initial (demo_call "es-ES" ++ [stt_data 0 (final_response "I am")]) in
  let w' := _handleSTTData 0 (interim_response " here ") w in
  log w' = log w ++ [sent 0%nat (transcript_interim (js "I am here"))] /\
  sentence <$> heap w' !! 0%nat = Some (js "I am").
Proof.
  intros w w'.
  assert (Hc : heap w !! 0%nat = Some (default new_VoiceProcessor (heap w !! 0%nat)))
    by by vm_compute.
  destruct (interim_is_previewed w 0 _ (interim_response " here ") (js "here") Hc)
    as (Hheap & Hlog & _); [by vm_compute|].
  split; [exact Hlog|]. fold w' in Hheap. rewrite Hheap. by vm_compute.
Defined.

(** ** A preview that outlives its sentence *)

Lemma relays_sent l p m : relays (l ++ [sent p m]) = relays l.
Proof. unfold relays. rewrite omap_app. simpl. by rewrite app_nil_r. Qed.

Lemma run_job_relays w j : relays (log (run_job w j)) = relays (log w).
Proof.
  destruct j; simpl.
  - unfold resume_translated, _sendToUI.
    repeat (case_match; wsimpl); by rewrite ?relays_sent.
  - unfold resume_cleanup, _notifyPartner.
    repeat (case_match; wsimpl); by rewrite ?relays_sent.
Qed.

Lemma fold_jobs_relays js w : relays (log (fold_left run_job js w)) = relays (log w).
Proof.
  revert w. induction js as [|j js IH]; intros w; simpl; [done|].
  by rewrite IH, run_job_relays.
Qed.

Lemma drain_relays w : relays (log (drain w)) = relays (log w).
Proof. unfold drain. by rewrite fold_jobs_relays. Qed.

Lemma relays_observed w w' l :
  log w' = log w ++ l -> relays (log w') = relays (log w) ++ relays l.
Proof. intros ->. unfold relays. by rewrite omap_app. Qed.

Lemma finalize_dispatch_lookup this w c :
  heap w !! this = Some c -> finalize_guard c = false ->
  exists b,
    heap (_finalizeSentence this w) !! this
    = Some (set_isProcessing b
              (set_sentence [] (set_lastSentence (trim (sentence c))
                 (clearSentenceTimer c)))).
Proof.
  intros Hc Hg. rewrite (finalize_dispatched _ _ _ Hc Hg).
  edestruct (tas_lookup this (trim (sentence c))) as [b Hb];
    [apply lookup_modify_eq, lookup_modify_eq, Hc|].
  exists b. by rewrite Hb.
Qed.

(** The sentence that [_handleSTTError] works on, after the promotion of
    the preview. *)
Lemma handleSTTError_log this w c :
  heap w !! this = Some c ->
  let s := if negb (truthy (sentence c)) && truthy (lastInterim c)
              && negb (bool_decide (lastInterim c = lastSentence c))
           then lastInterim c else sentence c in
  log (_handleSTTError this w)
  = log w ++ (if truthy s && negb (bool_decide (s = lastSentence c))
              then [relay this (trim s)] else []).
Proof.
  intros Hc s. unfold _handleSTTError. wsimpl.
  set (w0 := modify this (set_stream false false) w).
  set (promote := fun c : VoiceProcessor => _).
  assert (Hc1 : heap (modify this promote w0) !! this
                = Some (set_sentence s (set_stream false false c))).
  { erewrite lookup_modify_eq; [|by apply lookup_modify_eq].
    f_equal. subst promote s. vsimpl. case_match; [done|]. by destruct c. }
  change (alter promote this (alter (set_stream false false) this (heap w)))
    with (heap (modify this promote w0)).
  rewrite Hc1. vsimpl.
  destruct (truthy s && negb (bool_decide (s = lastSentence c))) eqn:E.
  - rewrite (finalize_log _ _ _ Hc1). unfold finalize_guard. vsimpl.
    revert E. by destruct (truthy s), (bool_decide (s = lastSentence c)).
  - by rewrite app_nil_r.
Qed.

(** X20. The silence timer's finalize leaves [lastInterim] in place. When the
    preview differs from the sentence, a stream error that comes next
    promotes that preview and dispatches it as a sentence of its own: the
    relay is handed the sentence, then the preview. *)
Theorem stale_preview_dispatched (w : World) (this : ref) (c : VoiceProcessor) :
  reachable w ->
  heap w !! this = Some c -> sentenceTimer c = true ->
  sentence c <> [] -> sentence c <> lastSentence c ->
  lastInterim c <> [] -> lastInterim c <> sentence c ->
  relays (observed w (run w [timer_fired this; stt_error this]))
  = [(this, sentence c); (this, lastInterim c)].
Proof.
  intros Hw Hc Ht Hs Hd Hi Hdi.
  destruct (reachable_acc_ok _ _ _ Hw Hc) as [Hts Hti].
  assert (Hg : finalize_guard c = false).
  { unfold finalize_guard. apply truthy_nonempty in Hs. rewrite Hs.
    by rewrite bool_decide_eq_false_2. }
  set (w1 := perform w (timer_fired this)).
  assert (Hlog1 : relays (log w1) = relays (log w) ++ [(this, sentence c)]).
  { subst w1. unfold perform. rewrite drain_relays. cbn [handle]. unfold timer_callback.
    rewrite Hc, Ht, (finalize_log _ _ _ Hc), Hg, Hts. apply relays_snoc. }
  destruct (finalize_dispatch_lookup this w c Hc Hg) as [b Hc1].
  rewrite Hts in Hc1.
  set (c1 := set_isProcessing b _) in Hc1.
  assert (Hw1 : heap w1 !! this = Some c1).
  { subst w1. unfold perform. rewrite drain_heap. cbn [handle]. unfold timer_callback.
    by rewrite Hc, Ht. }
  assert (Hc1f : sentence c1 = [] /\ lastSentence c1 = sentence c /\
                 lastInterim c1 = lastInterim c).
  { subst c1. vsimpl. by destruct (clearSentenceTimer_fields c) as (_ & _ & -> & _). }
  destruct Hc1f as (E1 & E2 & E3).
  assert (Hlog2 : relays (log (perform w1 (stt_error this)))
                  = relays (log w1) ++ [(this, lastInterim c)]).
  { unfold perform. rewrite drain_relays. cbn [handle].
    rewrite (handleSTTError_log _ _ _ Hw1), E1, E2, E3. cbn [truthy negb andb].
    apply truthy_nonempty in Hi. rewrite Hi.
    rewrite !bool_decide_eq_false_2 by done. cbn [negb andb]. rewrite Hi, Hti.
    apply relays_snoc. }
  unfold run. cbn [fold_left]. fold w1.
  destruct (Quiet_perform w (timer_fired this)) as (w0 & L0 & [_ _ (l1 & L1 & _)] & _).
  destruct (Quiet_perform w1 (stt_error this)) as (w0' & L0' & [_ _ (l2 & L2 & _)] & _).
  fold w1 in L1. rewrite L0 in L1. rewrite L0' in L2.
  rewrite (relays_observed _ _ _ L1) in Hlog1.
  rewrite (relays_observed _ _ _ L2) in Hlog2.
  apply app_inv_head in Hlog1, Hlog2.
  unfold observed. rewrite L2, L1, <- app_assoc, drop_app_length.
  unfold relays in *. by rewrite omap_app, Hlog1, Hlog2.
Qed.

Lemma stale_preview_dispatched_witness :
  let w := run initial (demo_call "es-ES" ++
             [stt_data 0 (final_response "Hello"); stt_data 0 (interim_response "wor")]) in
  relays (observed w (run w [timer_fired 0; stt_error 0]))
  = [(0%nat, js "Hello"); (0%nat, js "Hello wor")].
Proof.
  intros w.
  assert (Hw : reachable w) by apply reachable_run, reachable_initial.
  assert (Hc : heap w !! 0%nat = Some (default new_VoiceProcessor (heap w !! 0%nat)))
    by by vm_compute.
  by apply (stale_preview_dispatched w 0 _ Hw Hc); vm_compute.
Defined.

(** ** What the relay is handed *)

Lemma sendToUI_relays this data w : relays (log (_sendToUI this data w)) = relays (log w).
Proof. unfold _sendToUI. repeat (case_match; wsimpl); by rewrite ?relays_sent. Qed.

Lemma notifyPartner_relays this m w :
  relays (log (_notifyPartner this m w)) = relays (log w).
Proof. unfold _notifyPartner. repeat (case_match; wsimpl); by rewrite ?relays_sent. Qed.

Lemma registerConnection_log this w : log (_registerConnection this w) = log w.
Proof. unfold _registerConnection. by repeat case_match. Qed.

Lemma handleSTTData_relays this response w :
  relays (log (_handleSTTData this response w)) = relays (log w).
Proof.
  unfold _handleSTTData. repeat (case_match; wsimpl); try done.
  by rewrite sendToUI_relays.
Qed.

Lemma resume_synthesized_relays this p audio w :
  relays (log (resume_synthesized this p audio w)) = relays (log w).
Proof.
  unfold resume_synthesized. wsimpl.
  destruct audio as [pcm|]; [|done].
  destruct (heap w !! p) as [pc|]; [|done].
  destruct (ws_readyState pc =? 1); [|done].
  destruct (_toWav pcm 48000); simpl; [|done]. by rewrite relays_sent.
Qed.

Lemma finalize_relays this w :
  (forall c, heap w !! this = Some c -> trimmed (sentence c)) ->
  exists l, relays (log (_finalizeSentence this w)) = relays (log w) ++ l /\
            Forall (fun rt => sentence_like rt.2) l.
Proof.
  intros Hacc. destruct (heap w !! this) as [c|] eqn:Hc.
  - rewrite (finalize_log _ _ _ Hc). destruct (finalize_guard c) eqn:Hg.
    + exists []. by rewrite !app_nil_r.
    + exists [(this, trim (sentence c))]. split; [apply relays_snoc|].
      apply Forall_singleton. simpl. rewrite (Hacc c eq_refl).
      split; [|by apply Hacc]. unfold finalize_guard in Hg.
      apply truthy_nonempty. by destruct (truthy (sentence c)).
  - exists []. rewrite app_nil_r. unfold _finalizeSentence.
    by rewrite lookup_modify, decide_True, Hc.
Qed.

Lemma handle_relays e w :
  (forall r c, heap w !! r = Some c -> acc_ok c) ->
  exists l, relays (log (handle e w)) = relays (log w) ++ l /\
            Forall (fun rt => sentence_like rt.2) l.
Proof.
  intros Hacc.
  assert (Hsame : forall w', relays (log w') = relays (log w) ->
    exists l, relays (log w') = relays (log w) ++ l /\
              Forall (fun rt => sentence_like rt.2) l).
  { intros w' ->. exists []. by rewrite app_nil_r. }
  assert (Hclean : forall this w0,
    log w0 = log w ->
    (forall c, heap w0 !! this = Some c -> trimmed (sentence c)) ->
    exists l, relays (log (cleanup this w0)) = relays (log w) ++ l /\
              Forall (fun rt => sentence_like rt.2) l).
  { intros this w0 Hlog Hacc0. unfold cleanup. wsimpl.
    rewrite list_lookup_alter_eq.
    destruct (heap w0 !! this) as [c|] eqn:Hc; simpl;
      [|apply Hsame; exact (f_equal relays Hlog)].
    case_match; [|apply Hsame; exact (f_equal relays Hlog)].
    destruct (finalize_relays this (modify this clearSentenceTimer w0)) as (l & Hl & Hok).
    - intros c'. rewrite (lookup_modify_eq _ _ _ _ Hc). intros [= <-].
      destruct (clearSentenceTimer_fields c) as (-> & _). by apply Hacc0.
    - exists l. rewrite Hl. split; [|done]. f_equal. exact (f_equal relays Hlog). }
  destruct e; cbn [handle]; try (by apply Hsame).
  - apply Hsame. by rewrite leave_room_log.
  - destruct msg; cbn [handleMessage]; try (by apply Hsame).
    + apply Hsame. by rewrite notifyPartner_relays, registerConnection_log.
    + apply Hclean; [done|]. intros c Hc. by apply (Hacc this c).
    + apply Hclean; [done|]. intros c Hc. by apply (Hacc this c).
  - apply Hclean; [done|]. intros c.
    rewrite lookup_modify, decide_True by done.
    destruct (heap w !! this) as [c0|] eqn:Hc0; [|done]. intros [= <-].
    by apply (Hacc this c0).
  - apply Hclean; [done|]. intros c.
    rewrite lookup_modify, decide_True by done.
    destruct (heap w !! this) as [c0|] eqn:Hc0; [|done]. intros [= <-].
    by apply (Hacc this c0).
  - apply Hsame, handleSTTData_relays.
  - destruct (heap w !! this) as [c|] eqn:Hc.
    + rewrite (handleSTTError_log _ _ _ Hc).
      match goal with
      | |- context [if ?b then lastInterim c else sentence c] =>
          set (s := if b then lastInterim c else sentence c)
      end.
      assert (Hs : trimmed s).
      { subst s. destruct (Hacc this c Hc). by case_match. }
      destruct (truthy s && negb (bool_decide (s = lastSentence c))) eqn:E.
      * exists [(this, trim s)]. split; [apply relays_snoc|].
        apply Forall_singleton. simpl. rewrite Hs. split; [|done].
        apply truthy_nonempty. by destruct (truthy s).
      * exists []. by rewrite !app_nil_r.
    + apply Hsame. unfold _handleSTTError. wsimpl.
      rewrite !list_lookup_alter_eq, Hc. done.
  - unfold timer_callback. destruct (heap w !! this) as [c|] eqn:Hc; [|by apply Hsame].
    case_match; [|by apply Hsame].
    apply finalize_relays. intros c' Hc'. by apply (Hacc this c').
  - repeat case_match; by apply Hsame.
  - repeat case_match; try (by apply Hsame).
    apply Hsame. by rewrite resume_synthesized_relays.
Qed.

(** X21. Whatever the events, [_translateAndSpeak] is only ever called with a
    text that is not empty and has no white space at either end. *)
Theorem relay_gets_sentences (w : World) :
  reachable w -> Forall (fun rt => sentence_like rt.2) (relays (log w)).
Proof.
  induction 1 as [|w e Hw IH]; [by constructor|].
  unfold perform. rewrite drain_relays.
  destruct (handle_relays e w) as (l & -> & Hl).
  - intros r c. by apply reachable_acc_ok.
  - by apply Forall_app.
Qed.

Lemma relay_gets_sentences_witness :
  let w := run initial (demo_call "es-ES" ++
             [stt_data 0 (final_response "  Good  "); stt_data 0 (final_response " day ");
              timer_fired 0]) in
  relays (log w) = [(0%nat, js "Good day")] /\
  Forall (fun rt => sentence_like rt.2) (relays (log w)).
Proof.
  intros w. split; [by vm_compute|].
  apply (relay_gets_sentences w). apply reachable_run, reachable_initial.
Defined.

(** ** The two engine replies *)

Lemma resume_translated_effect this p text translated w c pc :
  heap w !! this = Some c -> heap w !! p = Some pc ->
  let data := translation text translated (userType c) (myLanguage c) (myLanguage pc) in
  log (resume_translated this p text translated w)
  = log w ++ (if ws_readyState c =? 1 then [sent this data] else [])
          ++ (if ws_readyState pc =? 1 then [sent p data] else []) /\
  calls (resume_translated this p text translated w)
  = calls w ++ [synthesize_call this p translated (myLanguage pc)] /\
  jobs (resume_translated this p text translated w) = jobs w.
Proof.
  intros Hc Hpc data.
  assert (E : resume_translated this p text translated w
              = request (synthesize_call this p translated (myLanguage pc))
                  ((if ws_readyState pc =? 1 then emit (sent p data) else id)
                     ((if ws_readyState c =? 1 then emit (sent this data) else id) w))).
  { unfold resume_translated. rewrite Hc, Hpc. fold data. f_equal.
    unfold _sendToUI at 2. rewrite Hc. unfold _sendToUI, ws_send.
    destruct (ws_readyState c =? 1); wsimpl; rewrite Hpc;
      by destruct (ws_readyState pc =? 1). }
  rewrite E.
  destruct (ws_readyState c =? 1), (ws_readyState pc =? 1); wsimpl;
    rewrite <- ?app_assoc, ?app_nil_r; done.
Qed.

(** X22. When the translation engine replies, both peers are sent the same
    [translation] message, the speaker first, each on an open socket only;
    it carries the engine's text, or the original text when the engine
    failed. Synthesis of that text is then requested in the partner's
    language. *)
Theorem translation_reaches_both (w : World) (i : nat) (this p : ref)
    (text fromLang toLang : jsstring) (c pc : VoiceProcessor)
    (reply : option jsstring) :
  reachable w ->
  calls w !! i = Some (translate_call this p text fromLang toLang) ->
  heap w !! this = Some c -> heap w !! p = Some pc ->
  let translated := default text reply in
  let data := translation text translated (userType c) (myLanguage c) (myLanguage pc) in
  let w' := perform w (translate_reply i reply) in
  observed w w'
  = (if ws_readyState c =? 1 then [sent this data] else [])
    ++ (if ws_readyState pc =? 1 then [sent p data] else []) /\
  calls w' = delete i (calls w) ++ [synthesize_call this p translated (myLanguage pc)].
Proof.
  intros Hw Hi Hc Hpc translated data w'.
  destruct (reachable_Inv w Hw) as [_ Hj].
  assert (E : w' = resume_translated this p text translated
                     (set_calls (delete i (calls w)) w)).
  { subst w'. unfold perform. cbn [handle]. rewrite Hi. unfold drain.
    change (jobs (enqueue _ _))
      with (jobs w ++ [after_translate this p text (_translate_settle text reply)]).
    rewrite Hj. cbn [app fold_left run_job].
    replace (_translate_settle text reply) with translated by by destruct reply.
    f_equal. destruct w. simpl in *. by subst. }
  rewrite E.
  destruct (resume_translated_effect this p text translated
              (set_calls (delete i (calls w)) w) c pc Hc Hpc) as (Hlog & Hcalls & _).
  split; [|exact Hcalls].
  unfold observed. rewrite Hlog. by rewrite drop_app_length.
Qed.

Lemma translation_reaches_both_witness :
  let w := run initial (demo_call "es-ES" ++
             [stt_data 0 (final_response "I am"); timer_fired 0]) in
  let data := translation (js "I am") (js "I am") (Some (js "caller"))
                (Some (js "en-US")) (Some (js "es-ES")) in
  observed w (perform w (translate_reply 0 None)) = [sent 0%nat data; sent 1%nat data].
Proof.
  intros w data.
  assert (Hw : reachable w) by apply reachable_run, reachable_initial.
  assert (Hc : heap w !! 0%nat = Some (default new_VoiceProcessor (heap w !! 0%nat)))
    by by vm_compute.
  assert (Hpc : heap w !! 1%nat = Some (default new_VoiceProcessor (heap w !! 1%nat)))
    by by vm_compute.
  assert (Hi : calls w !! 0%nat
               = Some (translate_call 0 1 (js "I am") (js "en") (js "es")))
    by by vm_compute.
  destruct (translation_reaches_both w 0 0 1 _ _ _ _ _ None Hw Hi Hc Hpc) as [H _].
  vm_compute in H |- *. exact H.
Defined.




(** X24. The translation engine is only ever asked with base subtags: the two
    languages of a request hold no hyphen and differ, and the text is the
    one given. *)
Theorem translate_asks_with_base_tags (text : jsstring) (from to : option jsstring)
    (t fromLang toLang : jsstring) :
  _translate text from to = translate_pending t fromLang toLang ->
  t = text /\ fromLang = base_lang from /\ toLang = base_lang to /\
  fromLang <> toLang /\ (HYPHEN ∉ fromLang) /\ (HYPHEN ∉ toLang).
Proof.
  unfold _translate. case_bool_decide as Hd; [done|].
  intros [= <- <- <-]. repeat split; try done; apply split_head_clean.
Qed.

Lemma translate_asks_with_base_tags_witness :
  (HYPHEN ∉ js "zh") /\ (HYPHEN ∉ js "pt").
Proof.
  apply (translate_asks_with_base_tags (js "Ola") (Some (js "zh-Hant-TW"))
           (Some (js "pt-BR")) (js "Ola") (js "zh") (js "pt")).
  by vm_compute.
Defined.

(** ** The recognition stream *)

Lemma processAudio_when_opening_succeeds audio now write_ok c :
  Stream._processAudio (Some audio) (Some now) now (Some now) write_ok (Some now) c
  = _processAudio now write_ok c.
Proof. reflexivity. Qed.

(** X25. Handling audio, restarts of the stream included, touches the stream
    fields only: the accumulated sentence, the preview, the last sentence,
    the timer, the processing flag, the socket and the identity of the
    connection are what they were, whether or not the stream opens and the
    write succeeds. *)
Theorem audio_touches_the_stream_only (base64Audio : option jsstring)
    (first : option Z) (now : Z) (second : option Z) (write_ok : bool)
    (third : option Z) (c : VoiceProcessor) :
  let c' := Stream._processAudio base64Audio first now second write_ok third c in
  set_streamCreatedAt (streamCreatedAt c)
    (set_stream (recognizeStream c) (isStreaming c) c') = c /\
  sentence (Stream._restartStream second c) = sentence c.
Proof.
  unfold Stream._processAudio, Stream._restartStream, Stream._startStream, _stopStream.
  split; [|by repeat (case_match; vsimpl)].
  destruct c. repeat (case_match; vsimpl); done.
Qed.

(** X26. With a language set and audio in the message, the stream is running
    once the message is handled, provided the openings that were attempted
    succeeded; without a language, or without audio, nothing changes. In
    every case a stream handle is stored exactly while the stream counts as
    running. *)
Theorem audio_keeps_the_stream_running (base64Audio : option jsstring)
    (first : option Z) (now : Z) (second : option Z) (write_ok : bool)
    (third : option Z) (c : VoiceProcessor) :
  stream_consistent c ->
  let c' := Stream._processAudio base64Audio first now second write_ok third c in
  stream_consistent c' /\
  (truthy_opt (myLanguage c) = true -> is_Some base64Audio ->
   is_Some first -> is_Some second -> is_Some third ->
   isStreaming c' = true /\ recognizeStream c' = true) /\
  (truthy_opt (myLanguage c) = false \/ base64Audio = None -> c' = c).
Proof.
  intros Hc c'. subst c'. unfold stream_consistent in *.
  unfold Stream._processAudio, Stream._restartStream, Stream._startStream, _stopStream.
  split; [|split].
  - repeat (case_match; vsimpl); congruence.
  - intros Hl [a ->] [t1 ->] [t2 ->] [t3 ->]. rewrite Hl. cbn [negb].
    repeat (case_match; vsimpl); split; congruence.
  - intros [->| ->]; [done|]. by case_match.
Qed.

Lemma audio_keeps_the_stream_running_witness :
  let c := set_user (Some demo_room) (Some (js "caller")) (Some (js "en-US"))
             (Some (js "Ann")) new_VoiceProcessor in
  let c' := Stream._processAudio (Some (js "AAAA")) (Some 1000) 1000 None false
              (Some 1001) c in
  stream_consistent c' /\ streamCreatedAt c' = 1001.
Proof.
  intros c c'. split; [|done].
  exact (proj1 (audio_keeps_the_stream_running (Some (js "AAAA")) (Some 1000) 1000
                  None false (Some 1001) c eq_refl)).
Defined.
